(** * iksolver: a FABRIK inverse-kinematics solver over a tree of joints

    A shallow embedding of [include/iksolver.h] and the verification of its
    specification.  The C code works on [float]s, on joints linked by
    pointers, and on one global path stack; the embedding keeps the three:

    - arithmetic is taken through the interface [Num], with two instances:
      [xreal] (the reals with one not-a-number value, "exact arithmetic") and
      [f32] (IEEE 754 binary32 from the standard library's [SpecFloat], which
      computes);
    - joints live in a store, a finite map from addresses to records, and a
      pointer is an optional address ([None] is [NULL]);
    - every function is a computation in a state and error monad over the
      store and the path stack; the recursive ones take fuel, since nothing
      in a store of pointers makes them terminate;
    - the arrays behind the vertex buffers live in a store of their own,
      with its own monad (see "Vertex buffers"). *)

From Stdlib Require Import Reals Lra Lia ZArith SpecFloat.
From stdpp Require Import gmap list.

Set Default Proof Using "Type".
Set Warnings "-register-all".

(** ** Arithmetic *)

(** The operations the solver applies to [float] values. *)
Class Num (F : Type) := {
  fzero : F;                       (* 0.0f *)
  fone : F;                        (* 1.0f, and the int 1 converted *)
  fadd : F -> F -> F;
  fsub : F -> F -> F;
  fmul : F -> F -> F;
  fdiv : F -> F -> F;
  fneg : F -> F;                   (* unary minus *)
  fsqrt : F -> F;                  (* IK_SQRT *)
  feqb : F -> F -> bool;           (* == *)
  fgtb : F -> F -> bool            (* > *)
}.

Declare Scope num_scope.
Delimit Scope num_scope with num.
Infix "⊕" := fadd (at level 50, left associativity) : num_scope.
Infix "⊖" := fsub (at level 50, left associativity) : num_scope.
Infix "⊗" := fmul (at level 40, left associativity) : num_scope.
Infix "⊘" := fdiv (at level 40, left associativity) : num_scope.
Notation "⊟ x" := (fneg x) (at level 35, right associativity) : num_scope.
Infix "≗" := feqb (at level 70, no associativity) : num_scope.
Infix "⋗" := fgtb (at level 70, no associativity) : num_scope.

(** *** Exact arithmetic: the reals and one undefined value

    [NaN] is what a division by zero and the root of a negative number give,
    and every operation on it gives it again; a comparison with it is false,
    as for an IEEE not-a-number.  (IEEE keeps x/0 for x <> 0 apart as an
    infinity; in exact arithmetic the only division by zero the solver can
    perform is the 0/0 of [ik_align_branch], see [align_matrix_fin].) *)
Inductive xreal : Type :=
| Fin (r : R)
| NaN.

Definition xlift2 (f : R -> R -> R) (a b : xreal) : xreal :=
  match a, b with
  | Fin x, Fin y => Fin (f x y)
  | _, _ => NaN
  end.

Definition xdiv (a b : xreal) : xreal :=
  match a, b with
  | Fin x, Fin y => if Req_EM_T y 0 then NaN else Fin (x / y)
  | _, _ => NaN
  end.

Definition xneg (a : xreal) : xreal :=
  match a with
  | Fin x => Fin (- x)
  | NaN => NaN
  end.

Definition xsqrt (a : xreal) : xreal :=
  match a with
  | Fin x => if Rlt_dec x 0 then NaN else Fin (sqrt x)
  | NaN => NaN
  end.

Definition xeqb (a b : xreal) : bool :=
  match a, b with
  | Fin x, Fin y => if Req_EM_T x y then true else false
  | _, _ => false
  end.

Definition xgtb (a b : xreal) : bool :=
  match a, b with
  | Fin x, Fin y => if Rgt_dec x y then true else false
  | _, _ => false
  end.

#[export] Instance xreal_num : Num xreal := {
  fzero := Fin 0;
  fone := Fin 1;
  fadd := xlift2 Rplus;
  fsub := xlift2 Rminus;
  fmul := xlift2 Rmult;
  fdiv := xdiv;
  fneg := xneg;
  fsqrt := xsqrt;
  feqb := xeqb;
  fgtb := xgtb
}.

(** *** IEEE 754 binary32, round to nearest even *)

Definition f32 : Type := spec_float.
Definition f32_prec : Z := 24.
Definition f32_emax : Z := 128.

#[export] Instance f32_num : Num f32 := {
  fzero := S754_zero false;
  fone := S754_finite false 8388608 (-23);
  fadd := SFadd f32_prec f32_emax;
  fsub := SFsub f32_prec f32_emax;
  fmul := SFmul f32_prec f32_emax;
  fdiv := SFdiv f32_prec f32_emax;
  fneg := SFopp;
  fsqrt := SFsqrt f32_prec f32_emax;
  feqb := SFeqb;
  fgtb := fun a b => SFltb b a
}.

(** The binary32 value of an integer (exact below 2^24). *)
Definition f32_of_Z (z : Z) : f32 :=
  match z with
  | Z0 => S754_zero false
  | Zpos p => binary_normalize f32_prec f32_emax (Zpos p) 0 false
  | Zneg p => SFopp (binary_normalize f32_prec f32_emax (Zpos p) 0 false)
  end.

(** ** The data model *)

(** Addresses of allocated joints; a pointer is an address or [NULL]. *)
Abbreviation addr := nat (only parsing).
Abbreviation pointer := (option nat) (only parsing).
Definition NULL : pointer := None.

Definition IK_ERROR : Z := 0.
Definition IK_OK : Z := 1.
Definition IK_STACK_SIZE : nat := 1024.

(** [ik_vec2]. *)
Record ik_vec2 (F : Type) : Type := Vec2 { x : F; y : F }.
Arguments Vec2 {F} x y.
Arguments x {F} i.
Arguments y {F} i.

(** [struct ik_joint].  The flexible array [children] is a list of slots;
    [n_children], which [ik_new_joint] sets to the number of slots and
    nothing writes afterwards, is its length.  The field [length] of the C
    struct is [seg_length] here (the length of the segment to the parent). *)
Record ik_joint (F : Type) : Type := Joint {
  position : ik_vec2 F;
  seg_length : F;
  parent : pointer;
  children : list pointer
}.
Arguments Joint {F} position seg_length parent children.
Arguments position {F} i.
Arguments seg_length {F} i.
Arguments parent {F} i.
Arguments children {F} i.

(** [struct ik_matrix]: C = cos |angle|, S = sin |angle|, P = sgn angle. *)
Record ik_matrix (F : Type) : Type := Matrix { mC : F; mS : F; mP : F }.
Arguments Matrix {F} mC mS mP.
Arguments mC {F} i.
Arguments mS {F} i.
Arguments mP {F} i.

(** The memory the library works on: the allocated joints and the global
    [ik_stack] (its entries below [end], the top first).  [pushes] and [pops]
    are ghost counters, not in the C code: the number of entries written by
    [ik_stack_push] and taken off by [ik_stack_pop] so far. *)
Record world (F : Type) : Type := World {
  joints : gmap addr (ik_joint F);
  ik_stack : list pointer;
  pushes : nat;
  pops : nat
}.
Arguments World {F} joints ik_stack pushes pops.
Arguments joints {F} w.
Arguments ik_stack {F} w.
Arguments pushes {F} w.
Arguments pops {F} w.

(** ** The monad *)

(** What C leaves undefined and the embedding reports. *)
Inductive fault : Type :=
| NullDeref          (* a field of NULL is read or written *)
| InvalidPointer     (* a field of an address that holds no joint *)
| StackOverflow.     (* ik_stack_push beyond IK_STACK_SIZE entries *)

Inductive outcome (A : Type) : Type :=
| Ok (a : A)
| Fault (f : fault)
| OutOfFuel.
Arguments Ok {A} a.
Arguments Fault {A} f.
Arguments OutOfFuel {A}.

(** State (the world [W]) and faults. *)
Definition M (W A : Type) : Type := W -> outcome (A * W).

Definition ret {W A} (a : A) : M W A := fun w => Ok (a, w).

Definition bind {W A B} (m : M W A) (k : A -> M W B) : M W B :=
  fun w =>
    match m w with
    | Ok (a, w') => k a w'
    | Fault f => Fault f
    | OutOfFuel => OutOfFuel
    end.

Definition raise {W A} (f : fault) : M W A := fun _ => Fault f.
Definition out_of_fuel {W A} : M W A := fun _ => OutOfFuel.

Notation "x <- m ;; k" := (bind m (fun x => k))
  (at level 100, m at next level, right associativity).
Notation "m ;; k" := (bind m (fun _ => k))
  (at level 100, right associativity).

(** A [for] loop over the child slots of a joint, in slot order.  The slots
    and their number are read once: no function of the solver writes them
    (only [ik_attach_joint] does, see [same_links]). *)
Fixpoint for_each {W A} (l : list A) (body : A -> M W unit) : M W unit :=
  match l with
  | [] => ret tt
  | a :: l' => body a ;; for_each l' body
  end.

Definition when {W} (b : bool) (m : M W unit) : M W unit :=
  if b then m else ret tt.

Section Solver.
Context {F : Type} {num : Num F}.
Local Open Scope num_scope.

Local Abbreviation vec2 := (ik_vec2 F).
Local Abbreviation joint := (ik_joint F).
Local Abbreviation matrix := (ik_matrix F).
Local Abbreviation heap := (gmap addr (ik_joint F)).
Local Abbreviation W := (world F).

Definition n_children (j : joint) : nat := List.length (children j).

Definition set_position (v : vec2) (j : joint) : joint :=
  Joint v (seg_length j) (parent j) (children j).

Definition set_parent (p : pointer) (j : joint) : joint :=
  Joint (position j) (seg_length j) p (children j).

Definition set_children (cs : list pointer) (j : joint) : joint :=
  Joint (position j) (seg_length j) (parent j) cs.

Definition set_joints (h : heap) (w : W) : W :=
  World h (ik_stack w) (pushes w) (pops w).

(** [*p], read as a whole joint. *)
Definition load (p : pointer) : M W joint :=
  fun w =>
    match p with
    | None => Fault NullDeref
    | Some a =>
        match joints w !! a with
        | Some j => Ok (j, w)
        | None => Fault InvalidPointer
        end
    end.

(** A write to fields of [*p]: the joint there becomes [f] of it. *)
Definition modify (p : pointer) (f : joint -> joint) : M W unit :=
  fun w =>
    match p with
    | None => Fault NullDeref
    | Some a =>
        match joints w !! a with
        | Some j => Ok (tt, set_joints (<[a := f j]> (joints w)) w)
        | None => Fault InvalidPointer
        end
    end.

(** [p->position = v]. *)
Definition store_position (p : pointer) (v : vec2) : M W unit :=
  modify p (set_position v).

(** ** Internal functions *)

(** [length(x, y)]: the length of the vector (x, y). *)
Definition vec_length (a b : F) : F := fsqrt (a ⊗ a ⊕ b ⊗ b).

(** [ik_stack_push]: no bounds check in C; the write beyond the array is the
    fault [StackOverflow]. *)
Definition ik_stack_push (j : pointer) : M W unit :=
  fun w =>
    if decide (List.length (ik_stack w) < IK_STACK_SIZE)%nat
    then Ok (tt, World (joints w) (j :: ik_stack w) (S (pushes w)) (pops w))
    else Fault StackOverflow.

(** [ik_stack_pop]: [NULL] on the empty stack. *)
Definition ik_stack_pop : M W pointer :=
  fun w =>
    match ik_stack w with
    | [] => Ok (NULL, w)
    | j :: s => Ok (j, World (joints w) s (pushes w) (S (pops w)))
    end.

(** [ik_stack_top]. *)
Definition ik_stack_top : M W pointer :=
  fun w =>
    match ik_stack w with
    | [] => Ok (NULL, w)
    | j :: _ => Ok (j, w)
    end.

(** The new position [ik_align_branch_precalc] gives one joint: translate by
    [offset], then rotate about [pivot]. *)
Definition align_position (pivot : vec2) (mat : matrix) (offset : vec2)
    (pos : vec2) : vec2 :=
  (* Translate *)
  let px := x pos ⊕ x offset in
  let py := y pos ⊕ y offset in
  (* Rotate *)
  let px := px ⊖ x pivot in
  let py := py ⊖ y pivot in
  let tmp_x := px in
  let px := mC mat ⊗ px ⊕ (⊟ mP mat ⊗ mS mat) ⊗ py in
  let py := (mP mat ⊗ mS mat) ⊗ tmp_x ⊕ mC mat ⊗ py in
  Vec2 (px ⊕ x pivot) (py ⊕ y pivot).

(** [ik_align_branch_precalc]. *)
Fixpoint ik_align_branch_precalc (fuel : nat) (root : pointer) (pivot : vec2)
    (mat : matrix) (offset : vec2) : M W unit :=
  match fuel with
  | O => out_of_fuel
  | S fuel =>
      r <- load root ;;
      store_position root (align_position pivot mat offset (position r)) ;;
      for_each (children r) (fun child =>
        ik_align_branch_precalc fuel child pivot mat offset)
  end.

(** The rotation [ik_align_branch] finds from the vectors [from] and [to]. *)
Definition align_matrix (from to : vec2) : matrix :=
  (* C = cos(angle) *)
  let C_denom := vec_length (x from) (y from) ⊗ vec_length (x to) (y to) in
  let C := (x from ⊗ x to ⊕ y from ⊗ y to) ⊘ C_denom in
  (* S = sin(angle) *)
  let S2 := fone ⊖ C ⊗ C in
  let S := fsqrt (if S2 ⋗ fzero then S2 else fzero) in
  (* P = sgn(angle) *)
  let P := if x from ⊗ y to ⊖ y from ⊗ x to ⋗ fzero
           then fone else ⊟ fone in
  Matrix C S P.

(** [ik_align_branch]: the pivot is the position of the parent of [root]. *)
Definition ik_align_branch (fuel : nat) (root : pointer) (from to : vec2)
    : M W unit :=
  let mat := align_matrix from to in
  let offset := Vec2 (x to ⊖ x from) (y to ⊖ y from) in
  r <- load root ;;
  p <- load (parent r) ;;
  ik_align_branch_precalc fuel root (position p) mat offset.

(** [ik_align_branch_only_translate]. *)
Fixpoint ik_align_branch_only_translate (fuel : nat) (root : pointer)
    (offset_x offset_y : F) : M W unit :=
  match fuel with
  | O => out_of_fuel
  | S fuel =>
      r <- load root ;;
      store_position root
        (Vec2 (x (position r) ⊕ offset_x) (y (position r) ⊕ offset_y)) ;;
      for_each (children r) (fun child =>
        ik_align_branch_only_translate fuel child offset_x offset_y)
  end.

(** The position [ik_move_within_dist] gives a joint at [pos]. *)
Definition move_within_dist (pos : vec2) (distance target_x target_y : F)
    : vec2 :=
  let dx := x pos ⊖ target_x in
  let dy := y pos ⊖ target_y in
  let norm_denom := vec_length dx dy in
  if norm_denom ≗ fzero
  then Vec2 target_x target_y
  else Vec2 (target_x ⊕ distance ⊗ dx ⊘ norm_denom)
            (target_y ⊕ distance ⊗ dy ⊘ norm_denom).

(** [ik_move_within_dist]. *)
Definition ik_move_within_dist (j : pointer) (distance target_x target_y : F)
    : M W unit :=
  r <- load j ;;
  store_position j (move_within_dist (position r) distance target_x target_y).

(** [ik_reach_back].  The out-parameters [root], [root_org_x] and
    [root_org_y], written when the root is reached, are the result. *)
Fixpoint ik_reach_back (fuel : nat) (effected : pointer)
    (target_x target_y distance : F) : M W (pointer * F * F) :=
  match fuel with
  | O => out_of_fuel
  | S fuel =>
      e <- load effected ;;
      let org_x := x (position e) in
      let org_y := y (position e) in
      (* Move effected towards target *)
      ik_move_within_dist effected distance target_x target_y ;;
      (* Align the branches of the other children *)
      when (bool_decide (1 < n_children e)%nat) (
        path_child <- ik_stack_top ;;
        match parent e with
        | Some _ =>
            e1 <- load effected ;;
            p <- load (parent e) ;;
            let from := Vec2 (org_x ⊖ x (position p))
                             (org_y ⊖ y (position p)) in
            let to := Vec2 (x (position e1) ⊖ x (position p))
                           (y (position e1) ⊖ y (position p)) in
            for_each (children e) (fun child =>
              when (bool_decide (child <> path_child))
                (ik_align_branch fuel child from to))
        | None =>
            (* Root of whole tree: only translate *)
            for_each (children e) (fun child =>
              when (bool_decide (child <> path_child)) (
                e1 <- load effected ;;
                ik_align_branch_only_translate fuel child
                  (x (position e1) ⊖ org_x) (y (position e1) ⊖ org_y)))
        end) ;;
      match parent e with
      | None =>
          (* Terminate if we've reached root *)
          ret (effected, org_x, org_y)
      | Some _ =>
          p <- load (parent e) ;;
          when (bool_decide (1 < n_children p)%nat) (ik_stack_push effected) ;;
          e2 <- load effected ;;
          ik_reach_back fuel (parent e)
            (x (position e2)) (y (position e2)) (seg_length e2)
      end
  end.

(** [ik_reach_forward]. *)
Fixpoint ik_reach_forward (fuel : nat) (root : pointer)
    (distance target_x target_y : F) : M W unit :=
  match fuel with
  | O => out_of_fuel
  | S fuel =>
      r <- load root ;;
      let org_x := x (position r) in
      let org_y := y (position r) in
      (* Move root towards target *)
      ik_move_within_dist root distance target_x target_y ;;
      if bool_decide (n_children r = 0)%nat
      then ret tt (* Terminate if we've reached leaf *)
      else
        path_child <-
          (if bool_decide (1 < n_children r)%nat
           then
             path_child <- ik_stack_pop ;;
             match parent r with
             | Some _ =>
                 r1 <- load root ;;
                 p <- load (parent r) ;;
                 let from := Vec2 (org_x ⊖ x (position p))
                                  (org_y ⊖ y (position p)) in
                 let to := Vec2 (x (position r1) ⊖ x (position p))
                                (y (position r1) ⊖ y (position p)) in
                 for_each (children r) (fun child =>
                   when (bool_decide (child <> path_child))
                     (ik_align_branch fuel child from to))
             | None =>
                 for_each (children r) (fun child =>
                   when (bool_decide (child <> path_child)) (
                     r1 <- load root ;;
                     ik_align_branch_only_translate fuel child
                       (x (position r1) ⊖ org_x) (y (position r1) ⊖ org_y)))
             end ;;
             ret path_child
           else ret (default NULL (head (children r)))) ;;
        (* Recurse *)
        c <- load path_child ;;
        r2 <- load root ;;
        ik_reach_forward fuel path_child
          (seg_length c) (x (position r2)) (y (position r2))
  end.

(** [ik_translate_relative]: translates a branch by the vector (dx, dy). *)
Fixpoint ik_translate_relative (fuel : nat) (root : pointer) (dx dy : F)
    : M W unit :=
  match fuel with
  | O => out_of_fuel
  | S fuel =>
      r <- load root ;;
      store_position root (Vec2 (x (position r) ⊕ dx) (y (position r) ⊕ dy)) ;;
      for_each (children r) (fun child =>
        ik_translate_relative fuel child dx dy)
  end.

(** ** Interface functions *)

(** [ik_init]. *)
Definition ik_init : M W unit :=
  fun w => Ok (tt, World (joints w) [] (pushes w) (pops w)).

(** [ik_new_joint]: [IK_MALLOC] gives an address that holds no joint yet. *)
Definition ik_new_joint (len : F) (n : nat) : M W pointer :=
  fun w =>
    let a := fresh (dom (joints w)) in
    let j := Joint (Vec2 fzero fzero) len NULL (replicate n NULL) in
    Ok (Some a, set_joints (<[a := j]> (joints w)) w).

(** The loop of [ik_attach_joint] from slot [i] on, [slots] being the slots
    of the parent from there. *)
Fixpoint ik_attach_joint_from (i : nat) (slots : list pointer)
    (child parent_ : pointer) : M W Z :=
  match slots with
  | [] => ret IK_ERROR
  | slot :: rest =>
      if bool_decide (slot = NULL)
      then
        modify parent_ (fun p => set_children (<[i := child]> (children p)) p) ;;
        modify child (set_parent parent_) ;;
        ret IK_OK
      else ik_attach_joint_from (S i) rest child parent_
  end.

(** [ik_attach_joint]. *)
Definition ik_attach_joint (child parent_ : pointer) : M W Z :=
  p <- load parent_ ;;
  ik_attach_joint_from 0 (children p) child parent_.

(** [ik_translate]: sets the root position to (x, y). *)
Definition ik_translate (fuel : nat) (root : pointer) (x_ y_ : F) : M W unit :=
  r <- load root ;;
  let dx := x_ ⊖ x (position r) in
  let dy := y_ ⊖ y (position r) in
  ik_translate_relative fuel root dx dy.

(** [ik_solve]. *)
Definition ik_solve (fuel : nat) (effected : pointer) (target_x target_y : F)
    : M W Z :=
  res <- ik_reach_back fuel effected target_x target_y fzero ;;
  let '(root, root_org_x, root_org_y) := res in
  ik_reach_forward fuel root fzero root_org_x root_org_y ;;
  ret 1%Z.

End Solver.

(** ** Reasoning about computations *)

Section Monad.
Context {W : Type}.

Lemma bind_Ok {A B} (m : M W A) (k : A -> M W B) w a w1 :
  m w = Ok (a, w1) -> bind m k w = k a w1.
Proof. intros Hm. unfold bind. by rewrite Hm. Qed.

Lemma bind_Fault {A B} (m : M W A) (k : A -> M W B) w f :
  m w = Fault f -> bind m k w = Fault f.
Proof. intros Hm. unfold bind. by rewrite Hm. Qed.

Lemma bind_Ok_inv {A B} (m : M W A) (k : A -> M W B) w r :
  bind m k w = Ok r -> exists a w1, m w = Ok (a, w1) /\ k a w1 = Ok r.
Proof.
  unfold bind. destruct (m w) as [[a w1]| |]; [eauto | done | done].
Qed.

Lemma for_each_ext {A} (l : list A) (f g : A -> M W unit) w :
  (forall a w, f a w = g a w) -> for_each l f w = for_each l g w.
Proof.
  intros Hfg. revert w. induction l as [|a l IH]; intros w; [done|].
  simpl. unfold bind. rewrite Hfg. destruct (g a w) as [[[] w1]| |]; auto.
Qed.

Lemma for_each_app {A} (l1 l2 : list A) (f : A -> M W unit) w :
  for_each (l1 ++ l2) f w = (for_each l1 f ;; for_each l2 f) w.
Proof.
  revert w. induction l1 as [|a l1 IH]; intros w; simpl; [done|].
  unfold bind in *. destruct (f a w) as [[[] w1]| |]; [apply IH|done..].
Qed.

End Monad.

(** ** Trees of joints in the store *)

(** The shape of a tree: the address of a joint and the trees in its child
    slots, in slot order. *)
Inductive shape : Type :=
| Sh (a : addr) (kids : list shape).

Definition root_addr (t : shape) : addr :=
  match t with Sh a _ => a end.

Definition kids_of (t : shape) : list shape :=
  match t with Sh _ kids => kids end.

(** The addresses of the joints of a tree, in the order the recursive
    functions visit them. *)
Fixpoint ids (t : shape) : list addr :=
  match t with Sh a kids => a :: concat (List.map ids kids) end.

Definition ids_list (ts : list shape) : list addr := concat (List.map ids ts).

Fixpoint height (t : shape) : nat :=
  match t with Sh _ kids => S (foldr Nat.max 0 (List.map height kids)) end.

Definition slots_of (kids : list shape) : list pointer :=
  List.map (fun k => Some (root_addr k)) kids.

Lemma shape_ind' (P : shape -> Prop) :
  (forall a kids, Forall P kids -> P (Sh a kids)) -> forall t, P t.
Proof.
  intros HP. fix IH 1. intros [a kids]. apply HP.
  induction kids as [|k kids IHk]; constructor; [apply IH | apply IHk].
Qed.

Lemma height_kid k kids :
  k ∈ kids -> height k <= foldr Nat.max 0 (List.map height kids).
Proof.
  induction kids as [|k' kids IH]; intros Hin; [by apply elem_of_nil in Hin|].
  apply elem_of_cons in Hin as [->|Hin]; simpl; [lia|].
  specialize (IH Hin). lia.
Qed.

Section Trees.
Context {F : Type} {num : Num F}.
Local Open Scope num_scope.

Local Abbreviation vec2 := (ik_vec2 F).
Local Abbreviation joint := (ik_joint F).
Local Abbreviation heap := (gmap addr (ik_joint F)).
Local Abbreviation W := (world F).

(** [is_tree h par t]: in the store [h] the joints of [t] are linked as [t]
    says, every child slot attached, and the root has the parent [par]. *)
Inductive is_tree (h : heap) : pointer -> shape -> Prop :=
| is_tree_node par a kids j :
    h !! a = Some j ->
    parent j = par ->
    children j = slots_of kids ->
    Forall (is_tree h (Some a)) kids ->
    is_tree h par (Sh a kids).

(** What of a joint the solver never writes. *)
Definition links (j : joint) : F * pointer * list pointer :=
  (seg_length j, parent j, children j).

Definition same_links (h h' : heap) : Prop := links <$> h' = links <$> h.

(** What [ik_align_branch_precalc], [ik_align_branch_only_translate] and
    [ik_translate_relative] do to one joint, [g] being the map on positions. *)
Definition move_joint (g : vec2 -> vec2) (j : joint) : joint :=
  set_position (g (position j)) j.

(** The store after the joints at [X] were moved by [g], in the order of [X]. *)
Definition map_pos (g : vec2 -> vec2) (X : list addr) (h : heap) : heap :=
  foldl (fun h a => alter (move_joint g) a h) h X.

(** The traversal the three functions share. *)
Fixpoint map_branch (g : vec2 -> vec2) (fuel : nat) (root : pointer)
    : M W unit :=
  match fuel with
  | O => out_of_fuel
  | S fuel =>
      r <- load root ;;
      store_position root (g (position r)) ;;
      for_each (children r) (map_branch g fuel)
  end.

(** The position of the joint at [a], and its segment length. *)
Definition pos (h : heap) (a : addr) : vec2 :=
  from_option position (Vec2 fzero fzero) (h !! a).

Definition len (h : heap) (a : addr) : F :=
  from_option seg_length fzero (h !! a).

Lemma load_Some (w : W) a j :
  joints w !! a = Some j -> load (Some a) w = Ok (j, w).
Proof. intros Hj. unfold load. by rewrite Hj. Qed.

Lemma modify_Some (w : W) a j f :
  joints w !! a = Some j ->
  modify (Some a) f w = Ok (tt, set_joints (<[a := f j]> (joints w)) w).
Proof. intros Hj. unfold modify. by rewrite Hj. Qed.

Lemma same_links_refl h : same_links h h.
Proof. done. Qed.

Lemma same_links_trans h1 h2 h3 :
  same_links h1 h2 -> same_links h2 h3 -> same_links h1 h3.
Proof. unfold same_links. congruence. Qed.

Lemma same_links_lookup h h' a j :
  same_links h h' -> h !! a = Some j ->
  exists j', h' !! a = Some j' /\ links j' = links j.
Proof.
  intros Hl Hj. assert (Ha : (links <$> h') !! a = Some (links j)).
  { rewrite Hl, lookup_fmap, Hj. done. }
  rewrite lookup_fmap in Ha. destruct (h' !! a) as [j'|]; [|done].
  simpl in Ha. exists j'. split; [done|congruence].
Qed.

Lemma same_links_sym h h' : same_links h h' -> same_links h' h.
Proof. unfold same_links. congruence. Qed.

Lemma same_links_insert h a j j' :
  h !! a = Some j -> links j' = links j -> same_links h (<[a := j']> h).
Proof.
  intros Hj Hl. unfold same_links. rewrite fmap_insert, Hl.
  apply insert_id. by rewrite lookup_fmap, Hj.
Qed.

Lemma same_links_alter g h a : same_links h (alter (move_joint g) a h).
Proof.
  unfold same_links. apply map_eq. intros b.
  rewrite !lookup_fmap. destruct (decide (a = b)) as [->|Hne].
  - rewrite lookup_alter_eq. by destruct (h !! b).
  - by rewrite lookup_alter_ne.
Qed.

Lemma same_links_map_pos g X h : same_links h (map_pos g X h).
Proof.
  revert h. induction X as [|a X IH]; intros h; [done|]. simpl.
  eapply same_links_trans; [apply (same_links_alter g h a) | apply IH].
Qed.

Lemma is_tree_same_links h h' par t :
  same_links h h' -> is_tree h par t -> is_tree h' par t.
Proof.
  intros Hl. revert par. induction t as [a kids IH] using shape_ind'.
  intros par Ht. inversion Ht as [? ? ? j Hj Hp Hc Hk]; subst.
  destruct (same_links_lookup _ _ _ _ Hl Hj) as (j' & Hj' & Hlj).
  unfold links in Hlj. simplify_eq.
  econstructor; [done|congruence|congruence|].
  rewrite Forall_forall in IH, Hk |- *. intros k Hin. apply IH; auto.
Qed.

Lemma set_joints_set_joints (h h' : heap) (w : W) :
  set_joints h (set_joints h' w) = set_joints h w.
Proof. done. Qed.

Lemma joints_set_joints (h : heap) (w : W) : joints (set_joints h w) = h.
Proof. done. Qed.

Lemma set_joints_id (w : W) : set_joints (joints w) w = w.
Proof. by destruct w. Qed.

Lemma alter_move_joint g (h : heap) a j :
  h !! a = Some j ->
  <[a := set_position (g (position j)) j]> h = alter (move_joint g) a h.
Proof.
  intros Hj. apply map_eq. intros b. destruct (decide (a = b)) as [->|Hne].
  - by rewrite lookup_insert_eq, lookup_alter_eq, Hj.
  - by rewrite lookup_insert_ne, lookup_alter_ne.
Qed.

Lemma map_pos_app g X1 X2 h :
  map_pos g (X1 ++ X2) h = map_pos g X2 (map_pos g X1 h).
Proof. apply foldl_app. Qed.

Lemma map_pos_lookup_notin g X h a :
  a ∉ X -> map_pos g X h !! a = h !! a.
Proof.
  revert h. induction X as [|b X IH]; intros h Hin; [done|]. simpl.
  apply not_elem_of_cons in Hin as [Hne Hin].
  rewrite IH by done. by rewrite lookup_alter_ne.
Qed.

Lemma map_pos_lookup_in g X h a :
  NoDup X -> a ∈ X -> map_pos g X h !! a = move_joint g <$> h !! a.
Proof.
  revert h. induction X as [|b X IH]; intros h Hnd Hin.
  { by apply elem_of_nil in Hin. }
  apply NoDup_cons in Hnd as [Hb Hnd]. simpl.
  apply elem_of_cons in Hin as [->|Hin].
  - rewrite map_pos_lookup_notin by done. by rewrite lookup_alter_eq.
  - rewrite IH by done. rewrite lookup_alter_ne; [done|]. by intros ->.
Qed.

(** The three traversals are [map_branch]. *)
Lemma ik_align_branch_precalc_map fuel root pivot mat offset (w : W) :
  ik_align_branch_precalc fuel root pivot mat offset w
  = map_branch (align_position pivot mat offset) fuel root w.
Proof.
  revert root w. induction fuel as [|fuel IH]; intros root w; [done|].
  simpl. unfold bind. destruct (load root w) as [[r w1]| |]; [|done..].
  destruct (store_position _ _ _) as [[[] w2]| |]; [|done..].
  apply for_each_ext. intros. apply IH.
Qed.

Lemma ik_align_branch_only_translate_map fuel root ox oy (w : W) :
  ik_align_branch_only_translate fuel root ox oy w
  = map_branch (fun p => Vec2 (x p ⊕ ox) (y p ⊕ oy)) fuel root w.
Proof.
  revert root w. induction fuel as [|fuel IH]; intros root w; [done|].
  simpl. unfold bind. destruct (load root w) as [[r w1]| |]; [|done..].
  destruct (store_position _ _ _) as [[[] w2]| |]; [|done..].
  apply for_each_ext. intros. apply IH.
Qed.

Lemma ik_translate_relative_map fuel root dx dy (w : W) :
  ik_translate_relative fuel root dx dy w
  = map_branch (fun p => Vec2 (x p ⊕ dx) (y p ⊕ dy)) fuel root w.
Proof.
  revert root w. induction fuel as [|fuel IH]; intros root w; [done|].
  simpl. unfold bind. destruct (load root w) as [[r w1]| |]; [|done..].
  destruct (store_position _ _ _) as [[[] w2]| |]; [|done..].
  apply for_each_ext. intros. apply IH.
Qed.

(** On a tree, [map_branch] moves every joint of the tree, and nothing else. *)
Lemma map_branch_kids g fuel par kids (w : W) :
  (forall t par (w : W), is_tree (joints w) par t -> height t <= fuel ->
     map_branch g fuel (Some (root_addr t)) w
     = Ok (tt, set_joints (map_pos g (ids t) (joints w)) w)) ->
  Forall (is_tree (joints w) par) kids ->
  Forall (fun k => height k <= fuel) kids ->
  for_each (slots_of kids) (map_branch g fuel) w
  = Ok (tt, set_joints (map_pos g (ids_list kids) (joints w)) w).
Proof.
  intros IH. revert w. induction kids as [|k kids IHk]; intros w Ht Hh.
  { simpl. unfold ret. by rewrite set_joints_id. }
  apply Forall_cons in Ht as [Hk Ht]. apply Forall_cons in Hh as [Hhk Hh].
  simpl. erewrite bind_Ok by (by eapply IH).
  rewrite IHk; [|simpl; eapply Forall_impl; [exact Ht|]|done].
  - simpl. unfold ids_list. simpl. by rewrite map_pos_app.
  - intros t. apply is_tree_same_links, same_links_map_pos.
Qed.

Lemma map_branch_tree g fuel t par (w : W) :
  is_tree (joints w) par t -> height t <= fuel ->
  map_branch g fuel (Some (root_addr t)) w
  = Ok (tt, set_joints (map_pos g (ids t) (joints w)) w).
Proof.
  revert t par w. induction fuel as [|fuel IH]; intros [a kids] par w Ht Hh.
  { simpl in Hh. lia. }
  inversion Ht as [? ? ? j Hj Hp Hc Hk]; subst.
  simpl. erewrite bind_Ok by (by apply load_Some).
  unfold store_position. erewrite bind_Ok by (by apply modify_Some).
  rewrite Hc. erewrite map_branch_kids; [|exact IH| |].
  - simpl. by rewrite (alter_move_joint g _ _ _ Hj).
  - simpl. eapply Forall_impl; [exact Hk|]. intros t.
    apply is_tree_same_links. by eapply same_links_insert.
  - simpl in Hh. apply Forall_forall. intros k Hin.
    pose proof (height_kid k kids Hin). lia.
Qed.

End Trees.

(** ** One step of a pass: move a joint, align the branches off the path *)

Section Step.
Context {F : Type} {num : Num F}.
Local Open Scope num_scope.

Local Abbreviation vec2 := (ik_vec2 F).
Local Abbreviation joint := (ik_joint F).
Local Abbreviation heap := (gmap addr (ik_joint F)).
Local Abbreviation W := (world F).

(** The alignment loops of [ik_reach_back] and [ik_reach_forward], which are
    the same text in both: [e] is the joint as read before it moved,
    (org_x, org_y) its position then, [path_child] the child to leave out. *)
Definition align_children (fuel : nat) (self : pointer) (e : joint)
    (org_x org_y : F) (path_child : pointer) : M W unit :=
  match parent e with
  | Some _ =>
      e1 <- load self ;;
      p <- load (parent e) ;;
      let from := Vec2 (org_x ⊖ x (position p)) (org_y ⊖ y (position p)) in
      let to := Vec2 (x (position e1) ⊖ x (position p))
                     (y (position e1) ⊖ y (position p)) in
      for_each (children e) (fun child =>
        when (bool_decide (child <> path_child))
          (ik_align_branch fuel child from to))
  | None =>
      for_each (children e) (fun child =>
        when (bool_decide (child <> path_child)) (
          e1 <- load self ;;
          ik_align_branch_only_translate fuel child
            (x (position e1) ⊖ org_x) (y (position e1) ⊖ org_y)))
  end.

Lemma ik_reach_back_unfold fuel effected tx ty d :
  ik_reach_back (S fuel) effected tx ty d =
  (e <- load effected ;;
   ik_move_within_dist effected d tx ty ;;
   when (bool_decide (1 < n_children e)%nat) (
     path_child <- ik_stack_top ;;
     align_children fuel effected e (x (position e)) (y (position e))
       path_child) ;;
   match parent e with
   | None => ret (effected, x (position e), y (position e))
   | Some _ =>
       p <- load (parent e) ;;
       when (bool_decide (1 < n_children p)%nat) (ik_stack_push effected) ;;
       e2 <- load effected ;;
       ik_reach_back fuel (parent e)
         (x (position e2)) (y (position e2)) (seg_length e2)
   end).
Proof. reflexivity. Qed.

Lemma ik_reach_forward_unfold fuel root d tx ty :
  ik_reach_forward (S fuel) root d tx ty =
  (r <- load root ;;
   ik_move_within_dist root d tx ty ;;
   if bool_decide (n_children r = 0)%nat
   then ret tt
   else
     path_child <-
       (if bool_decide (1 < n_children r)%nat
        then
          path_child <- ik_stack_pop ;;
          align_children fuel root r (x (position r)) (y (position r))
            path_child ;;
          ret path_child
        else ret (default NULL (head (children r)))) ;;
     c <- load path_child ;;
     r2 <- load root ;;
     ik_reach_forward fuel path_child
       (seg_length c) (x (position r2)) (y (position r2))).
Proof. reflexivity. Qed.

(** The map an alignment applies to the positions of a branch, for a joint
    that moved from [org] to [new] and whose parent (if any) is at [pp]. *)
Definition align_map (org new : vec2) (pp : option vec2) (q : vec2) : vec2 :=
  match pp with
  | Some p =>
      let from := Vec2 (x org ⊖ x p) (y org ⊖ y p) in
      let to := Vec2 (x new ⊖ x p) (y new ⊖ y p) in
      align_position new (align_matrix from to)
        (Vec2 (x to ⊖ x from) (y to ⊖ y from)) q
  | None => Vec2 (x q ⊕ (x new ⊖ x org)) (y q ⊕ (y new ⊖ y org))
  end.

(** The children that are aligned when [pc] is the path child. *)
Definition sibs_of (kids : list shape) (pc : pointer) : list shape :=
  filter (fun k => Some (root_addr k) <> pc) kids.

Lemma ids_list_cons t ts : ids_list (t :: ts) = ids t ++ ids_list ts.
Proof. done. Qed.

Lemma ids_list_app ts1 ts2 : ids_list (ts1 ++ ts2) = ids_list ts1 ++ ids_list ts2.
Proof. unfold ids_list. by rewrite List.map_app, concat_app. Qed.

Lemma elem_of_ids_list a ts : a ∈ ids_list ts <-> exists t, t ∈ ts /\ a ∈ ids t.
Proof.
  induction ts as [|t ts IH].
  - split; [intros Hin; by apply elem_of_nil in Hin|].
    intros (t & Hin & _). by apply elem_of_nil in Hin.
  - rewrite ids_list_cons, elem_of_app, IH. split.
    + intros [Ha|(t' & Ht' & Ha)]; [exists t|exists t'];
        (split; [|done]); [left|by right].
    + intros (t' & Ht' & Ha). apply elem_of_cons in Ht' as [->|Ht'];
        [by left|right; eauto].
Qed.

Lemma root_in_ids t : root_addr t ∈ ids t.
Proof. destruct t. simpl. left. Qed.

Lemma align_loop_parent fuel e j1 from to pc kids (w : W) :
  joints w !! e = Some j1 ->
  Forall (is_tree (joints w) (Some e)) kids ->
  e ∉ ids_list kids ->
  Forall (fun k => height k <= fuel) (sibs_of kids pc) ->
  for_each (slots_of kids) (fun child =>
    when (bool_decide (child <> pc)) (ik_align_branch fuel child from to)) w
  = Ok (tt, set_joints
        (map_pos (align_position (position j1) (align_matrix from to)
                    (Vec2 (x to ⊖ x from) (y to ⊖ y from)))
           (ids_list (sibs_of kids pc)) (joints w)) w).
Proof.
  revert w. induction kids as [|k kids IH]; intros w He Ht Hne Hh.
  { simpl. unfold ret. by rewrite set_joints_id. }
  apply Forall_cons in Ht as [Hk Ht].
  rewrite ids_list_cons in Hne. apply not_elem_of_app in Hne as [Hek Hne].
  simpl. case_bool_decide as Hpc.
  - unfold sibs_of in *. rewrite filter_cons_True in Hh |- * by done.
    fold (sibs_of kids pc) in *. apply Forall_cons in Hh as [Hhk Hh].
    simpl.
    assert (Hrun : ik_align_branch fuel (Some (root_addr k)) from to w
      = Ok (tt, set_joints (map_pos (align_position (position j1)
           (align_matrix from to) (Vec2 (x to ⊖ x from) (y to ⊖ y from)))
           (ids k) (joints w)) w)).
    { unfold ik_align_branch. inversion Hk as [? ? ? jk Hjk Hp Hc Hks]; subst.
      simpl. erewrite bind_Ok by (by apply load_Some). rewrite Hp.
      erewrite bind_Ok by (by apply load_Some).
      rewrite ik_align_branch_precalc_map.
      by apply (map_branch_tree _ _ (Sh a kids0) (Some e)). }
    erewrite bind_Ok by exact Hrun.
    rewrite IH; simpl.
    + rewrite ids_list_cons. by rewrite map_pos_app.
    + by rewrite map_pos_lookup_notin.
    + eapply Forall_impl; [exact Ht|]. intros t.
      apply is_tree_same_links, same_links_map_pos.
    + done.
    + done.
  - unfold sibs_of in *.
    rewrite filter_cons_False in Hh |- * by (intros Hn; by apply Hn).
    fold (sibs_of kids pc) in *. simpl. unfold bind, ret. by apply IH.
Qed.

Lemma align_loop_root fuel e j1 ox oy pc kids (w : W) :
  joints w !! e = Some j1 ->
  Forall (is_tree (joints w) (Some e)) kids ->
  e ∉ ids_list kids ->
  Forall (fun k => height k <= fuel) (sibs_of kids pc) ->
  for_each (slots_of kids) (fun child =>
    when (bool_decide (child <> pc)) (
      e1 <- load (Some e) ;;
      ik_align_branch_only_translate fuel child
        (x (position e1) ⊖ ox) (y (position e1) ⊖ oy))) w
  = Ok (tt, set_joints
        (map_pos (align_map (Vec2 ox oy) (position j1) None)
           (ids_list (sibs_of kids pc)) (joints w)) w).
Proof.
  revert w. induction kids as [|k kids IH]; intros w He Ht Hne Hh.
  { simpl. unfold ret. by rewrite set_joints_id. }
  apply Forall_cons in Ht as [Hk Ht].
  rewrite ids_list_cons in Hne. apply not_elem_of_app in Hne as [Hek Hne].
  simpl. case_bool_decide as Hpc.
  - unfold sibs_of in *. rewrite filter_cons_True in Hh |- * by done.
    fold (sibs_of kids pc) in *. apply Forall_cons in Hh as [Hhk Hh].
    simpl.
    erewrite bind_Ok; cycle 1.
    { erewrite bind_Ok by (by apply load_Some).
      rewrite ik_align_branch_only_translate_map.
      by eapply map_branch_tree. }
    rewrite IH; simpl.
    + rewrite ids_list_cons. by rewrite map_pos_app.
    + by rewrite map_pos_lookup_notin.
    + eapply Forall_impl; [exact Ht|]. intros t.
      apply is_tree_same_links, same_links_map_pos.
    + done.
    + done.
  - unfold sibs_of in *.
    rewrite filter_cons_False in Hh |- * by (intros Hn; by apply Hn).
    fold (sibs_of kids pc) in *. simpl. unfold bind, ret. by apply IH.
Qed.

Lemma ids_list_filter_sublist (P : shape -> Prop) `{!forall k, Decision (P k)}
    kids :
  ids_list (filter P kids) `sublist_of` ids_list kids.
Proof.
  induction kids as [|k kids IH]; [done|].
  rewrite filter_cons. destruct (decide (P k)).
  - rewrite !ids_list_cons. by apply sublist_app.
  - rewrite ids_list_cons. by apply sublist_inserts_l.
Qed.

Lemma vec2_eta (v : vec2) : Vec2 (x v) (y v) = v.
Proof. by destruct v. Qed.

(** The children aligned at a joint with the child trees [kids], [pc] being
    the top of the path stack: none unless there is more than one child. *)
Definition esibs (kids : list shape) (pc : pointer) : list shape :=
  if bool_decide (1 < List.length kids)%nat then sibs_of kids pc else [].

(** What a step at the joint [e] does, between the stores [h] (before) and
    [h'] (after): [e] is moved within [d] of the target, and the joints of
    the branches [sibs] are aligned; [pp] is the position of the parent. *)
Definition node_rel (h h' : heap) (pp : option vec2) (e : addr)
    (sibs : list shape) (d tx ty : F) : Prop :=
  h' !! e = move_joint (fun p => move_within_dist p d tx ty) <$> h !! e /\
  forall q, q ∈ ids_list sibs ->
    h' !! q = move_joint (align_map (pos h e) (pos h' e) pp) <$> h !! q.

Definition agree_on (X : list addr) (h0 h : heap) : Prop :=
  forall a, a ∈ X -> h !! a = h0 !! a.

(** The store after a step at [e], whose joint is [j]. *)
Definition step_heap (h : heap) (e : addr) (j : joint) (pp : option vec2)
    (sibs : list shape) (d tx ty : F) : heap :=
  let new := move_within_dist (position j) d tx ty in
  map_pos (align_map (position j) new pp) (ids_list sibs)
    (<[e := set_position new j]> h).

Lemma ik_move_within_dist_Some (w : W) e j d tx ty :
  joints w !! e = Some j ->
  ik_move_within_dist (Some e) d tx ty w
  = Ok (tt, set_joints
        (<[e := set_position (move_within_dist (position j) d tx ty) j]>
           (joints w)) w).
Proof.
  intros Hj. unfold ik_move_within_dist.
  erewrite bind_Ok by (by apply load_Some).
  unfold store_position. by apply modify_Some.
Qed.

Lemma align_children_spec fuel e kids par pp pc (w : W) j j1 :
  joints w !! e = Some j1 ->
  parent j = par ->
  children j = slots_of kids ->
  Forall (is_tree (joints w) (Some e)) kids ->
  e ∉ ids_list kids ->
  Forall (fun k => height k <= fuel) (sibs_of kids pc) ->
  match par with
  | Some pa => exists pj, joints w !! pa = Some pj /\ pp = Some (position pj)
  | None => pp = None
  end ->
  align_children fuel (Some e) j (x (position j)) (y (position j)) pc w
  = Ok (tt, set_joints
        (map_pos (align_map (position j) (position j1) pp)
           (ids_list (sibs_of kids pc)) (joints w)) w).
Proof.
  intros He Hp Hc Ht Hne Hh Hpar. unfold align_children. rewrite Hp, Hc.
  destruct par as [pa|].
  - destruct Hpar as (pj & Hpj & ->).
    erewrite bind_Ok by (by apply load_Some).
    erewrite bind_Ok by (by apply load_Some).
    by rewrite (align_loop_parent fuel e j1) by done.
  - subst pp. rewrite (align_loop_root fuel e j1) by done.
    by rewrite (vec2_eta (position j)).
Qed.

Lemma align_children_step fuel e kids pp pc (w : W) j d tx ty :
  is_tree (joints w) (parent j) (Sh e kids) ->
  joints w !! e = Some j ->
  NoDup (ids (Sh e kids)) ->
  Forall (fun k => height k <= fuel) (sibs_of kids pc) ->
  match parent j with
  | Some pa =>
      pa <> e /\ exists pj, joints w !! pa = Some pj /\ pp = Some (position pj)
  | None => pp = None
  end ->
  align_children fuel (Some e) j (x (position j)) (y (position j)) pc
    (set_joints
       (<[e := set_position (move_within_dist (position j) d tx ty) j]>
          (joints w)) w)
  = Ok (tt, set_joints
          (step_heap (joints w) e j pp (sibs_of kids pc) d tx ty) w).
Proof.
  intros Ht Hj Hnd Hh Hpar.
  inversion Ht as [? ? ? j' Hj' Hp Hc Hk]; subst. simplify_eq.
  simpl in Hnd. apply NoDup_cons in Hnd as [Hne Hnd].
  unfold step_heap.
  set (new := move_within_dist (position j) d tx ty).
  rewrite (align_children_spec fuel e kids (parent j) pp pc _ j
             (set_position new j)); [done|..].
  - apply lookup_insert_eq.
  - done.
  - done.
  - rewrite joints_set_joints. eapply Forall_impl; [exact Hk|]. intros t.
    apply is_tree_same_links. by eapply same_links_insert.
  - done.
  - done.
  - rewrite joints_set_joints. destruct (parent j) as [pa|]; [|done].
    destruct Hpar as (Hpa & pj & Hpj & ->). exists pj.
    by rewrite lookup_insert_ne.
Qed.

Lemma step_heap_same_links h e j pp sibs d tx ty :
  h !! e = Some j -> same_links h (step_heap h e j pp sibs d tx ty).
Proof.
  intros Hj. unfold step_heap. eapply same_links_trans;
    [|apply same_links_map_pos]. by apply (same_links_insert _ _ j).
Qed.

Lemma step_heap_other h e j pp sibs d tx ty a :
  a <> e -> a ∉ ids_list sibs ->
  step_heap h e j pp sibs d tx ty !! a = h !! a.
Proof.
  intros Ha Hs. unfold step_heap.
  rewrite map_pos_lookup_notin by done. by rewrite lookup_insert_ne.
Qed.

Lemma step_heap_node_rel h0 h e j pp sibs d tx ty :
  h !! e = Some j ->
  e ∉ ids_list sibs -> NoDup (ids_list sibs) ->
  agree_on (e :: ids_list sibs) h0 h ->
  node_rel h0 (step_heap h e j pp sibs d tx ty) pp e sibs d tx ty.
Proof.
  intros Hj Hne Hnd Hag.
  assert (He : step_heap h e j pp sibs d tx ty !! e
               = Some (set_position (move_within_dist (position j) d tx ty) j)).
  { unfold step_heap. rewrite map_pos_lookup_notin by done.
    apply lookup_insert_eq. }
  assert (H0e : h0 !! e = Some j).
  { rewrite <- Hj. symmetry. apply Hag. left. }
  split.
  - by rewrite He, H0e.
  - intros q Hq. unfold step_heap.
    rewrite map_pos_lookup_in by done.
    rewrite lookup_insert_ne by (by intros ->).
    rewrite (Hag q) by (by right).
    unfold pos. fold (step_heap h e j pp sibs d tx ty). by rewrite He, H0e.
Qed.

Lemma bind_top {A} (m : pointer -> M W A) (w : W) :
  (pc <- ik_stack_top ;; m pc) w = m (default NULL (head (ik_stack w))) w.
Proof. unfold bind, ik_stack_top. by destruct (ik_stack w). Qed.

Lemma bind_pop_cons {A} (m : pointer -> M W A) (w : W) p s :
  ik_stack w = p :: s ->
  (pc <- ik_stack_pop ;; m pc) w
  = m p (World (joints w) s (pushes w) (S (pops w))).
Proof. intros Hs. unfold bind, ik_stack_pop. by rewrite Hs. Qed.

Lemma bind_pop_nil {A} (m : pointer -> M W A) (w : W) :
  ik_stack w = [] -> (pc <- ik_stack_pop ;; m pc) w = m NULL w.
Proof. intros Hs. unfold bind, ik_stack_pop. by rewrite Hs. Qed.

End Step.

(** ** Paths: a tree seen from one of its joints *)

(** A joint on the path from the root, without the child the path goes
    through: its address, and the trees in the slots left and right of that
    child. *)
Record frame : Type := Frame {
  f_addr : addr;
  f_left : list shape;
  f_right : list shape
}.

Definition f_sibs (f : frame) : list shape := f_left f ++ f_right f.

(** The number of child slots of the joint of a frame. *)
Definition f_width (f : frame) : nat := S (List.length (f_sibs f)).

Definition fill (f : frame) (t : shape) : shape :=
  Sh (f_addr f) (f_left f ++ t :: f_right f).

(** The tree around [t], the frames from the root down. *)
Fixpoint plug (fs : list frame) (t : shape) : shape :=
  match fs with
  | [] => t
  | f :: fs' => fill f (plug fs' t)
  end.

Definition frame_ids (f : frame) : list addr :=
  f_addr f :: ids_list (f_sibs f).

Definition frames_ids (fs : list frame) : list addr :=
  concat (List.map frame_ids fs).

(** The path stack after [ik_reach_back] went up through [fs] from the root
    of [t]: the path child of every joint with more than one child, the one
    of the root on top. *)
Fixpoint path_stack (fs : list frame) (t : shape) : list pointer :=
  match fs with
  | [] => []
  | f :: fs' =>
      (if bool_decide (1 < f_width f)%nat
       then [Some (root_addr (plug fs' t))] else [])
      ++ path_stack fs' t
  end.

(** The parent of the tree plugged into [fs], under a root with parent [par]. *)
Definition plug_par (par : pointer) (fs : list frame) : pointer :=
  match last fs with
  | Some f => Some (f_addr f)
  | None => par
  end.

Lemma plug_app fs gs t : plug (fs ++ gs) t = plug fs (plug gs t).
Proof. induction fs as [|f fs IH]; simpl; [done|]. by rewrite IH. Qed.

Lemma path_stack_app fs gs t :
  path_stack (fs ++ gs) t = path_stack fs (plug gs t) ++ path_stack gs t.
Proof.
  induction fs as [|f fs IH]; simpl; [done|].
  by rewrite IH, plug_app, (assoc_L (++)).
Qed.

Lemma path_stack_length fs t : (List.length (path_stack fs t) <= List.length fs)%nat.
Proof.
  induction fs as [|f fs IH]; simpl; [done|].
  rewrite length_app. case_bool_decide; simpl; lia.
Qed.

Lemma fill_width f t : List.length (f_left f ++ t :: f_right f) = f_width f.
Proof. unfold f_width, f_sibs. rewrite !length_app. simpl. lia. Qed.

Lemma root_addr_plug_cons f fs t : root_addr (plug (f :: fs) t) = f_addr f.
Proof. done. Qed.

Lemma ids_fill_perm f t : ids (fill f t) ≡ₚ frame_ids f ++ ids t.
Proof.
  unfold fill, frame_ids, f_sibs. simpl.
  change (concat (List.map ids (f_left f ++ t :: f_right f)))
    with (ids_list (f_left f ++ t :: f_right f)).
  rewrite !ids_list_app, ids_list_cons. constructor.
  rewrite <- (assoc_L (++)). apply Permutation_app_head, Permutation_app_comm.
Qed.

Lemma ids_plug_perm fs t : ids (plug fs t) ≡ₚ frames_ids fs ++ ids t.
Proof.
  induction fs as [|f fs IH]; [done|].
  simpl plug. rewrite ids_fill_perm, IH. unfold frames_ids. simpl.
  by rewrite <- (assoc_L (++)).
Qed.

Lemma frames_ids_cons f fs : frames_ids (f :: fs) = frame_ids f ++ frames_ids fs.
Proof. done. Qed.

Lemma frames_ids_app fs gs : frames_ids (fs ++ gs) = frames_ids fs ++ frames_ids gs.
Proof. unfold frames_ids. by rewrite List.map_app, concat_app. Qed.

Lemma NoDup_plug fs t :
  NoDup (ids (plug fs t)) ->
  NoDup (frames_ids fs) /\ NoDup (ids t) /\
  (forall a, a ∈ frames_ids fs -> a ∉ ids t).
Proof.
  rewrite ids_plug_perm. intros Hnd. apply NoDup_app in Hnd. tauto.
Qed.

Lemma sibs_of_all kids pc :
  Forall (fun k => Some (root_addr k) <> pc) kids -> sibs_of kids pc = kids.
Proof.
  induction 1 as [|k kids Hk _ IH]; [done|].
  unfold sibs_of. rewrite filter_cons_True by done. fold (sibs_of kids pc).
  by rewrite IH.
Qed.

Lemma sibs_of_fill f t :
  NoDup (ids (fill f t)) ->
  sibs_of (f_left f ++ t :: f_right f) (Some (root_addr t)) = f_sibs f.
Proof.
  intros Hnd. rewrite ids_fill_perm in Hnd.
  apply NoDup_app in Hnd as (Hf & Hdis & Ht).
  unfold sibs_of. rewrite filter_app, filter_cons_False
    by (intros Hn; by apply Hn).
  fold (sibs_of (f_left f) (Some (root_addr t))).
  fold (sibs_of (f_right f) (Some (root_addr t))).
  assert (Hall : Forall (fun k => Some (root_addr k) <> Some (root_addr t))
                   (f_sibs f)).
  { apply Forall_forall. intros k Hk Heq. simplify_eq.
    apply (Hdis (root_addr t)); [|apply root_in_ids].
    unfold frame_ids. right. apply elem_of_ids_list. exists k.
    split; [done|]. rewrite <- Heq. apply root_in_ids. }
  unfold f_sibs in *. apply Forall_app in Hall as [Hl Hr].
  by rewrite !sibs_of_all.
Qed.

Lemma esibs_fill f t pc :
  NoDup (ids (fill f t)) ->
  ((1 < f_width f)%nat -> pc = Some (root_addr t)) ->
  esibs (f_left f ++ t :: f_right f) pc = f_sibs f.
Proof.
  intros Hnd Hpc. unfold esibs. rewrite fill_width. case_bool_decide as Hw.
  - rewrite Hpc by done. by apply sibs_of_fill.
  - unfold f_width in Hw. destruct (f_sibs f); [done|]. simpl in Hw. lia.
Qed.

Lemma plug_par_cons par f fs : plug_par par (f :: fs) = plug_par (Some (f_addr f)) fs.
Proof. unfold plug_par. rewrite last_cons. by destruct (last fs). Qed.

Lemma plug_par_snoc par fs f : plug_par par (fs ++ [f]) = Some (f_addr f).
Proof. unfold plug_par. by rewrite last_snoc. Qed.

Lemma esibs_sublist kids pc :
  ids_list (esibs kids pc) `sublist_of` ids_list kids.
Proof.
  unfold esibs. case_bool_decide.
  - apply ids_list_filter_sublist.
  - apply sublist_nil_l.
Qed.

Lemma esibs_elem a kids pc :
  a ∈ ids_list (esibs kids pc) -> a ∈ ids_list kids.
Proof. intros Ha. eapply elem_of_sublist; [exact Ha|apply esibs_sublist]. Qed.

Lemma esibs_NoDup kids pc :
  NoDup (ids_list kids) -> NoDup (ids_list (esibs kids pc)).
Proof. intros Hnd. eapply sublist_NoDup; [done|apply esibs_sublist]. Qed.

Lemma kids_ids_in t a : a ∈ ids_list (kids_of t) -> a ∈ ids t.
Proof. destruct t as [e kids]. simpl. by right. Qed.

(** ** The two passes *)

Section Passes.
Context {F : Type} {num : Num F}.
Local Open Scope num_scope.

Local Abbreviation vec2 := (ik_vec2 F).
Local Abbreviation joint := (ik_joint F).
Local Abbreviation heap := (gmap addr (ik_joint F)).
Local Abbreviation W := (world F).

Definition top (w : W) : pointer := default NULL (head (ik_stack w)).

Lemma is_tree_fill_inv (h : heap) par f t :
  is_tree h par (fill f t) ->
  exists jf, h !! f_addr f = Some jf /\ parent jf = par /\
    children jf = slots_of (f_left f ++ t :: f_right f) /\
    is_tree h (Some (f_addr f)) t /\
    Forall (is_tree h (Some (f_addr f))) (f_sibs f).
Proof.
  intros Ht. inversion Ht as [? ? ? j Hj Hp Hc Hk]; subst.
  exists j. repeat split; [done..| |].
  - rewrite Forall_forall in Hk. apply Hk, elem_of_app. right. left.
  - apply Forall_app in Hk as [Hl Hr]. apply Forall_cons in Hr as [_ Hr].
    unfold f_sibs. by apply Forall_app.
Qed.

Lemma is_tree_plug (h : heap) par fs t :
  is_tree h par (plug fs t) -> is_tree h (plug_par par fs) t.
Proof.
  revert par. induction fs as [|f fs IH]; intros par Ht; [done|].
  rewrite plug_par_cons. apply IH. simpl in Ht.
  by destruct (is_tree_fill_inv _ _ _ _ Ht) as (? & _ & _ & _ & ? & _).
Qed.

Lemma is_tree_root_lookup (h : heap) par t :
  is_tree h par t ->
  exists j, h !! root_addr t = Some j /\ parent j = par /\
    children j = slots_of (kids_of t).
Proof. intros Ht. inversion Ht; subst. eauto. Qed.

(** What [ik_reach_back] writes, started at the root of [t] under [fs]. *)
Definition back_touched (fs : list frame) (t : shape) (pc : pointer)
    : list addr :=
  frames_ids fs ++ root_addr t :: ids_list (esibs (kids_of t) pc).

(** The steps of [ik_reach_back] between the stores [h] and [h']: one at the
    root of [t], towards the target, and one at each frame, towards the new
    position of its path child. *)
Fixpoint back_rel (h h' : heap) (par : pointer) (fs : list frame) (t : shape)
    (pc : pointer) (d tx ty : F) : Prop :=
  match fs with
  | [] =>
      node_rel h h' (pos h <$> par) (root_addr t) (esibs (kids_of t) pc)
        d tx ty
  | f :: fs' =>
      let c := root_addr (plug fs' t) in
      node_rel h h' (pos h <$> par) (f_addr f) (f_sibs f)
        (len h c) (x (pos h' c)) (y (pos h' c)) /\
      back_rel h h' (Some (f_addr f)) fs' t pc d tx ty
  end.

Lemma back_rel_snoc h h' par fs f t pc pc' d tx ty :
  esibs (kids_of (fill f t)) pc' = f_sibs f ->
  back_rel h h' par fs (fill f t) pc'
    (len h (root_addr t)) (x (pos h' (root_addr t))) (y (pos h' (root_addr t))) ->
  node_rel h h' (Some (pos h (f_addr f))) (root_addr t)
    (esibs (kids_of t) pc) d tx ty ->
  back_rel h h' par (fs ++ [f]) t pc d tx ty.
Proof.
  intros Hs. revert par. induction fs as [|g fs IH]; intros par Hb Hn; simpl in *.
  - rewrite Hs in Hb. done.
  - destruct Hb as [Hg Hb]. rewrite plug_app. split; [done|]. by apply IH.
Qed.

Lemma node_rel_post_ext (h h1 h2 : heap) pp e sibs d tx ty :
  (forall a, a ∈ e :: ids_list sibs -> h2 !! a = h1 !! a) ->
  node_rel h h1 pp e sibs d tx ty -> node_rel h h2 pp e sibs d tx ty.
Proof.
  intros Heq [He Hq]. assert (Hp : pos h2 e = pos h1 e).
  { unfold pos. rewrite Heq; [done|left]. }
  split.
  - rewrite Heq; [done|left].
  - intros q Hin. rewrite Hp, Heq; [by apply Hq|by right].
Qed.

Lemma bind_when {A} (b : bool) (m : M W unit) (k : M W A) (w : W) :
  (when b m ;; k) w = if b then (m ;; k) w else k w.
Proof. by destruct b. Qed.

(** The first part of the body of [ik_reach_back], at the root [e] of a tree:
    the joint moves and the branches off the path are aligned. *)
Lemma back_block {A} fuel e kids pp (w : W) j d tx ty (k : M W A) :
  is_tree (joints w) (parent j) (Sh e kids) ->
  joints w !! e = Some j ->
  NoDup (ids (Sh e kids)) ->
  Forall (fun k => height k <= fuel) (esibs kids (top w)) ->
  match parent j with
  | Some pa =>
      pa <> e /\ exists pj, joints w !! pa = Some pj /\ pp = Some (position pj)
  | None => pp = None
  end ->
  (ik_move_within_dist (Some e) d tx ty ;;
   when (bool_decide (1 < n_children j)%nat) (
     path_child <- ik_stack_top ;;
     align_children fuel (Some e) j (x (position j)) (y (position j))
       path_child) ;;
   k) w
  = k (set_joints
         (step_heap (joints w) e j pp (esibs kids (top w)) d tx ty) w).
Proof.
  intros Ht Hj Hnd Hh Hpar.
  erewrite bind_Ok by (by apply ik_move_within_dist_Some).
  rewrite bind_when. unfold esibs in *.
  assert (Hn : n_children j = List.length kids).
  { inversion Ht as [? ? ? j' Hj' Hp Hc Hk]; subst. simplify_eq.
    unfold n_children. rewrite Hc. unfold slots_of. apply length_map. }
  rewrite Hn. case_bool_decide; [|done].
  unfold bind at 1. rewrite bind_top.
  change (top ?w) with (default NULL (head (ik_stack w))) in *.
  by erewrite align_children_step.
Qed.

Lemma step_heap_lookup_self (h : heap) e j pp sibs d tx ty :
  e ∉ ids_list sibs ->
  step_heap h e j pp sibs d tx ty !! e
  = Some (set_position (move_within_dist (position j) d tx ty) j).
Proof.
  intros Hne. unfold step_heap. rewrite map_pos_lookup_notin by done.
  apply lookup_insert_eq.
Qed.

(** [ik_reach_back] on a tree: from the root of [t], up through the frames
    [fs] to the root of the whole tree.  [h0] is the store the pass started
    from, as far as the pass has not written it yet. *)
Lemma ik_reach_back_spec H fs : forall t (h0 : heap) (w : W) fuel d tx ty,
  is_tree (joints w) None (plug fs t) ->
  NoDup (ids (plug fs t)) ->
  Forall (fun f => Forall (fun s => height s <= H) (f_sibs f)) fs ->
  Forall (fun s => height s <= H) (esibs (kids_of t) (top w)) ->
  (List.length fs + H < fuel)%nat ->
  (List.length (path_stack fs t) + List.length (ik_stack w) <= IK_STACK_SIZE)%nat ->
  agree_on (back_touched fs t (top w)) h0 (joints w) ->
  exists w',
    ik_reach_back fuel (Some (root_addr t)) tx ty d w
    = Ok ((Some (root_addr (plug fs t)),
           x (pos h0 (root_addr (plug fs t))),
           y (pos h0 (root_addr (plug fs t)))), w') /\
    same_links (joints w) (joints w') /\
    ik_stack w' = path_stack fs t ++ ik_stack w /\
    pushes w' = (pushes w + List.length (path_stack fs t))%nat /\
    pops w' = pops w /\
    back_rel h0 (joints w') None fs t (top w) d tx ty /\
    (forall a, a ∉ back_touched fs t (top w) -> joints w' !! a = joints w !! a).
Proof.
  induction fs as [|f fs IH] using rev_ind;
    intros t h0 w fuel d tx ty Ht Hnd Hfs Hkids Hfuel Hcap Hag.
  - (* the root of the whole tree *)
    destruct fuel as [|fuel]; [simpl in Hfuel; lia|].
    destruct t as [e kids].
    simpl plug in *. simpl root_addr in *. simpl kids_of in *.
    destruct (is_tree_root_lookup _ _ _ Ht) as (j & Hj & Hp & Hc).
    simpl in Hj, Hc, Hnd.
    assert (Hne : e ∉ ids_list (esibs kids (top w))).
    { apply NoDup_cons in Hnd as [Hne _]. intros Hin. apply Hne.
      by eapply esibs_elem. }
    assert (H0 : h0 !! e = Some j).
    { rewrite <- Hj. symmetry. apply Hag. left. }
    rewrite ik_reach_back_unfold.
    erewrite bind_Ok by (by apply load_Some).
    erewrite (back_block fuel e kids None);
      [|by rewrite Hp|done|done| |by rewrite Hp].
    2:{ eapply Forall_impl; [exact Hkids|]. simpl. intros; lia. }
    rewrite Hp. eexists. split.
    { unfold ret. unfold pos. rewrite H0. simpl. reflexivity. }
    simpl. split; [by apply step_heap_same_links|].
    split; [done|]. split; [lia|]. split; [done|]. split.
    + apply step_heap_node_rel; [done|done| |done].
      apply esibs_NoDup.
      by apply NoDup_cons in Hnd as [_ ?].
    + intros a Ha. unfold back_touched in Ha. simpl in Ha.
      apply not_elem_of_cons in Ha as [? ?]. by apply step_heap_other.
  - (* a joint with a parent *)
    destruct fuel as [|fuel]; [lia|].
    rewrite plug_app in Ht, Hnd |- *. simpl plug in Ht, Hnd |- *.
    destruct (NoDup_plug _ _ Hnd) as (Hnd_fs & Hnd_ft & Hdis_fs).
    pose proof Hnd_ft as Hnd_ft'. rewrite ids_fill_perm in Hnd_ft'.
    apply NoDup_app in Hnd_ft' as (Hnd_f & Hdis_f & Hnd_t).
    destruct (is_tree_fill_inv _ _ _ _ (is_tree_plug _ _ _ _ Ht))
      as (jf & Hjf & Hpf & Hcf & Htt & Hsibs).
    destruct t as [e kids].
    destruct (is_tree_root_lookup _ _ _ Htt) as (j & Hj & Hp & Hc).
    simpl in Hj, Hc. simpl root_addr in *. simpl kids_of in *.
    set (sibs := esibs kids (top w)) in *.
    assert (Hsub : forall a, a ∈ e :: ids_list sibs -> a ∈ ids (Sh e kids)).
    { intros a Ha. apply elem_of_cons in Ha as [->|Ha]; [left|].
      right. by eapply esibs_elem. }
    assert (Hne : e ∉ ids_list sibs).
    { simpl in Hnd_t. apply NoDup_cons in Hnd_t as [Hne _]. intros Hin.
      apply Hne. by eapply esibs_elem. }
    assert (Hfe : f_addr f <> e).
    { intros Heq. apply (Hdis_f (f_addr f)); [left|]. rewrite Heq. left. }
    assert (Hfs' : f_addr f ∉ ids_list sibs).
    { intros Hin. apply (Hdis_f (f_addr f)); [left|]. apply Hsub. by right. }
    assert (H0e : h0 !! e = Some j).
    { rewrite <- Hj. symmetry. apply Hag. unfold back_touched.
      apply elem_of_app. right. left. }
    assert (H0f : h0 !! f_addr f = Some jf).
    { rewrite <- Hjf. symmetry. apply Hag. unfold back_touched.
      apply elem_of_app. left. rewrite frames_ids_app. apply elem_of_app.
      right. unfold frames_ids. simpl. rewrite app_nil_r. left. }
    apply Forall_app in Hfs as [Hfs Hf]. apply Forall_cons in Hf as [Hf _].
    rewrite length_app in Hfuel. simpl in Hfuel.
    rewrite path_stack_app in Hcap |- *. simpl plug in *.
    simpl path_stack in *. rewrite app_nil_r in *.
    rewrite length_app in Hcap |- *.
    rewrite ik_reach_back_unfold.
    erewrite bind_Ok by (by apply load_Some).
    erewrite (back_block fuel e kids (Some (position jf)));
      [|by rewrite Hp|done|done| |].
    2:{ eapply Forall_impl; [exact Hkids|]. simpl. intros; lia. }
    2:{ rewrite Hp. split; [done|]. eauto. }
    set (new := move_within_dist (position j) d tx ty).
    set (h1 := step_heap (joints w) e j (Some (position jf)) sibs d tx ty).
    assert (Hl1 : same_links (joints w) h1) by (by apply step_heap_same_links).
    assert (H1f : h1 !! f_addr f = Some jf).
    { unfold h1. by rewrite step_heap_other. }
    assert (H1e : h1 !! e = Some (set_position new j)).
    { unfold h1. by rewrite step_heap_lookup_self. }
    rewrite Hp.
    erewrite bind_Ok by (apply load_Some; rewrite joints_set_joints; exact H1f).
    assert (Hn : n_children jf = f_width f).
    { unfold n_children. rewrite Hcf. unfold slots_of.
      rewrite length_map. apply fill_width. }
    rewrite Hn.
    (* the world at the recursive call *)
    set (w2 := if bool_decide (1 < f_width f)%nat
               then World h1 (Some e :: ik_stack w) (S (pushes w)) (pops w)
               else set_joints h1 w).
    assert (Hj2 : joints w2 = h1).
    { unfold w2. by case_bool_decide. }
    assert (Hs2 : ik_stack w2 = (if bool_decide (1 < f_width f)%nat
                                 then [Some e] else []) ++ ik_stack w).
    { unfold w2. by case_bool_decide. }
    assert (Htop2 : (1 < f_width f)%nat -> top w2 = Some e).
    { intros Hw. unfold top. rewrite Hs2. by rewrite bool_decide_true. }
    assert (Hes : esibs (f_left f ++ Sh e kids :: f_right f) (top w2)
                  = f_sibs f).
    { apply esibs_fill; [done|]. intros Hw. rewrite Htop2; done. }
    destruct (IH (fill f (Sh e kids)) h0 w2 fuel (seg_length j) (x new) (y new))
      as (w' & Hrun & Hl' & Hst' & Hpu' & Hpo' & Hrel' & Hun').
    { rewrite Hj2. by eapply is_tree_same_links. }
    { done. }
    { done. }
    { simpl. rewrite Hes. eapply Forall_impl; [exact Hf|]. simpl. intros; lia. }
    { lia. }
    { rewrite Hs2, length_app. revert Hcap. case_bool_decide; simpl; lia. }
    { intros a Ha. rewrite Hj2. unfold back_touched in Ha. simpl in Ha.
      rewrite Hes in Ha.
      assert (Ha' : a ∈ frames_ids (fs ++ [f])).
      { rewrite frames_ids_app. unfold frames_ids at 2. simpl.
        by rewrite app_nil_r. }
      assert (Hat : a ∉ ids (Sh e kids)).
      { rewrite frames_ids_app in Ha'. apply elem_of_app in Ha' as [Ha'|Ha'].
        - intros Hin. apply (Hdis_fs a Ha'). rewrite ids_fill_perm.
          apply elem_of_app. by right.
        - unfold frames_ids in Ha'. simpl in Ha'. rewrite app_nil_r in Ha'.
          by apply Hdis_f. }
      unfold h1. rewrite step_heap_other.
      - apply Hag. unfold back_touched. apply elem_of_app. by left.
      - intros ->. apply Hat. left.
      - intros Hin. apply Hat, Hsub. by right. }
    assert (Hkeep : forall a, a ∈ e :: ids_list sibs -> joints w' !! a = h1 !! a).
    { intros a Ha. rewrite Hun', Hj2; [done|].
      unfold back_touched. simpl. rewrite Hes. intros Hin.
      apply Hsub in Ha.
      apply elem_of_app in Hin as [Hin|Hin].
      - apply (Hdis_fs a Hin). rewrite ids_fill_perm.
        apply elem_of_app. by right.
      - by apply (Hdis_f a). }
    exists w'. split.
    { assert (Hgo : (when (bool_decide (1 < f_width f)%nat)
                       (ik_stack_push (Some e))) (set_joints h1 w)
                    = Ok (tt, w2)).
      { unfold w2, when. case_bool_decide as Hw; [|done].
        unfold ik_stack_push. simpl. rewrite decide_True; [done|].
        revert Hcap. try rewrite bool_decide_true by done. simpl. lia. }
      erewrite bind_Ok by exact Hgo.
      erewrite bind_Ok by (apply load_Some; rewrite Hj2; exact H1e).
      simpl seg_length. simpl position. exact Hrun. }
    split; [eapply same_links_trans; [exact Hl1|by rewrite <- Hj2]|].
    split.
    { rewrite Hst', Hs2. by rewrite (assoc_L (++)). }
    split.
    { rewrite Hpu'. unfold w2. case_bool_decide; simpl; lia. }
    split.
    { rewrite Hpo'. unfold w2. by case_bool_decide. }
    split.
    + eapply back_rel_snoc; [exact Hes| |].
      * assert (Hle : len h0 e = seg_length j) by (unfold len; by rewrite H0e).
        assert (Hpe : pos (joints w') e = new).
        { unfold pos. rewrite Hkeep by left. by rewrite H1e. }
        simpl root_addr. by rewrite Hle, Hpe.
      * eapply node_rel_post_ext; [exact Hkeep|].
        assert (Hpf' : pos h0 (f_addr f) = position jf)
          by (unfold pos; by rewrite H0f).
        rewrite Hpf'. apply step_heap_node_rel; [done|done| |].
        -- apply esibs_NoDup.
           simpl in Hnd_t. by apply NoDup_cons in Hnd_t as [_ ?].
        -- intros a Ha. apply Hag. unfold back_touched.
           apply elem_of_app. by right.
    + intros a Ha. unfold back_touched in Ha.
      rewrite frames_ids_app in Ha. unfold frames_ids at 2 in Ha.
      simpl in Ha. rewrite app_nil_r in Ha.
      apply not_elem_of_app in Ha as [Ha Hae].
      apply not_elem_of_app in Ha as [Hafs Haf].
      apply not_elem_of_cons in Hae as [Hae Has].
      rewrite Hun', Hj2.
      * by apply step_heap_other.
      * unfold back_touched. simpl. rewrite Hes.
        by apply not_elem_of_app.
Qed.

(** The steps of [ik_reach_forward] down the frames [fs], between the stores
    [h] and [h']: each joint moves towards the new position of its parent,
    within its own segment length. *)
Fixpoint fwd_rel (h h' : heap) (pp : option vec2) (fs : list frame) (t : shape)
    (d tx ty : F) : Prop :=
  match fs with
  | [] => True
  | f :: fs' =>
      node_rel h h' pp (f_addr f) (f_sibs f) d tx ty /\
      fwd_rel h h' (Some (pos h' (f_addr f))) fs' t
        (len h (root_addr (plug fs' t)))
        (x (pos h' (f_addr f))) (y (pos h' (f_addr f)))
  end.

(** The distance and target [ik_reach_forward] is called with at the root of
    [t], below the frames [fs]. *)
Fixpoint fwd_args (h h' : heap) (fs : list frame) (t : shape) (d tx ty : F)
    : F * F * F :=
  match fs with
  | [] => (d, tx, ty)
  | f :: fs' =>
      fwd_args h h' fs' t (len h (root_addr (plug fs' t)))
        (x (pos h' (f_addr f))) (y (pos h' (f_addr f)))
  end.

(** The position of the parent of the root of [t], below the frames [fs]. *)
Definition fwd_pp (h' : heap) (pp : option vec2) (fs : list frame)
    : option vec2 :=
  match last fs with
  | Some f => Some (pos h' (f_addr f))
  | None => pp
  end.

(** The first part of the body of [ik_reach_forward], at a joint that has
    the path child [t]: the path child comes off the stack, or is the only
    child. *)
Lemma fwd_block fuel f t pp (w : W) j d tx ty s (k : pointer -> M W unit) :
  is_tree (joints w) (parent j) (fill f t) ->
  joints w !! f_addr f = Some j ->
  NoDup (ids (fill f t)) ->
  Forall (fun k => height k <= fuel) (f_sibs f) ->
  match parent j with
  | Some pa =>
      pa <> f_addr f /\
      exists pj, joints w !! pa = Some pj /\ pp = Some (position pj)
  | None => pp = None
  end ->
  ik_stack w = (if bool_decide (1 < f_width f)%nat
                then [Some (root_addr t)] else []) ++ s ->
  (ik_move_within_dist (Some (f_addr f)) d tx ty ;;
   if bool_decide (n_children j = 0)%nat
   then ret tt
   else
     path_child <-
       (if bool_decide (1 < n_children j)%nat
        then
          path_child <- ik_stack_pop ;;
          align_children fuel (Some (f_addr f)) j
            (x (position j)) (y (position j)) path_child ;;
          ret path_child
        else ret (default NULL (head (children j)))) ;;
     k path_child) w
  = k (Some (root_addr t))
      (World (step_heap (joints w) (f_addr f) j pp (f_sibs f) d tx ty) s
         (pushes w)
         (if bool_decide (1 < f_width f)%nat then S (pops w) else pops w)).
Proof.
  intros Ht Hj Hnd Hh Hpar Hs.
  erewrite bind_Ok by (by apply ik_move_within_dist_Some).
  destruct (is_tree_fill_inv _ _ _ _ Ht) as (j' & Hj' & _ & Hc & _ & _).
  simplify_eq.
  assert (Hn : n_children j = f_width f).
  { unfold n_children. rewrite Hc. unfold slots_of. rewrite length_map.
    apply fill_width. }
  rewrite Hn. rewrite bool_decide_false by (unfold f_width; lia).
  case_bool_decide as Hw.
  - simpl in Hs. unfold bind at 1.
    erewrite bind_pop_cons by (simpl; exact Hs).
    simpl joints. simpl pushes. simpl pops.
    pose proof (align_children_step fuel (f_addr f)
      (f_left f ++ t :: f_right f) pp (Some (root_addr t))
      (World (joints w) s (pushes w) (S (pops w))) j d tx ty) as Hal.
    simpl joints in Hal. unfold set_joints in Hal. simpl in Hal.
    unfold bind at 1. rewrite Hal; [|done|done|done| |done].
    + by rewrite sibs_of_fill.
    + by rewrite sibs_of_fill.
  - assert (Hnil : f_sibs f = []).
    { unfold f_width in Hw. destruct (f_sibs f); [done|simpl in Hw; lia]. }
    unfold f_sibs in Hnil. apply app_eq_nil in Hnil as [Hl Hr].
    unfold bind at 1. unfold ret at 1. rewrite Hc, Hl, Hr. simpl.
    unfold f_sibs. rewrite Hl, Hr. simpl in Hs. rewrite <- Hs.
    unfold step_heap. simpl. by destruct w.
Qed.

Lemma fwd_pp_cons h' pp f fs :
  fwd_pp h' pp (f :: fs) = fwd_pp h' (Some (pos h' (f_addr f))) fs.
Proof. unfold fwd_pp. rewrite last_cons. by destruct (last fs). Qed.

(** [ik_reach_forward] from the root of a tree down the frames [fs]: it
    arrives at the root of [t] with the path stack taken off again. *)
Lemma ik_reach_forward_prefix H fs :
  forall t par pp (h0 : heap) (w : W) fuel d tx ty s,
  is_tree (joints w) par (plug fs t) ->
  NoDup (ids (plug fs t)) ->
  match par with
  | Some pa =>
      (pa ∉ ids (plug fs t)) /\
      exists pj, joints w !! pa = Some pj /\ pp = Some (position pj)
  | None => pp = None
  end ->
  Forall (fun f => Forall (fun s => height s <= H) (f_sibs f)) fs ->
  (List.length fs + H < fuel)%nat ->
  ik_stack w = path_stack fs t ++ s ->
  same_links h0 (joints w) ->
  agree_on (frames_ids fs) h0 (joints w) ->
  exists w',
    ik_reach_forward fuel (Some (root_addr (plug fs t))) d tx ty w
    = ik_reach_forward (fuel - List.length fs) (Some (root_addr t))
        (fwd_args h0 (joints w') fs t d tx ty).1.1
        (fwd_args h0 (joints w') fs t d tx ty).1.2
        (fwd_args h0 (joints w') fs t d tx ty).2 w' /\
    same_links (joints w) (joints w') /\
    ik_stack w' = s /\
    pushes w' = pushes w /\
    pops w' = (pops w + List.length (path_stack fs t))%nat /\
    fwd_rel h0 (joints w') pp fs t d tx ty /\
    (forall a, a ∉ frames_ids fs -> joints w' !! a = joints w !! a).
Proof.
  induction fs as [|f fs IH];
    intros t par pp h0 w fuel d tx ty s Ht Hnd Hpar Hfs Hfuel Hst Hl0 Hag.
  - exists w. simpl. rewrite Nat.sub_0_r, Nat.add_0_r. done.
  - destruct fuel as [|fuel]; [simpl in Hfuel; lia|].
    simpl plug in *. set (t' := plug fs t) in *.
    pose proof Hnd as Hnd'. rewrite ids_fill_perm in Hnd'.
    apply NoDup_app in Hnd' as (Hnd_f & Hdis_f & Hnd_t).
    destruct (is_tree_fill_inv _ _ _ _ Ht)
      as (jf & Hjf & Hpf & Hcf & Htt & Hsibs).
    destruct (is_tree_root_lookup _ _ _ Htt) as (jc & Hjc & Hpc & Hcc).
    apply Forall_cons in Hfs as [Hf Hfs]. simpl in Hfuel.
    assert (Hfa : f_addr f ∉ ids_list (f_sibs f)).
    { unfold frame_ids in Hnd_f. by apply NoDup_cons in Hnd_f as [? _]. }
    assert (Hct : root_addr t' ∈ ids t') by apply root_in_ids.
    assert (Hcf' : root_addr t' <> f_addr f).
    { intros Heq. apply (Hdis_f (f_addr f)); [left|]. by rewrite <- Heq. }
    assert (Hcs : root_addr t' ∉ ids_list (f_sibs f)).
    { intros Hin. apply (Hdis_f (root_addr t')); [by right|done]. }
    assert (H0f : h0 !! f_addr f = Some jf).
    { rewrite <- Hjf. symmetry. apply Hag. rewrite frames_ids_cons.
      apply elem_of_app. left. left. }
    rewrite ik_reach_forward_unfold.
    erewrite bind_Ok by (by apply load_Some).
    simpl path_stack in Hst. rewrite <- (assoc_L (++)) in Hst.
    erewrite (fwd_block fuel f t' pp);
      [|by rewrite Hpf|done|done| | |exact Hst].
    2:{ eapply Forall_impl; [exact Hf|]. simpl. intros; lia. }
    2:{ rewrite Hpf. destruct par as [pa|]; [|done].
        destruct Hpar as (Hpa & pj & Hpj & ->). split; [|eauto].
        intros ->. apply Hpa. simpl. left. }
    set (new := move_within_dist (position jf) d tx ty).
    set (h1 := step_heap (joints w) (f_addr f) jf pp (f_sibs f) d tx ty).
    set (w1 := World h1 (path_stack fs t ++ s) (pushes w) _).
    assert (Hl1 : same_links (joints w) h1) by (by apply step_heap_same_links).
    assert (H1f : h1 !! f_addr f = Some (set_position new jf)).
    { unfold h1. by rewrite step_heap_lookup_self. }
    assert (H1c : h1 !! root_addr t' = Some jc).
    { unfold h1. by rewrite step_heap_other. }
    erewrite bind_Ok by (by apply load_Some).
    erewrite bind_Ok by (by apply load_Some).
    simpl position.
    destruct (IH t (Some (f_addr f)) (Some new) h0 w1 fuel
                (seg_length jc) (x new) (y new) s)
      as (w' & Hrun & Hl' & Hst' & Hpu' & Hpo' & Hrel' & Hun').
    { simpl. by eapply is_tree_same_links. }
    { done. }
    { split; [by apply Hdis_f; left|]. simpl. eauto. }
    { done. }
    { lia. }
    { done. }
    { simpl. by eapply same_links_trans. }
    { intros a Ha. simpl.
      assert (Hat : a ∈ ids t').
      { unfold t'. rewrite ids_plug_perm. apply elem_of_app. by left. }
      unfold h1. rewrite step_heap_other.
      - apply Hag. rewrite frames_ids_cons. apply elem_of_app. by right.
      - intros ->. by apply (Hdis_f (f_addr f)); [left|].
      - intros Hin. by apply (Hdis_f a); [right|]. }
    assert (Hkeep : forall a, a ∈ frame_ids f -> joints w' !! a = h1 !! a).
    { intros a Ha. rewrite Hun'; [done|]. intros Hin.
      apply (Hdis_f a Ha). unfold t'. rewrite ids_plug_perm.
      apply elem_of_app. by left. }
    assert (Hpf' : pos (joints w') (f_addr f) = new).
    { unfold pos. rewrite Hkeep by left. by rewrite H1f. }
    assert (Hlc : len h0 (root_addr t') = seg_length jc).
    { unfold len. destruct (same_links_lookup _ _ _ _
        (same_links_sym _ _ Hl0) Hjc) as (j0 & -> & Hlk).
      unfold links in Hlk. by simplify_eq. }
    exists w'. split.
    { change (plug fs t) with t' in Hrun. rewrite Hrun. simpl fwd_args.
      fold t'. by rewrite Hpf', Hlc. }
    split; [by eapply same_links_trans|].
    split; [done|]. split; [done|]. split.
    { rewrite Hpo'. simpl. rewrite length_app.
      case_bool_decide; simpl; lia. }
    split.
    + simpl. fold t'. rewrite Hpf', Hlc. split; [|done].
      eapply node_rel_post_ext; [exact Hkeep|].
      apply step_heap_node_rel; [done|done| |].
      * unfold frame_ids in Hnd_f. by apply NoDup_cons in Hnd_f as [_ ?].
      * intros a Ha. apply Hag. rewrite frames_ids_cons.
        apply elem_of_app. by left.
    + intros a Ha. rewrite frames_ids_cons in Ha.
      apply not_elem_of_app in Ha as [Haf Hafs].
      rewrite Hun' by done. simpl. unfold frame_ids in Haf.
      apply not_elem_of_cons in Haf as [? ?]. by apply step_heap_other.
Qed.

Lemma fwd_rel_post_ext (h h1 h2 : heap) pp fs t d tx ty :
  (forall a, a ∈ frames_ids fs -> h2 !! a = h1 !! a) ->
  fwd_rel h h1 pp fs t d tx ty -> fwd_rel h h2 pp fs t d tx ty.
Proof.
  revert pp d tx ty. induction fs as [|f fs IH]; intros pp d tx ty Heq Hr;
    [done|].
  destruct Hr as [Hn Hr]. rewrite frames_ids_cons in Heq.
  assert (Hp : pos h2 (f_addr f) = pos h1 (f_addr f)).
  { unfold pos. rewrite Heq; [done|]. apply elem_of_app. left. left. }
  simpl. rewrite Hp. split.
  - eapply node_rel_post_ext; [|exact Hn]. intros a Ha. apply Heq.
    apply elem_of_app. by left.
  - apply IH; [|done]. intros a Ha. apply Heq. apply elem_of_app. by right.
Qed.

Lemma fwd_args_post_ext (h h1 h2 : heap) fs t d tx ty :
  (forall a, a ∈ frames_ids fs -> h2 !! a = h1 !! a) ->
  fwd_args h h2 fs t d tx ty = fwd_args h h1 fs t d tx ty.
Proof.
  revert d tx ty. induction fs as [|f fs IH]; intros d tx ty Heq; [done|].
  rewrite frames_ids_cons in Heq.
  assert (Hp : pos h2 (f_addr f) = pos h1 (f_addr f)).
  { unfold pos. rewrite Heq; [done|]. apply elem_of_app. left. left. }
  simpl. rewrite Hp. apply IH. intros a Ha. apply Heq.
  apply elem_of_app. by right.
Qed.

Lemma fwd_pp_post_ext (h1 h2 : heap) pp fs :
  (forall a, a ∈ frames_ids fs -> h2 !! a = h1 !! a) ->
  fwd_pp h2 pp fs = fwd_pp h1 pp fs.
Proof.
  intros Heq. unfold fwd_pp. destruct (last fs) as [f|] eqn:Hlast; [|done].
  unfold pos. rewrite Heq; [done|].
  apply last_Some in Hlast as [fs' ->]. rewrite frames_ids_app, frames_ids_cons.
  apply elem_of_app. right. apply elem_of_app. left. left.
Qed.

Lemma path_stack_chain gs t :
  Forall (fun f => f_sibs f = []) gs -> path_stack gs t = [].
Proof.
  induction 1 as [|f gs Hf _ IH]; [done|]. simpl.
  unfold f_width. by rewrite Hf, IH.
Qed.

Lemma esibs_chain gs l pc :
  Forall (fun f => f_sibs f = []) gs ->
  esibs (kids_of (plug gs (Sh l []))) pc = [].
Proof.
  intros Hgs. unfold esibs. destruct Hgs as [|f gs Hf _]; [done|].
  simpl. rewrite fill_width. unfold f_width. by rewrite Hf.
Qed.

Lemma back_rel_pc (h h' : heap) par fs t pc pc' d tx ty :
  (forall pc, esibs (kids_of t) pc = []) ->
  back_rel h h' par fs t pc d tx ty -> back_rel h h' par fs t pc' d tx ty.
Proof.
  intros Hes. revert par. induction fs as [|f fs IH]; intros par; simpl.
  - by rewrite !Hes.
  - intros [Hn Hr]. split; [done|]. by apply IH.
Qed.

(** [ik_reach_forward] at a leaf. *)
Lemma ik_reach_forward_leaf fuel l (w : W) par d tx ty :
  is_tree (joints w) par (Sh l []) ->
  exists jl, joints w !! l = Some jl /\
    ik_reach_forward (S fuel) (Some l) d tx ty w
    = Ok (tt, set_joints
          (<[l := set_position (move_within_dist (position jl) d tx ty) jl]>
             (joints w)) w).
Proof.
  intros Ht. destruct (is_tree_root_lookup _ _ _ Ht) as (jl & Hjl & _ & Hc).
  simpl in Hjl, Hc. exists jl. split; [done|].
  rewrite ik_reach_forward_unfold.
  erewrite bind_Ok by (by apply load_Some).
  erewrite bind_Ok by (by apply ik_move_within_dist_Some).
  unfold n_children. by rewrite Hc.
Qed.

(** ** The solver on a tree

    The tree is [plug (fs ++ gs) (Sh l [])]: the frames [fs] from the root
    down to the effected joint, which is the root of [plug gs (Sh l [])], a
    chain down to the leaf [l].  [w1] is the world between the passes. *)
Lemma ik_solve_passes H fs gs l (w : W) fuel tx ty :
  let te := plug gs (Sh l []) in
  let T := plug fs te in
  let rx := x (pos (joints w) (root_addr T)) in
  let ry := y (pos (joints w) (root_addr T)) in
  is_tree (joints w) None T ->
  NoDup (ids T) ->
  Forall (fun f => f_sibs f = []) gs ->
  Forall (fun f => Forall (fun s => height s <= H) (f_sibs f)) fs ->
  (List.length fs + List.length gs + H < fuel)%nat ->
  (List.length (path_stack fs te) + List.length (ik_stack w) <= IK_STACK_SIZE)%nat ->
  exists w1 w',
    ik_reach_back fuel (Some (root_addr te)) tx ty fzero w
    = Ok ((Some (root_addr T), rx, ry), w1) /\
    ik_solve fuel (Some (root_addr te)) tx ty w = Ok (1%Z, w') /\
    same_links (joints w) (joints w1) /\
    same_links (joints w1) (joints w') /\
    ik_stack w' = ik_stack w /\
    pushes w' = (pushes w + List.length (path_stack fs te))%nat /\
    pops w' = (pops w + List.length (path_stack fs te))%nat /\
    back_rel (joints w) (joints w1) None fs te NULL fzero tx ty /\
    (forall a, a ∉ frames_ids fs -> a <> root_addr te ->
       joints w1 !! a = joints w !! a) /\
    fwd_rel (joints w1) (joints w') None (fs ++ gs) (Sh l []) fzero rx ry /\
    node_rel (joints w1) (joints w') (fwd_pp (joints w') None (fs ++ gs)) l []
      (fwd_args (joints w1) (joints w') (fs ++ gs) (Sh l []) fzero rx ry).1.1
      (fwd_args (joints w1) (joints w') (fs ++ gs) (Sh l []) fzero rx ry).1.2
      (fwd_args (joints w1) (joints w') (fs ++ gs) (Sh l []) fzero rx ry).2 /\
    (forall a, a ∉ frames_ids (fs ++ gs) -> a <> l ->
       joints w' !! a = joints w1 !! a).
Proof.
  intros te T rx ry Ht Hnd Hgs Hfs Hfuel Hcap.
  assert (Hes : forall pc, esibs (kids_of te) pc = [])
    by (intros; by apply esibs_chain).
  destruct (ik_reach_back_spec H fs te (joints w) w fuel fzero tx ty)
    as (w1 & Hback & Hl1 & Hst1 & Hpu1 & Hpo1 & Hrel1 & Hun1);
    [done|done|done|by rewrite Hes|lia|done|done|].
  assert (HT : T = plug (fs ++ gs) (Sh l [])) by (unfold T, te; by rewrite plug_app).
  assert (Hfs' : Forall (fun f => Forall (fun s => height s <= H) (f_sibs f))
                   (fs ++ gs)).
  { apply Forall_app. split; [done|]. eapply Forall_impl; [exact Hgs|].
    simpl. intros f ->. constructor. }
  destruct (ik_reach_forward_prefix H (fs ++ gs) (Sh l []) None None
              (joints w1) w1 fuel fzero rx ry (ik_stack w))
    as (w2 & Hfwd & Hl2 & Hst2 & Hpu2 & Hpo2 & Hrel2 & Hun2).
  { rewrite <- HT. by eapply is_tree_same_links. }
  { by rewrite <- HT. }
  { done. }
  { done. }
  { rewrite length_app. lia. }
  { rewrite Hst1, path_stack_app. fold te.
    by rewrite (path_stack_chain gs), app_nil_r. }
  { done. }
  { done. }
  destruct (fuel - List.length (fs ++ gs))%nat as [|fuel'] eqn:Hfl.
  { rewrite length_app in Hfl. lia. }
  assert (Htl : is_tree (joints w2) (plug_par None (fs ++ gs)) (Sh l [])).
  { apply is_tree_plug. rewrite <- HT.
    eapply is_tree_same_links; [|exact Ht]. by eapply same_links_trans. }
  destruct (ik_reach_forward_leaf fuel' l w2 _
    (fwd_args (joints w1) (joints w2) (fs ++ gs) (Sh l []) fzero rx ry).1.1
    (fwd_args (joints w1) (joints w2) (fs ++ gs) (Sh l []) fzero rx ry).1.2
    (fwd_args (joints w1) (joints w2) (fs ++ gs) (Sh l []) fzero rx ry).2 Htl)
    as (jl & Hjl & Hleaf).
  assert (Hlf : l ∉ frames_ids (fs ++ gs)).
  { rewrite HT in Hnd. destruct (NoDup_plug _ _ Hnd) as (_ & _ & Hdis).
    intros Hin. apply (Hdis l Hin). left. }
  set (w3 := set_joints (<[l := _]> (joints w2)) w2) in Hleaf.
  assert (Hkeep : forall a, a ∈ frames_ids (fs ++ gs) ->
                    joints w3 !! a = joints w2 !! a).
  { intros a Ha. unfold w3. rewrite joints_set_joints.
    apply lookup_insert_ne. by intros ->. }
  exists w1, w3. split; [exact Hback|]. split.
  { unfold ik_solve. erewrite bind_Ok by exact Hback.
    fold T. cbv zeta. fold rx ry. rewrite HT.
    erewrite bind_Ok; [done|]. rewrite Hfwd. exact Hleaf. }
  split; [done|]. split.
  { eapply same_links_trans; [exact Hl2|]. unfold w3.
    rewrite joints_set_joints. by eapply (same_links_insert _ _ jl). }
  split; [done|]. split; [unfold w3; simpl; lia|].
  split.
  { unfold w3. simpl. rewrite Hpo2, Hpo1, path_stack_app. fold te.
    rewrite (path_stack_chain gs) by done. by rewrite app_nil_r. }
  split.
  { by eapply back_rel_pc. }
  split.
  { intros a Ha Hae. apply Hun1. unfold back_touched. rewrite Hes. simpl.
    apply not_elem_of_app. split; [done|]. apply not_elem_of_cons.
    split; [done|]. apply not_elem_of_nil. }
  split.
  { eapply fwd_rel_post_ext; [exact Hkeep|done]. }
  split.
  { rewrite (fwd_args_post_ext _ _ _ _ _ _ _ _ Hkeep).
    rewrite (fwd_pp_post_ext _ _ _ _ Hkeep).
    split.
    - unfold w3. rewrite joints_set_joints, lookup_insert_eq.
      rewrite <- (Hun2 l Hlf), Hjl. done.
    - intros q Hq. by apply elem_of_nil in Hq. }
  intros a Ha Hal. unfold w3. rewrite joints_set_joints.
  rewrite lookup_insert_ne by done. by apply Hun2.
Qed.

(** [ik_solve_passes] with the store between the passes left abstract. *)
Lemma ik_solve_spec H fs gs l (w : W) fuel tx ty :
  let te := plug gs (Sh l []) in
  let T := plug fs te in
  let rx := x (pos (joints w) (root_addr T)) in
  let ry := y (pos (joints w) (root_addr T)) in
  is_tree (joints w) None T ->
  NoDup (ids T) ->
  Forall (fun f => f_sibs f = []) gs ->
  Forall (fun f => Forall (fun s => height s <= H) (f_sibs f)) fs ->
  (List.length fs + List.length gs + H < fuel)%nat ->
  (List.length (path_stack fs te) + List.length (ik_stack w) <= IK_STACK_SIZE)%nat ->
  exists h1 w',
    ik_solve fuel (Some (root_addr te)) tx ty w = Ok (1%Z, w') /\
    same_links (joints w) h1 /\
    same_links h1 (joints w') /\
    ik_stack w' = ik_stack w /\
    pushes w' = (pushes w + List.length (path_stack fs te))%nat /\
    pops w' = (pops w + List.length (path_stack fs te))%nat /\
    back_rel (joints w) h1 None fs te NULL fzero tx ty /\
    (forall a, a ∉ frames_ids fs -> a <> root_addr te ->
       h1 !! a = joints w !! a) /\
    fwd_rel h1 (joints w') None (fs ++ gs) (Sh l []) fzero rx ry /\
    node_rel h1 (joints w') (fwd_pp (joints w') None (fs ++ gs)) l []
      (fwd_args h1 (joints w') (fs ++ gs) (Sh l []) fzero rx ry).1.1
      (fwd_args h1 (joints w') (fs ++ gs) (Sh l []) fzero rx ry).1.2
      (fwd_args h1 (joints w') (fs ++ gs) (Sh l []) fzero rx ry).2 /\
    (forall a, a ∉ frames_ids (fs ++ gs) -> a <> l ->
       joints w' !! a = h1 !! a).
Proof.
  intros te T rx ry Ht Hnd Hgs Hfs Hfuel Hcap.
  destruct (ik_solve_passes H fs gs l w fuel tx ty)
    as (w1 & w' & _ & Hrest); [done..|].
  by exists (joints w1), w'.
Qed.

End Passes.

(** ** Control flow: the path stack, and what the solver needs of a tree *)

Section Control.
Context {F : Type} {num : Num F}.
Local Open Scope num_scope.

Local Abbreviation vec2 := (ik_vec2 F).
Local Abbreviation joint := (ik_joint F).
Local Abbreviation heap := (gmap addr (ik_joint F)).
Local Abbreviation W := (world F).

Lemma insert_alter (h : heap) a j (f : joint -> joint) :
  h !! a = Some j -> <[a := f j]> h = alter f a h.
Proof.
  intros Hj. apply map_eq. intros b. destruct (decide (a = b)) as [->|Hne].
  - by rewrite lookup_insert_eq, lookup_alter_eq, Hj.
  - by rewrite lookup_insert_ne, lookup_alter_ne.
Qed.

Lemma ik_attach_joint_from_full i slots child parent_ (w : W) :
  Forall (fun s => s <> NULL) slots ->
  ik_attach_joint_from i slots child parent_ w = Ok (IK_ERROR, w).
Proof.
  intros Hfull. revert i.
  induction Hfull as [|s slots Hs _ IH]; intros i; [done|].
  simpl. by rewrite bool_decide_false.
Qed.

Lemma ik_attach_joint_from_free i l1 l2 child parent_ jp (w : W) :
  Forall (fun s => s <> NULL) l1 ->
  joints w !! parent_ = Some jp ->
  is_Some (joints w !! child) ->
  ik_attach_joint_from i (l1 ++ NULL :: l2) (Some child) (Some parent_) w
  = Ok (IK_OK, set_joints
         (alter (set_parent (Some parent_)) child
            (<[parent_ := set_children
                 (<[(i + List.length l1)%nat := Some child]> (children jp)) jp]>
               (joints w))) w).
Proof.
  intros Hl1 Hjp Hc. revert i. induction Hl1 as [|s l1 Hs _ IH]; intros i.
  - simpl.
    erewrite bind_Ok by (by apply modify_Some). rewrite Nat.add_0_r.
    set (h1 := <[parent_ := _]> (joints w)).
    assert (Hc1 : is_Some (h1 !! child)).
    { unfold h1. destruct (decide (parent_ = child)) as [->|Hne].
      - rewrite lookup_insert_eq. eauto.
      - by rewrite lookup_insert_ne. }
    destruct Hc1 as [jc Hjc].
    erewrite bind_Ok by (apply modify_Some; rewrite joints_set_joints; exact Hjc).
    unfold ret. rewrite joints_set_joints, set_joints_set_joints.
    by rewrite (insert_alter _ _ _ _ Hjc).
  - simpl. rewrite bool_decide_false by done. rewrite IH.
    by rewrite Nat.add_succ_r.
Qed.

(** C8.  [ik_attach_joint] on a parent whose slots are all occupied returns
    [IK_ERROR] and changes nothing; on a parent with a free slot it returns
    [IK_OK], the first free slot of the parent, in slot order, then holds
    the child, the [parent] of the child is the parent, and nothing else is
    written: the other slots, the positions and lengths of the two joints,
    the other joints and the path stack are what they were. *)
Theorem ik_attach_joint_spec (w : W) (child parent_ : addr) (jp : joint) :
  joints w !! parent_ = Some jp ->
  (Forall (fun s => s <> NULL) (children jp) ->
   ik_attach_joint (Some child) (Some parent_) w = Ok (IK_ERROR, w)) /\
  (forall l1 l2 jc,
     children jp = l1 ++ NULL :: l2 ->
     Forall (fun s => s <> NULL) l1 ->
     joints w !! child = Some jc ->
     exists w',
       ik_attach_joint (Some child) (Some parent_) w = Ok (IK_OK, w') /\
       joints w' !! parent_
       = Some (Joint (position jp) (seg_length jp)
                 (if decide (child = parent_) then Some parent_ else parent jp)
                 (l1 ++ Some child :: l2)) /\
       (child <> parent_ ->
        joints w' !! child
        = Some (Joint (position jc) (seg_length jc) (Some parent_)
                  (children jc))) /\
       (forall a, a <> parent_ -> a <> child ->
          joints w' !! a = joints w !! a) /\
       ik_stack w' = ik_stack w /\
       pushes w' = pushes w /\ pops w' = pops w).
Proof.
  intros Hjp. split.
  - intros Hfull. unfold ik_attach_joint.
    erewrite bind_Ok by (by apply load_Some).
    by apply ik_attach_joint_from_full.
  - intros l1 l2 jc Hc Hl1 Hchild. eexists. split.
    { unfold ik_attach_joint.
      erewrite bind_Ok by (by apply load_Some).
      rewrite Hc. erewrite ik_attach_joint_from_free by done. simpl.
      rewrite Hc.
      by rewrite (insert_app_r_alt l1 _ (List.length l1)), Nat.sub_diag. }
    rewrite joints_set_joints. split; [|split; [|split; [|done]]].
    + destruct (decide (child = parent_)) as [->|Hne].
      * by rewrite lookup_alter_eq, lookup_insert_eq.
      * by rewrite lookup_alter_ne, lookup_insert_eq.
    + intros Hne. rewrite lookup_alter_eq, lookup_insert_ne by done.
      by rewrite Hchild.
    + intros a Hap Hac. by rewrite lookup_alter_ne, lookup_insert_ne.
Qed.

Lemma load_inv (p : pointer) (w w1 : W) j :
  load p w = Ok (j, w1) -> w1 = w.
Proof.
  unfold load. destruct p as [a|]; [|done].
  destruct (joints w !! a); [|done]. by intros [= _ ->].
Qed.

Lemma ik_move_within_dist_keeps (p : pointer) d tx ty (w w1 : W) u :
  ik_move_within_dist p d tx ty w = Ok (u, w1) ->
  ik_stack w1 = ik_stack w /\ pushes w1 = pushes w /\ pops w1 = pops w.
Proof.
  unfold ik_move_within_dist. intros Hm.
  apply bind_Ok_inv in Hm as (j & w0 & Hl & Hs). apply load_inv in Hl as ->.
  unfold store_position, modify in Hs. destruct p as [a|]; [|done].
  destruct (joints w !! a); [|done]. by injection Hs as _ <-.
Qed.

(** On an empty path stack [ik_reach_forward] takes nothing off: where it
    would, the path child is [NULL] and its length is read. *)
Lemma ik_reach_forward_empty fuel : forall root d tx ty (w w' : W) u,
  ik_stack w = [] ->
  ik_reach_forward fuel root d tx ty w = Ok (u, w') ->
  ik_stack w' = [] /\ pushes w' = pushes w /\ pops w' = pops w.
Proof.
  induction fuel as [|fuel IH]; intros root d tx ty w w' u Hs Hrun; [done|].
  rewrite ik_reach_forward_unfold in Hrun.
  apply bind_Ok_inv in Hrun as (r & w0 & Hl & Hrun). apply load_inv in Hl as ->.
  apply bind_Ok_inv in Hrun as ([] & w1 & Hm & Hrun).
  apply ik_move_within_dist_keeps in Hm as (Hs1 & Hpu1 & Hpo1).
  rewrite Hs in Hs1.
  case_bool_decide.
  { injection Hrun as _ <-. by rewrite Hs1, Hpu1, Hpo1. }
  apply bind_Ok_inv in Hrun as (pc & w2 & Hpc & Hrun).
  case_bool_decide.
  - exfalso. rewrite bind_pop_nil in Hpc by done.
    apply bind_Ok_inv in Hpc as ([] & w3 & _ & Hret).
    injection Hret as <- <-. by apply bind_Ok_inv in Hrun as (? & ? & ? & _).
  - injection Hpc as <- <-.
    apply bind_Ok_inv in Hrun as (c & w2 & Hl & Hrun). apply load_inv in Hl as ->.
    apply bind_Ok_inv in Hrun as (r2 & w2 & Hl & Hrun). apply load_inv in Hl as ->.
    apply IH in Hrun as (? & ? & ?); [|done]. split; [done|]. split; congruence.
Qed.

Lemma height_fill f t : (height t < height (fill f t))%nat.
Proof.
  unfold fill. simpl. rewrite List.map_app. simpl.
  assert (Hk : (height t <= foldr Nat.max 0
                  (List.map height (f_left f) ++ height t :: List.map height (f_right f)))%nat).
  { induction (List.map height (f_left f)) as [|n l IH]; simpl; lia. }
  lia.
Qed.

Lemma height_fill_sibs f t s :
  s ∈ f_sibs f -> (height s < height (fill f t))%nat.
Proof.
  intros Hs. unfold fill. simpl.
  assert (Hin : s ∈ f_left f ++ t :: f_right f).
  { unfold f_sibs in Hs. apply elem_of_app in Hs as [Hs|Hs];
      apply elem_of_app; [by left|right; by right]. }
  pose proof (height_kid _ _ Hin). lia.
Qed.

Lemma height_plug fs t : (List.length fs + height t <= height (plug fs t))%nat.
Proof.
  induction fs as [|f fs IH]; simpl plug; simpl List.length; [lia|].
  pose proof (height_fill f (plug fs t)). lia.
Qed.

Lemma height_plug_sibs fs t :
  Forall (fun f => Forall (fun s => height s <= height (plug fs t))%nat
                     (f_sibs f)) fs.
Proof.
  induction fs as [|f fs IH]; [done|]. simpl plug. constructor.
  - apply Forall_forall. intros s Hs.
    pose proof (height_fill_sibs f (plug fs t) s Hs). lia.
  - eapply Forall_impl; [exact IH|]. cbv beta. intros g Hg.
    eapply Forall_impl; [exact Hg|]. cbv beta. intros s Hs.
    pose proof (height_fill f (plug fs t)). lia.
Qed.

Lemma height_kids_plug fs t :
  Forall (fun s => height s <= height (plug fs t))%nat (kids_of t).
Proof.
  apply Forall_forall. intros s Hs. pose proof (height_plug fs t).
  destruct t as [e kids]. simpl in Hs. pose proof (height_kid _ _ Hs).
  simpl in *. lia.
Qed.

(** The parent of the tree plugged into frames is a joint of the store. *)
Lemma plug_par_lookup (h : heap) fs t :
  is_tree h None (plug fs t) -> NoDup (ids (plug fs t)) ->
  match plug_par None fs with
  | Some pa => pa ∈ frames_ids fs /\ (pa ∉ ids t) /\ is_Some (h !! pa)
  | None => fs = []
  end.
Proof.
  intros Ht Hnd. destruct fs as [|f fs _] using rev_ind; [done|].
  rewrite plug_par_snoc. rewrite plug_app in Ht, Hnd.
  destruct (is_tree_fill_inv _ _ _ _ (is_tree_plug _ _ _ _ Ht))
    as (jf & Hjf & _).
  destruct (NoDup_plug _ _ Hnd) as (_ & Hndf & _).
  simpl plug in Hndf. rewrite ids_fill_perm in Hndf.
  apply NoDup_app in Hndf as (_ & Hdis & _).
  split; [|split; [|eauto]].
  - rewrite frames_ids_app, frames_ids_cons. apply elem_of_app. right.
    apply elem_of_app. left. left.
  - apply Hdis. left.
Qed.

(** [ik_reach_forward] at a joint with more than one child, on the empty
    stack: all children are aligned, and the length of [NULL] is read. *)
Lemma ik_reach_forward_branching_empty fuel e kids par pp (w : W) d tx ty :
  is_tree (joints w) par (Sh e kids) ->
  NoDup (ids (Sh e kids)) ->
  match par with
  | Some pa =>
      pa <> e /\ exists pj, joints w !! pa = Some pj /\ pp = Some (position pj)
  | None => pp = None
  end ->
  Forall (fun k => height k <= fuel)%nat kids ->
  ik_stack w = [] ->
  (1 < List.length kids)%nat ->
  ik_reach_forward (S fuel) (Some e) d tx ty w = Fault NullDeref.
Proof.
  intros Ht Hnd Hpar Hh Hs Hk.
  destruct (is_tree_root_lookup _ _ _ Ht) as (j & Hj & Hp & Hc).
  simpl in Hj, Hc. subst par.
  assert (Hn : n_children j = List.length kids).
  { unfold n_children. rewrite Hc. unfold slots_of. apply length_map. }
  assert (Hall : sibs_of kids None = kids).
  { apply sibs_of_all. apply Forall_forall. by intros. }
  rewrite ik_reach_forward_unfold.
  erewrite bind_Ok by (by apply load_Some).
  erewrite bind_Ok by (by apply ik_move_within_dist_Some).
  rewrite Hn, bool_decide_false by lia. rewrite bool_decide_true by done.
  erewrite bind_Ok; cycle 1.
  { rewrite bind_pop_nil by done.
    erewrite bind_Ok; [done|].
    apply (align_children_step fuel e kids pp None w j d tx ty);
      [done..|by rewrite Hall|done]. }
  done.
Qed.

(** C9.  When the effected joint has more than one child (and the path stack
    is empty at entry), the forward pass arrives at the effected joint with
    the stack empty again; there [ik_stack_pop] gives [NULL], every child is
    aligned as a branch off the path, and the length of the [NULL] path child
    is read.  So [ik_solve] can return only if the effected joint has at most
    one child. *)
Theorem ik_solve_effected_children fs e kids (w : W) fuel tx ty :
  is_tree (joints w) None (plug fs (Sh e kids)) ->
  NoDup (ids (plug fs (Sh e kids))) ->
  ik_stack w = [] ->
  (2 * height (plug fs (Sh e kids)) <= fuel)%nat ->
  (List.length (path_stack fs (Sh e kids)) <= IK_STACK_SIZE)%nat ->
  ((1 < List.length kids)%nat ->
   ik_solve fuel (Some e) tx ty w = Fault NullDeref /\
   exists w1 w2 root ox oy d' tx' ty',
     ik_reach_back fuel (Some e) tx ty fzero w = Ok ((root, ox, oy), w1) /\
     ik_reach_forward fuel root fzero ox oy w1
     = ik_reach_forward (fuel - List.length fs) (Some e) d' tx' ty' w2 /\
     ik_stack w2 = [] /\
     ik_reach_forward (fuel - List.length fs) (Some e) d' tx' ty' w2
     = Fault NullDeref) /\
  (forall r w', ik_solve fuel (Some e) tx ty w = Ok (r, w') ->
     (List.length kids <= 1)%nat).
Proof.
  intros Ht Hnd Hs Hfuel Hcap.
  set (T := plug fs (Sh e kids)) in *.
  pose proof (height_plug fs (Sh e kids)) as Hhp. fold T in Hhp.
  simpl height in Hhp.
  assert (Hmain : (1 < List.length kids)%nat ->
    ik_solve fuel (Some e) tx ty w = Fault NullDeref /\
    exists w1 w2 root ox oy d' tx' ty',
      ik_reach_back fuel (Some e) tx ty fzero w = Ok ((root, ox, oy), w1) /\
      ik_reach_forward fuel root fzero ox oy w1
      = ik_reach_forward (fuel - List.length fs) (Some e) d' tx' ty' w2 /\
      ik_stack w2 = [] /\
      ik_reach_forward (fuel - List.length fs) (Some e) d' tx' ty' w2
      = Fault NullDeref).
  { intros Hk.
    destruct (ik_reach_back_spec (height T) fs (Sh e kids) (joints w) w fuel
                fzero tx ty)
      as (w1 & Hback & Hl1 & Hst1 & Hpu1 & Hpo1 & Hrel1 & Hun1);
      [done|done|apply height_plug_sibs| |lia|rewrite Hs; simpl; lia|done|].
    { pose proof (height_kids_plug fs (Sh e kids)) as Hall. fold T in Hall.
      unfold esibs. case_bool_decide; [|constructor].
      apply Forall_forall. intros s Hin.
      apply list_elem_of_filter in Hin as [_ Hin].
      rewrite Forall_forall in Hall. by apply Hall. }
    rewrite Hs, app_nil_r in Hst1.
    destruct (ik_reach_forward_prefix (height T) fs (Sh e kids) None None
                (joints w1) w1 fuel fzero
                (x (pos (joints w) (root_addr T)))
                (y (pos (joints w) (root_addr T))) [])
      as (w2 & Hfwd & Hl2 & Hst2 & Hpu2 & Hpo2 & Hrel2 & Hun2);
      [by eapply is_tree_same_links|done|done|apply height_plug_sibs|lia
      |by rewrite app_nil_r|done|done|].
    change (plug fs (Sh e kids)) with T in Hfwd. simpl root_addr in Hfwd.
    destruct (fuel - List.length fs)%nat as [|fuel'] eqn:Hfl; [lia|].
    assert (Ht2 : is_tree (joints w2) None T).
    { eapply is_tree_same_links; [|exact Ht]. by eapply same_links_trans. }
    set (args := fwd_args (joints w1) (joints w2) fs (Sh e kids) fzero
                   (x (pos (joints w) (root_addr T)))
                   (y (pos (joints w) (root_addr T)))) in *.
    assert (Hfault : ik_reach_forward (S fuel') (Some e) args.1.1 args.1.2
                       args.2 w2 = Fault NullDeref).
    { pose proof (plug_par_lookup _ _ _ Ht2 Hnd) as Hpar.
      destruct (NoDup_plug _ _ Hnd) as (_ & Hnde & _).
      eapply (ik_reach_forward_branching_empty fuel' e kids
                (plug_par None fs)
                (match plug_par None fs with
                 | Some pa => Some (pos (joints w2) pa)
                 | None => None
                 end)); [by apply is_tree_plug|done| | |done|done].
      - destruct (plug_par None fs) as [pa|]; [|done].
        destruct Hpar as (_ & Hpa & [pj Hpj]). split.
        + intros ->. apply Hpa. left.
        + exists pj. split; [done|]. unfold pos. by rewrite Hpj.
      - pose proof (height_kids_plug fs (Sh e kids)) as Hall. fold T in Hall.
        eapply Forall_impl; [exact Hall|]. simpl. intros; lia. }
    split.
    - unfold ik_solve. erewrite bind_Ok by exact Hback. fold T. cbv zeta.
      apply bind_Fault. rewrite Hfwd. exact Hfault.
    - exists w1, w2. do 6 eexists. split; [exact Hback|].
      split; [exact Hfwd|]. split; [done|]. exact Hfault. }
  split; [exact Hmain|].
  intros r w' Hok. destruct (decide (1 < List.length kids)%nat) as [Hk|]; [|lia].
  destruct (Hmain Hk) as [Hf _]. congruence.
Qed.

(** [ik_reach_forward] on a tree, with the path stack empty: it goes down
    the only children, and returns at a leaf or reads the length of [NULL]
    at the first joint with more than one child.  It does not run out of
    fuel. *)
Lemma ik_reach_forward_tree_empty fuel :
  forall t par (w : W) d tx ty,
  is_tree (joints w) par t ->
  NoDup (ids t) ->
  match par with
  | Some pa => pa <> root_addr t /\ is_Some (joints w !! pa)
  | None => True
  end ->
  (height t <= fuel)%nat ->
  ik_stack w = [] ->
  ik_reach_forward fuel (Some (root_addr t)) d tx ty w = Fault NullDeref \/
  exists w', ik_reach_forward fuel (Some (root_addr t)) d tx ty w = Ok (tt, w').
Proof.
  induction fuel as [|fuel IH]; intros [e kids] par w d tx ty Ht Hnd Hpar Hh Hs.
  { simpl in Hh. lia. }
  destruct kids as [|k [|k' kids]].
  - right. destruct (ik_reach_forward_leaf fuel e w par d tx ty Ht)
      as (jl & _ & Hrun). eauto.
  - destruct (is_tree_root_lookup _ _ _ Ht) as (j & Hj & Hp & Hc).
    simpl in Hj, Hc. simpl root_addr.
    rewrite ik_reach_forward_unfold.
    erewrite bind_Ok by (by apply load_Some).
    erewrite bind_Ok by (by apply ik_move_within_dist_Some).
    unfold n_children. rewrite Hc.
    rewrite bool_decide_false by (simpl; lia).
    rewrite bool_decide_false by (simpl; lia).
    set (w1 := set_joints _ w).
    assert (Hl1 : same_links (joints w) (joints w1)).
    { unfold w1. rewrite joints_set_joints.
      by apply (same_links_insert _ _ j). }
    inversion Ht as [? ? ? ? _ _ _ Hk]; subst.
    apply Forall_cons in Hk as [Hk _].
    assert (Hk1 : is_tree (joints w1) (Some e) k)
      by (by eapply is_tree_same_links).
    destruct (is_tree_root_lookup _ _ _ Hk1) as (jk & Hjk & _).
    assert (He1 : is_Some (joints w1 !! e)).
    { unfold w1. rewrite joints_set_joints, lookup_insert_eq. by eexists. }
    destruct He1 as [je1 Hje1].
    simpl. erewrite bind_Ok by done.
    erewrite bind_Ok by (by apply load_Some).
    erewrite bind_Ok by (by apply load_Some).
    simpl in Hnd. rewrite app_nil_r in Hnd. apply NoDup_cons in Hnd as [Hne Hndk].
    apply (IH k (Some e) w1); try done.
    + split; [|by eexists]. intros ->. apply Hne. apply root_in_ids.
    + simpl in Hh. lia.
  - left. simpl root_addr.
    destruct par as [pa|].
    + destruct Hpar as [Hne [pj Hpj]].
      apply (ik_reach_forward_branching_empty fuel e (k :: k' :: kids)
               (Some pa) (Some (position pj))); try done.
      * split; [done|]. by exists pj.
      * apply Forall_forall. intros s Hin.
        pose proof (height_kid _ _ Hin) as Hle. simpl in Hle, Hh. lia.
      * simpl. lia.
    + apply (ik_reach_forward_branching_empty fuel e (k :: k' :: kids)
               None None); try done.
      * apply Forall_forall. intros s Hin.
        pose proof (height_kid _ _ Hin) as Hle. simpl in Hle, Hh. lia.
      * simpl. lia.
Qed.

(** C7.  A call of [ik_solve] on a tree, with the path stack empty at entry,
    returns or stops where C9 says, at the length of [NULL]; it does not run
    out of fuel.  The backward pass pushes one entry for every joint of the
    path with more than one child; when the call returns, the forward pass
    has popped as many, and the stack is empty again. *)
Theorem ik_solve_stack_balance fs t (w : W) fuel tx ty :
  is_tree (joints w) None (plug fs t) ->
  NoDup (ids (plug fs t)) ->
  ik_stack w = [] ->
  (2 * height (plug fs t) <= fuel)%nat ->
  (List.length (path_stack fs t) <= IK_STACK_SIZE)%nat ->
  exists w1 root ox oy,
    ik_reach_back fuel (Some (root_addr t)) tx ty fzero w
    = Ok ((root, ox, oy), w1) /\
    pushes w1 = (pushes w + List.length (path_stack fs t))%nat /\
    pops w1 = pops w /\
    (ik_solve fuel (Some (root_addr t)) tx ty w = Fault NullDeref \/
     exists w',
       ik_solve fuel (Some (root_addr t)) tx ty w = Ok (1%Z, w') /\
       ik_reach_forward fuel root fzero ox oy w1 = Ok (tt, w') /\
       ik_stack w' = [] /\
       pushes w' = pushes w1 /\
       pops w' = (pops w1 + List.length (path_stack fs t))%nat).
Proof.
  intros Ht Hnd Hs Hfuel Hcap.
  set (T := plug fs t) in *.
  pose proof (height_plug fs t) as Hhp. fold T in Hhp.
  assert (Hht : (0 < height t)%nat) by (destruct t; simpl; lia).
  destruct (ik_reach_back_spec (height T) fs t (joints w) w fuel
              fzero tx ty)
    as (w1 & Hback & Hl1 & Hst1 & Hpu1 & Hpo1 & Hrel1 & Hun1);
    [done|done|apply height_plug_sibs| |lia|rewrite Hs; simpl; lia|done|].
  { pose proof (height_kids_plug fs t) as Hall. fold T in Hall.
    unfold esibs. case_bool_decide; [|constructor].
    apply Forall_forall. intros s Hin.
    apply list_elem_of_filter in Hin as [_ Hin].
    rewrite Forall_forall in Hall. by apply Hall. }
  rewrite Hs, app_nil_r in Hst1.
  destruct (ik_reach_forward_prefix (height T) fs t None None
              (joints w1) w1 fuel fzero
              (x (pos (joints w) (root_addr T)))
              (y (pos (joints w) (root_addr T))) [])
    as (w2 & Hfwd & Hl2 & Hst2 & Hpu2 & Hpo2 & Hrel2 & Hun2);
    [by eapply is_tree_same_links|done|done|apply height_plug_sibs|lia
    |by rewrite app_nil_r|done|done|].
  change (plug fs t) with T in Hfwd.
  assert (Ht2 : is_tree (joints w2) None T).
  { eapply is_tree_same_links; [|exact Ht]. by eapply same_links_trans. }
  exists w1. do 3 eexists. split; [exact Hback|].
  split; [done|]. split; [done|].
  unfold ik_solve. erewrite bind_Ok by exact Hback. fold T. cbv zeta.
  destruct (NoDup_plug _ _ Hnd) as (_ & Hndt & _).
  pose proof (plug_par_lookup _ _ _ Ht2 Hnd) as Hpar.
  destruct (ik_reach_forward_tree_empty (fuel - List.length fs) t
              (plug_par None fs) w2
              (fwd_args (joints w1) (joints w2) fs t fzero
                 (x (pos (joints w) (root_addr T)))
                 (y (pos (joints w) (root_addr T)))).1.1
              (fwd_args (joints w1) (joints w2) fs t fzero
                 (x (pos (joints w) (root_addr T)))
                 (y (pos (joints w) (root_addr T)))).1.2
              (fwd_args (joints w1) (joints w2) fs t fzero
                 (x (pos (joints w) (root_addr T)))
                 (y (pos (joints w) (root_addr T)))).2)
    as [Hfault|[w' Hrun]].
  - by apply is_tree_plug.
  - done.
  - destruct (plug_par None fs) as [pa|]; [|done].
    destruct Hpar as (_ & Hnin & Hal). split; [|done].
    intros ->. apply Hnin. apply root_in_ids.
  - lia.
  - done.
  - left. rewrite <- Hfwd in Hfault. by erewrite bind_Fault.
  - right. exists w'. rewrite <- Hfwd in Hrun.
    pose proof Hrun as Hrun'. rewrite Hfwd in Hrun'.
    apply ik_reach_forward_empty in Hrun' as (Hs3 & Hpu3 & Hpo3); [|done].
    split; [by erewrite bind_Ok|]. split; [done|]. split; [done|].
    split; congruence.
Qed.

End Control.

(** ** The joints of the path and their parents *)

(** The joints [ik_reach_forward] moves: the joints of the frames and the
    root of [t], from the root of the whole tree down. *)
Definition path_addrs (fs : list frame) (t : shape) : list addr :=
  List.map f_addr fs ++ [root_addr t].

(** Each joint of the path below the root, with its parent. *)
Fixpoint path_links (fs : list frame) (t : shape) : list (addr * addr) :=
  match fs with
  | [] => []
  | f :: fs' => (f_addr f, root_addr (plug fs' t)) :: path_links fs' t
  end.

Section Links.
Context {F : Type} {num : Num F}.

Local Abbreviation vec2 := (ik_vec2 F).
Local Abbreviation joint := (ik_joint F).
Local Abbreviation heap := (gmap addr (ik_joint F)).
Local Abbreviation W := (world F).

Lemma path_addrs_cons f fs t :
  path_addrs (f :: fs) t = f_addr f :: path_addrs fs t.
Proof. done. Qed.

Lemma root_addr_path fs t : head (path_addrs fs t) = Some (root_addr (plug fs t)).
Proof. by destruct fs. Qed.

Lemma path_addrs_in_plug fs t a : a ∈ path_addrs fs t -> a ∈ ids (plug fs t).
Proof.
  induction fs as [|f fs IH]; intros Ha.
  - unfold path_addrs in Ha. simpl in Ha. apply list_elem_of_singleton in Ha as ->.
    apply root_in_ids.
  - rewrite path_addrs_cons in Ha. simpl plug. rewrite ids_fill_perm.
    apply elem_of_app. apply elem_of_cons in Ha as [->|Ha]; [left; left|].
    right. by apply IH.
Qed.

(** The parent of a joint of a tree is the parent of the tree, or a joint of
    the tree. *)
Lemma tree_parent_in (h : heap) par t u ju pu :
  is_tree h par t -> u ∈ ids t -> h !! u = Some ju -> parent ju = Some pu ->
  Some pu = par \/ pu ∈ ids t.
Proof.
  revert par. induction t as [e kids IH] using shape_ind'.
  intros par Ht Hin Hju Hpu.
  inversion Ht as [? ? ? j Hj Hp Hc Hk]; subst. simpl in Hin.
  apply elem_of_cons in Hin as [->|Hin].
  - left. simplify_eq. done.
  - right. change (concat (List.map ids kids)) with (ids_list kids) in Hin.
    apply elem_of_ids_list in Hin as (k & Hk' & Ha).
    rewrite Forall_forall in IH, Hk.
    destruct (IH k Hk' (Some e) (Hk k Hk') Ha Hju Hpu) as [Heq|Hin'].
    + simplify_eq. left.
    + simpl. right. change (concat (List.map ids kids)) with (ids_list kids).
      apply elem_of_ids_list. eauto.
Qed.

(** The parent of a joint in a branch off the path is in the branch, or is
    the joint of the path the branch hangs on. *)
Lemma sibs_parent_in (h : heap) b sibs u ju pu :
  Forall (is_tree h (Some b)) sibs ->
  u ∈ ids_list sibs -> h !! u = Some ju -> parent ju = Some pu ->
  pu ∈ b :: ids_list sibs.
Proof.
  intros Hs Hu Hju Hpu. apply elem_of_ids_list in Hu as (s & Hin & Hu).
  rewrite Forall_forall in Hs.
  destruct (tree_parent_in h (Some b) s u ju pu (Hs s Hin) Hu Hju Hpu)
    as [Heq|Hin'].
  - simplify_eq. left.
  - right. apply elem_of_ids_list. eauto.
Qed.

(** The links of the path are links of the store. *)
Lemma path_links_parent (h : heap) par fs t p c :
  is_tree h par (plug fs t) -> (p, c) ∈ path_links fs t ->
  exists jc, h !! c = Some jc /\ parent jc = Some p.
Proof.
  revert par. induction fs as [|f fs IH]; intros par Ht Hin.
  { by apply elem_of_nil in Hin. }
  simpl in Ht, Hin.
  destruct (is_tree_fill_inv _ _ _ _ Ht) as (jf & Hjf & Hpf & Hcf & Htt & _).
  apply elem_of_cons in Hin as [[= -> ->]|Hin].
  - destruct (is_tree_root_lookup _ _ _ Htt) as (jc & Hjc & Hpc & _). eauto.
  - by eapply IH.
Qed.

Lemma path_links_child fs t p c :
  (p, c) ∈ path_links fs t -> c ∈ path_addrs fs t /\ p ∈ List.map f_addr fs.
Proof.
  induction fs as [|f fs IH]; intros Hin; [by apply elem_of_nil in Hin|].
  simpl in Hin. apply elem_of_cons in Hin as [[= -> ->]|Hin].
  - split; [|left]. rewrite path_addrs_cons. right.
    destruct fs as [|g fs]; simpl; left.
  - destruct (IH Hin) as [Hc Hp]. split; [rewrite path_addrs_cons|]; by right.
Qed.

(** The steps of [ik_reach_forward], link by link: each joint of the path
    below the root moves towards the new position of its parent. *)
Lemma fwd_rel_links (h h' : heap) pp fs t d tx ty p c :
  fwd_rel h h' pp fs t d tx ty ->
  h' !! root_addr t
  = move_joint (fun q => move_within_dist q
      (fwd_args h h' fs t d tx ty).1.1
      (fwd_args h h' fs t d tx ty).1.2
      (fwd_args h h' fs t d tx ty).2) <$> h !! root_addr t ->
  (p, c) ∈ path_links fs t ->
  h' !! c
  = move_joint (fun q => move_within_dist q (len h c)
      (x (pos h' p)) (y (pos h' p))) <$> h !! c.
Proof.
  revert pp d tx ty. induction fs as [|f fs IH]; intros pp d tx ty Hr Hl Hin.
  { by apply elem_of_nil in Hin. }
  destruct Hr as [Hn Hr]. simpl in Hin, Hl.
  apply elem_of_cons in Hin as [[= -> ->]|Hin]; [|by eapply IH].
  destruct fs as [|g fs]; simpl in *; [done|]. by destruct Hr as [[Hg _] _].
Qed.

(** The root of the whole tree in the forward pass. *)
Lemma fwd_rel_root (h h' : heap) pp fs t d tx ty :
  fwd_rel h h' pp fs t d tx ty ->
  h' !! root_addr t
  = move_joint (fun q => move_within_dist q
      (fwd_args h h' fs t d tx ty).1.1
      (fwd_args h h' fs t d tx ty).1.2
      (fwd_args h h' fs t d tx ty).2) <$> h !! root_addr t ->
  h' !! root_addr (plug fs t)
  = move_joint (fun q => move_within_dist q d tx ty)
      <$> h !! root_addr (plug fs t).
Proof.
  intros Hr Hl. destruct fs as [|f fs]; [done|]. by destruct Hr as [[Hf _] _].
Qed.

(** [ik_solve] on a tree, with the fuel and the stack bounded by the tree;
    [w1] is the world [ik_reach_back] returns. *)
Lemma ik_solve_tree_passes fs gs l (w : W) fuel tx ty :
  let te := plug gs (Sh l []) in
  let T := plug fs te in
  let rx := x (pos (joints w) (root_addr T)) in
  let ry := y (pos (joints w) (root_addr T)) in
  is_tree (joints w) None T ->
  NoDup (ids T) ->
  Forall (fun f => f_sibs f = []) gs ->
  (2 * height T <= fuel)%nat ->
  (List.length (path_stack fs te) + List.length (ik_stack w) <= IK_STACK_SIZE)%nat ->
  exists w1 w',
    ik_reach_back fuel (Some (root_addr te)) tx ty fzero w
    = Ok ((Some (root_addr T), rx, ry), w1) /\
    ik_solve fuel (Some (root_addr te)) tx ty w = Ok (1%Z, w') /\
    same_links (joints w) (joints w1) /\
    same_links (joints w1) (joints w') /\
    ik_stack w' = ik_stack w /\
    back_rel (joints w) (joints w1) None fs te NULL fzero tx ty /\
    (forall a, a ∉ frames_ids fs -> a <> root_addr te ->
       joints w1 !! a = joints w !! a) /\
    fwd_rel (joints w1) (joints w') None (fs ++ gs) (Sh l []) fzero rx ry /\
    joints w' !! l
    = move_joint (fun q => move_within_dist q
        (fwd_args (joints w1) (joints w') (fs ++ gs) (Sh l []) fzero rx ry).1.1
        (fwd_args (joints w1) (joints w') (fs ++ gs) (Sh l []) fzero rx ry).1.2
        (fwd_args (joints w1) (joints w') (fs ++ gs) (Sh l []) fzero rx ry).2)
      <$> joints w1 !! l /\
    (forall a, a ∉ frames_ids (fs ++ gs) -> a <> l ->
       joints w' !! a = joints w1 !! a).
Proof.
  intros te T rx ry Ht Hnd Hgs Hfuel Hcap.
  pose proof (height_plug (fs ++ gs) (Sh l [])) as Hh.
  rewrite plug_app in Hh. fold te T in Hh. rewrite length_app in Hh.
  simpl height in Hh.
  destruct (ik_solve_passes (height T) fs gs l w fuel tx ty)
    as (w1 & w' & Hback & Hrun & Hl1 & Hl2 & Hst & _ & _ & Hb & Hu1 & Hf & Hn
        & Hu2);
    [done|done|done|apply height_plug_sibs|lia|done|].
  exists w1, w'. repeat split; try done. by destruct Hn.
Qed.

(** [ik_solve_tree_passes] with the store between the passes left
    abstract. *)
Lemma ik_solve_tree fs gs l (w : W) fuel tx ty :
  let te := plug gs (Sh l []) in
  let T := plug fs te in
  let rx := x (pos (joints w) (root_addr T)) in
  let ry := y (pos (joints w) (root_addr T)) in
  is_tree (joints w) None T ->
  NoDup (ids T) ->
  Forall (fun f => f_sibs f = []) gs ->
  (2 * height T <= fuel)%nat ->
  (List.length (path_stack fs te) + List.length (ik_stack w) <= IK_STACK_SIZE)%nat ->
  exists h1 w',
    ik_solve fuel (Some (root_addr te)) tx ty w = Ok (1%Z, w') /\
    same_links (joints w) h1 /\
    same_links h1 (joints w') /\
    ik_stack w' = ik_stack w /\
    back_rel (joints w) h1 None fs te NULL fzero tx ty /\
    (forall a, a ∉ frames_ids fs -> a <> root_addr te ->
       h1 !! a = joints w !! a) /\
    fwd_rel h1 (joints w') None (fs ++ gs) (Sh l []) fzero rx ry /\
    joints w' !! l
    = move_joint (fun q => move_within_dist q
        (fwd_args h1 (joints w') (fs ++ gs) (Sh l []) fzero rx ry).1.1
        (fwd_args h1 (joints w') (fs ++ gs) (Sh l []) fzero rx ry).1.2
        (fwd_args h1 (joints w') (fs ++ gs) (Sh l []) fzero rx ry).2)
      <$> h1 !! l /\
    (forall a, a ∉ frames_ids (fs ++ gs) -> a <> l ->
       joints w' !! a = h1 !! a).
Proof.
  intros te T rx ry Ht Hnd Hgs Hfuel Hcap.
  destruct (ik_solve_tree_passes fs gs l w fuel tx ty)
    as (w1 & w' & _ & Hrest); [done..|].
  by exists (joints w1), w'.
Qed.

End Links.

(** ** Exact arithmetic *)

Lemma xlift2_NaN_r f (a : xreal) : xlift2 f a NaN = NaN.
Proof. by destruct a. Qed.
Lemma xdiv_NaN_r (a : xreal) : xdiv a NaN = NaN.
Proof. by destruct a. Qed.

(** Undefined operands: the operations of [xreal] unfolded, [NaN] pushed
    through them. *)
Ltac xnan :=
  cbn [fadd fsub fmul fdiv fneg fsqrt xreal_num xlift2 xdiv xneg xsqrt];
  repeat first [rewrite xlift2_NaN_r | rewrite xdiv_NaN_r];
  cbn [xlift2 xdiv xneg xsqrt].

Section Exact.
Local Open Scope R_scope.

Local Abbreviation xvec := (ik_vec2 xreal).
Local Abbreviation xjoint := (ik_joint xreal).
Local Abbreviation xheap := (gmap addr (ik_joint xreal)).
Local Abbreviation xworld := (world xreal).

(** The point (a, b). *)
Definition vfin (a b : R) : xvec := Vec2 (Fin a) (Fin b).

Definition vfinite (v : xvec) : Prop := exists a b, v = vfin a b.

(** The Euclidean distance of two points, computed as the code computes the
    length of a vector. *)
Definition vdist (p q : xvec) : xreal :=
  vec_length (fsub (x p) (x q)) (fsub (y p) (y q)).

(** The length of the real vector (a, b). *)
Definition norm2 (a b : R) : R := sqrt (a * a + b * b).

Lemma vec_length_fin a b : vec_length (Fin a) (Fin b) = Fin (norm2 a b).
Proof.
  unfold vec_length, norm2. simpl. destruct (Rlt_dec (a * a + b * b) 0) as [Hlt|];
    [|done]. exfalso. nra.
Qed.

Lemma vdist_fin a b c d : vdist (vfin a b) (vfin c d) = Fin (norm2 (a - c) (b - d)).
Proof. unfold vdist. simpl. apply vec_length_fin. Qed.

Lemma norm2_nonneg a b : 0 <= norm2 a b.
Proof. apply sqrt_pos. Qed.

Lemma norm2_sqr a b : norm2 a b * norm2 a b = a * a + b * b.
Proof. unfold norm2. apply sqrt_sqrt. nra. Qed.

Lemma norm2_zero a b : norm2 a b = 0 <-> a = 0 /\ b = 0.
Proof.
  split.
  - intros Hn. pose proof (norm2_sqr a b) as Hs. rewrite Hn in Hs. nra.
  - intros [-> ->]. unfold norm2. replace (0 * 0 + 0 * 0) with 0 by lra.
    apply sqrt_0.
Qed.

Lemma norm2_pos a b : a <> 0 \/ b <> 0 -> 0 < norm2 a b.
Proof.
  intros Hab. destruct (norm2_nonneg a b) as [Hlt|Heq]; [done|].
  symmetry in Heq. apply norm2_zero in Heq. tauto.
Qed.

Lemma norm2_eq a b c : 0 <= c -> a * a + b * b = c * c -> norm2 a b = c.
Proof. intros Hc Heq. unfold norm2. rewrite Heq. by apply sqrt_square. Qed.

Lemma norm2_scale k a b : norm2 (k * a) (k * b) = Rabs k * norm2 a b.
Proof.
  apply norm2_eq.
  - apply Rmult_le_pos; [apply Rabs_pos|apply norm2_nonneg].
  - replace (Rabs k * norm2 a b * (Rabs k * norm2 a b))
      with ((Rabs k * Rabs k) * (norm2 a b * norm2 a b)) by ring.
    rewrite norm2_sqr. replace (Rabs k * Rabs k) with (k * k); [ring|].
    rewrite <- Rabs_mult. symmetry. apply Rabs_pos_eq. nra.
Qed.

(** [ik_move_within_dist] on a joint that is on the target. *)
Lemma move_fin_on d tx ty :
  move_within_dist (vfin tx ty) (Fin d) (Fin tx) (Fin ty) = vfin tx ty.
Proof.
  unfold move_within_dist. simpl x. simpl y.
  change (fsub (Fin tx) (Fin tx)) with (Fin (tx - tx)).
  change (fsub (Fin ty) (Fin ty)) with (Fin (ty - ty)).
  rewrite vec_length_fin. simpl.
  destruct (Req_EM_T (norm2 (tx - tx) (ty - ty)) 0) as [|Hne]; [done|].
  exfalso. apply Hne. apply norm2_zero. lra.
Qed.

(** [ik_move_within_dist] on a joint that is not on the target. *)
Lemma move_fin_off px py d tx ty :
  px <> tx \/ py <> ty ->
  move_within_dist (vfin px py) (Fin d) (Fin tx) (Fin ty)
  = vfin (tx + d * (px - tx) / norm2 (px - tx) (py - ty))
         (ty + d * (py - ty) / norm2 (px - tx) (py - ty)).
Proof.
  intros Hne. unfold move_within_dist. simpl x. simpl y.
  change (fsub (Fin px) (Fin tx)) with (Fin (px - tx)).
  change (fsub (Fin py) (Fin ty)) with (Fin (py - ty)).
  rewrite vec_length_fin.
  assert (Hn : norm2 (px - tx) (py - ty) <> 0).
  { intros Hz. apply norm2_zero in Hz. lra. }
  simpl. destruct (Req_EM_T (norm2 (px - tx) (py - ty)) 0); [done|].
  destruct (Req_EM_T (norm2 (px - tx) (py - ty)) 0); done.
Qed.

Lemma move_fin_finite px py d tx ty :
  vfinite (move_within_dist (vfin px py) (Fin d) (Fin tx) (Fin ty)).
Proof.
  destruct (Req_EM_T px tx) as [->|Hx]; [destruct (Req_EM_T py ty) as [->|Hy]|].
  - rewrite move_fin_on. by eexists _, _.
  - rewrite move_fin_off by (by right). by eexists _, _.
  - rewrite move_fin_off by (by left). by eexists _, _.
Qed.



Lemma translate_back (dx dy : R) (j : xjoint) :
  move_joint (fun p => Vec2 (fadd (x p) (fneg (Fin dx))) (fadd (y p) (fneg (Fin dy))))
    (move_joint (fun p => Vec2 (fadd (x p) (Fin dx)) (fadd (y p) (Fin dy))) j)
  = j.
Proof.
  destruct j as [[px py] l pa cs]. unfold move_joint, set_position. simpl.
  f_equal. f_equal.
  - destruct px as [a|]; [|done]. simpl. f_equal. lra.
  - destruct py as [b|]; [|done]. simpl. f_equal. lra.
Qed.

(** C10.  Translating a tree by (dx, dy) and then by (-dx, -dy) gives back
    the world it started from: every joint is where it was. *)
Theorem ik_translate_relative_roundtrip (w : xworld) t par fuel dx dy :
  is_tree (joints w) par t ->
  NoDup (ids t) ->
  (height t <= fuel)%nat ->
  exists w1,
    ik_translate_relative fuel (Some (root_addr t)) (Fin dx) (Fin dy) w
    = Ok (tt, w1) /\
    ik_translate_relative fuel (Some (root_addr t))
      (fneg (Fin dx)) (fneg (Fin dy)) w1
    = Ok (tt, w).
Proof.
  intros Ht Hnd Hh. eexists. split.
  { rewrite ik_translate_relative_map. by eapply map_branch_tree. }
  rewrite ik_translate_relative_map.
  erewrite map_branch_tree; [| |done].
  2:{ rewrite joints_set_joints. eapply is_tree_same_links; [|exact Ht].
      apply same_links_map_pos. }
  rewrite joints_set_joints, set_joints_set_joints.
  match goal with |- Ok (tt, set_joints ?h w) = _ =>
    assert (Hback : h = joints w) end.
  { apply map_eq. intros a.
    destruct (decide (a ∈ ids t)) as [Hin|Hin].
    - rewrite !map_pos_lookup_in by done.
      destruct (joints w !! a) as [j|]; [|done].
      exact (f_equal Some (translate_back dx dy j)).
    - by rewrite !map_pos_lookup_notin. }
  by rewrite Hback, set_joints_id.
Qed.

(** *** Alignment is a rigid motion, or undefined *)

Lemma vfinite_fin a b : vfinite (vfin a b).
Proof. by exists a, b. Qed.

Lemma not_vfinite_x (b : xreal) : ~ vfinite (Vec2 NaN b).
Proof. by intros (? & ? & [=]). Qed.

Lemma not_vfinite_y (a : xreal) : ~ vfinite (Vec2 a NaN).
Proof. by intros (? & ? & [=]). Qed.

Lemma vfinite_cases (v : xvec) :
  vfinite v \/ x v = NaN \/ y v = NaN.
Proof.
  destruct v as [[a|] [b|]]; simpl; [left; apply vfinite_fin|tauto..].
Qed.

Lemma nan_not_vfinite (v : xvec) : x v = NaN \/ y v = NaN -> ~ vfinite v.
Proof. intros [Hx|Hy] (a & b & ->); simpl in *; done. Qed.

Lemma norm2_congr a b c d : a * a + b * b = c * c + d * d -> norm2 a b = norm2 c d.
Proof. intros Heq. unfold norm2. by rewrite Heq. Qed.

Lemma cauchy_schwarz a b c d :
  (a * c + b * d) * (a * c + b * d) <= (a * a + b * b) * (c * c + d * d).
Proof.
  replace ((a * a + b * b) * (c * c + d * d))
    with ((a * c + b * d) * (a * c + b * d) + (a * d - b * c) * (a * d - b * c))
    by ring.
  pose proof (Rle_0_sqr (a * d - b * c)) as Hs. unfold Rsqr in Hs. lra.
Qed.

Lemma sq_div_le_1 n d : d <> 0 -> n * n <= d * d -> n / d * (n / d) <= 1.
Proof.
  intros Hd Hle. assert (Hdd : 0 < d * d) by nra.
  replace (n / d * (n / d)) with (n * n * / (d * d)) by (field; done).
  apply (Rmult_le_reg_r (d * d)); [done|].
  rewrite Rmult_assoc, Rinv_l by lra. lra.
Qed.

(** The rotation [ik_align_branch] computes from two vectors.  When one of
    them is the null vector the cosine is 0/0: undefined. *)
Lemma align_matrix_fin fx fy gx gy :
  (norm2 fx fy * norm2 gx gy = 0 /\
   mC (align_matrix (vfin fx fy) (vfin gx gy)) = NaN) \/
  (norm2 fx fy * norm2 gx gy <> 0 /\
   exists c s p,
     align_matrix (vfin fx fy) (vfin gx gy) = Matrix (Fin c) (Fin s) (Fin p) /\
     c * c + s * s = 1 /\ p * p = 1).
Proof.
  unfold align_matrix. simpl x. simpl y. rewrite !vec_length_fin.
  set (nf := norm2 fx fy). set (ng := norm2 gx gy). simpl.
  destruct (Req_EM_T (nf * ng) 0) as [Hz|Hnz]; [left; by split|].
  right. split; [done|].
  set (c := (fx * gx + fy * gy) / (nf * ng)).
  assert (Hc : c * c <= 1).
  { pose proof (cauchy_schwarz fx fy gx gy) as Hcs.
    pose proof (norm2_sqr fx fy) as Hf. pose proof (norm2_sqr gx gy) as Hg.
    fold nf in Hf. fold ng in Hg.
    unfold c. apply sq_div_le_1; [done|].
    replace (nf * ng * (nf * ng)) with ((nf * nf) * (ng * ng)) by ring.
    by rewrite Hf, Hg. }
  simpl.
  destruct (Rgt_dec (fx * gy - fy * gx) 0);
    destruct (Rgt_dec (1 - c * c) 0) as [Hgt|Hle]; simpl;
    (destruct (Rlt_dec _ 0); [lra|]);
    eexists _, _, _; (split; [reflexivity|]); (split; [|lra]).
  - rewrite sqrt_sqrt by lra. lra.
  - rewrite sqrt_0. lra.
  - rewrite sqrt_sqrt by lra. lra.
  - rewrite sqrt_0. lra.
Qed.

(** A map on positions that turns about, taking [org] to [new]. *)
Definition rigid_map (g : xvec -> xvec) (org new : xvec) : Prop :=
  exists ox oy nx ny c s,
    org = vfin ox oy /\ new = vfin nx ny /\ c * c + s * s = 1 /\
    forall qx qy,
      g (vfin qx qy)
      = vfin (c * (qx - ox) - s * (qy - oy) + nx)
             (s * (qx - ox) + c * (qy - oy) + ny).

(** A map on positions without a value. *)
Definition undefined_map (g : xvec -> xvec) : Prop :=
  forall q, ~ vfinite (g q).

Lemma align_position_mC_NaN pivot mat off q :
  mC mat = NaN -> ~ vfinite (align_position pivot mat off q).
Proof.
  intros HC. unfold align_position. rewrite HC. xnan.
  apply not_vfinite_x.
Qed.

Lemma align_position_NaN pivot mat off q :
  ~ vfinite q -> ~ vfinite (align_position pivot mat off q).
Proof.
  intros Hq. destruct (vfinite_cases q) as [?|[Hx|Hy]]; [done|..];
    unfold align_position.
  - rewrite Hx. xnan. apply not_vfinite_x.
  - rewrite Hy. xnan. apply not_vfinite_x.
Qed.

Lemma align_matrix_NaN (from to : xvec) :
  ~ vfinite from \/ ~ vfinite to -> mC (align_matrix from to) = NaN.
Proof.
  intros Hft. unfold align_matrix. simpl mC.
  destruct Hft as [Hf|Ht].
  - destruct (vfinite_cases from) as [?|[Hx|Hy]]; [done|..].
    + rewrite Hx. by xnan.
    + rewrite Hy. by xnan.
  - destruct (vfinite_cases to) as [?|[Hx|Hy]]; [done|..].
    + rewrite Hx. by xnan.
    + rewrite Hy. by xnan.
Qed.

Lemma not_vfinite_sub (a b : xvec) :
  ~ vfinite a \/ ~ vfinite b ->
  ~ vfinite (Vec2 (fsub (x a) (x b)) (fsub (y a) (y b))).
Proof.
  intros [Ha|Hb].
  - destruct (vfinite_cases a) as [?|[Hx|Hy]]; [done|..].
    + rewrite Hx. apply not_vfinite_x.
    + rewrite Hy. apply not_vfinite_y.
  - destruct (vfinite_cases b) as [?|[Hx|Hy]]; [done|..].
    + rewrite Hx. xnan. apply not_vfinite_x.
    + rewrite Hy. xnan. apply not_vfinite_y.
Qed.

(** The map of an alignment takes what is undefined to what is undefined,
    and is itself undefined or rigid. *)
Lemma align_map_cases (org new : xvec) (pp : option xvec) :
  (forall q, ~ vfinite q -> ~ vfinite (align_map org new pp q)) /\
  (undefined_map (align_map org new pp) \/
   rigid_map (align_map org new pp) org new).
Proof.
  destruct pp as [p|]; simpl align_map.
  - split; [intros q; apply align_position_NaN|].
    set (from := Vec2 (fsub (x org) (x p)) (fsub (y org) (y p))).
    set (to := Vec2 (fsub (x new) (x p)) (fsub (y new) (y p))).
    destruct (vfinite_cases org) as [(ox & oy & ->)|Ho];
      [destruct (vfinite_cases new) as [(nx & ny & ->)|Hn];
       [destruct (vfinite_cases p) as [(px & py & ->)|Hp]|]|].
    + change from with (vfin (ox - px) (oy - py)).
      change to with (vfin (nx - px) (ny - py)).
      destruct (align_matrix_fin (ox - px) (oy - py) (nx - px) (ny - py))
        as [[_ HC]|(_ & c & s & sg & Hm & Hcs & Hsg)].
      * left. intros q. by apply align_position_mC_NaN.
      * right. exists ox, oy, nx, ny, c, (sg * s). repeat split.
        { replace (sg * s * (sg * s)) with ((sg * sg) * (s * s)) by ring.
          rewrite Hsg. lra. }
        intros qx qy.
        change (align_map (vfin ox oy) (vfin nx ny) (Some (vfin px py))
                  (vfin qx qy))
          with (align_position (vfin nx ny)
                  (align_matrix (vfin (ox - px) (oy - py))
                     (vfin (nx - px) (ny - py)))
                  (vfin (nx - px - (ox - px)) (ny - py - (oy - py)))
                  (vfin qx qy)).
        rewrite Hm. unfold align_position, vfin. simpl.
        f_equal; f_equal; ring.
    + left. intros q. apply align_position_mC_NaN, align_matrix_NaN.
      left. apply not_vfinite_sub. right. by apply nan_not_vfinite.
    + left. intros q. apply align_position_mC_NaN, align_matrix_NaN.
      right. apply not_vfinite_sub. left. by apply nan_not_vfinite.
    + left. intros q. apply align_position_mC_NaN, align_matrix_NaN.
      left. apply not_vfinite_sub. left. by apply nan_not_vfinite.
  - split.
    { intros q Hq. destruct (vfinite_cases q) as [?|[Hx|Hy]]; [done|..].
      - rewrite Hx. apply not_vfinite_x.
      - rewrite Hy. apply not_vfinite_y. }
    destruct (vfinite_cases org) as [(ox & oy & ->)|Ho];
      [destruct (vfinite_cases new) as [(nx & ny & ->)|Hn]|].
    + right. exists ox, oy, nx, ny, 1, 0. repeat split; [lra|].
      intros qx qy. unfold vfin. simpl. f_equal; f_equal; ring.
    + left. intros q. unfold align_map. destruct Hn as [Hx|Hy].
      * rewrite Hx. xnan. apply not_vfinite_x.
      * rewrite Hy. xnan. apply not_vfinite_y.
    + left. intros q. unfold align_map. destruct Ho as [Hx|Hy].
      * rewrite Hx. xnan. apply not_vfinite_x.
      * rewrite Hy. xnan. apply not_vfinite_y.
Qed.

Lemma move_finite_inv (p : xvec) d tx ty :
  vfinite (move_within_dist p d tx ty) -> vfinite p.
Proof.
  intros Hm. destruct (vfinite_cases p) as [?|Hp]; [done|]. exfalso.
  revert Hm. unfold move_within_dist, vec_length.
  destruct Hp as [Hx|Hy].
  - rewrite Hx. xnan. apply not_vfinite_x.
  - rewrite Hy. xnan. apply not_vfinite_x.
Qed.

Lemma rigid_map_dist g org new :
  rigid_map g org new ->
  forall ax ay bx by_,
    vdist (g (vfin ax ay)) (g (vfin bx by_)) = vdist (vfin ax ay) (vfin bx by_) /\
    vdist new (g (vfin ax ay)) = vdist org (vfin ax ay) /\
    vdist (g (vfin ax ay)) new = vdist (vfin ax ay) org.
Proof.
  intros (ox & oy & nx & ny & c & s & -> & -> & Hcs & Hg) ax ay bx by_.
  rewrite !Hg, !vdist_fin. repeat split; f_equal; apply norm2_congr.
  - transitivity ((c * c + s * s) * ((ax - bx) * (ax - bx) + (ay - by_) * (ay - by_)));
      [ring|rewrite Hcs; ring].
  - transitivity ((c * c + s * s) * ((ox - ax) * (ox - ax) + (oy - ay) * (oy - ay)));
      [ring|rewrite Hcs; ring].
  - transitivity ((c * c + s * s) * ((ax - ox) * (ax - ox) + (ay - oy) * (ay - oy)));
      [ring|rewrite Hcs; ring].
Qed.

Lemma rigid_map_finite g org new q :
  rigid_map g org new -> vfinite q -> vfinite (g q).
Proof.
  intros (ox & oy & nx & ny & c & s & _ & _ & _ & Hg) (qx & qy & ->).
  rewrite Hg. apply vfinite_fin.
Qed.

Lemma rigid_not_undefined g org new :
  rigid_map g org new -> undefined_map g -> False.
Proof.
  intros Hr Hu. apply (Hu (vfin 0 0)). eapply rigid_map_finite; [done|].
  apply vfinite_fin.
Qed.

Lemma pos_lookup (h : xheap) a j : h !! a = Some j -> pos h a = position j.
Proof. intros Hj. unfold pos. by rewrite Hj. Qed.

Lemma node_rel_pos_self (h h' : xheap) pp e sibs d tx ty :
  node_rel h h' pp e sibs d tx ty -> is_Some (h !! e) ->
  pos h' e = move_within_dist (pos h e) d tx ty.
Proof.
  intros [He _] [j Hj]. unfold pos. rewrite He, Hj. done.
Qed.

Lemma node_rel_pos_sib (h h' : xheap) pp e sibs d tx ty q :
  node_rel h h' pp e sibs d tx ty -> q ∈ ids_list sibs -> is_Some (h !! q) ->
  pos h' q = align_map (pos h e) (pos h' e) pp (pos h q).
Proof.
  intros [_ Hs] Hq [j Hj]. unfold pos at 1 4. rewrite (Hs q Hq), Hj. done.
Qed.

Lemma is_tree_alloc {F} (h : gmap addr (ik_joint F)) par t a :
  is_tree h par t -> a ∈ ids t -> is_Some (h !! a).
Proof.
  revert par. induction t as [e kids IH] using shape_ind'. intros par Ht Hin.
  inversion Ht as [? ? ? j Hj Hp Hc Hk]; subst. simpl in Hin.
  apply elem_of_cons in Hin as [->|Hin]; [eauto|].
  change (concat (List.map ids kids)) with (ids_list kids) in Hin.
  apply elem_of_ids_list in Hin as (k & Hk' & Ha).
  rewrite Forall_forall in IH, Hk. by eapply IH; [|apply Hk|].
Qed.

Lemma same_links_alloc {F} (h h' : gmap addr (ik_joint F)) a :
  same_links h h' -> is_Some (h !! a) -> is_Some (h' !! a).
Proof.
  intros Hl [j Hj]. destruct (same_links_lookup _ _ _ _ Hl Hj) as (j' & ? & _).
  eauto.
Qed.

Lemma frame_ids_in_plug fs t f a :
  f ∈ fs -> a ∈ frame_ids f -> a ∈ ids (plug fs t).
Proof.
  intros Hf Ha. rewrite ids_plug_perm. apply elem_of_app. left.
  induction fs as [|g fs IH]; [by apply elem_of_nil in Hf|].
  rewrite frames_ids_cons. apply elem_of_app.
  apply elem_of_cons in Hf as [->|Hf]; [by left|right; auto].
Qed.

(** *** Defined positions along the path *)

(** The joints at [A] are in the store, at points, with real lengths. *)
Definition path_fin (h : xheap) (A : list addr) : Prop :=
  forall a, a ∈ A ->
    exists j px py l,
      h !! a = Some j /\ position j = vfin px py /\ seg_length j = Fin l.

Lemma path_fin_pos (h : xheap) A a :
  path_fin h A -> a ∈ A -> exists px py, pos h a = vfin px py.
Proof.
  intros HA Ha. destruct (HA a Ha) as (j & px & py & l & Hj & Hp & _).
  exists px, py. by rewrite (pos_lookup _ _ _ Hj).
Qed.

Lemma path_fin_len (h : xheap) A a :
  path_fin h A -> a ∈ A -> exists l, len h a = Fin l.
Proof.
  intros HA Ha. destruct (HA a Ha) as (j & px & py & l & Hj & _ & Hl).
  exists l. unfold len. by rewrite Hj.
Qed.

Lemma path_fin_alloc (h : xheap) A a : path_fin h A -> a ∈ A -> is_Some (h !! a).
Proof. intros HA Ha. destruct (HA a Ha) as (j & ? & ? & ? & Hj & _). eauto. Qed.

Lemma root_in_path fs t : root_addr (plug fs t) ∈ path_addrs fs t.
Proof. destruct fs as [|f fs]; left. Qed.

Lemma moved_pos (h h' : xheap) a d tx ty :
  h' !! a = move_joint (fun q => move_within_dist q d tx ty) <$> h !! a ->
  is_Some (h !! a) ->
  pos h' a = move_within_dist (pos h a) d tx ty.
Proof. intros Heq [j Hj]. unfold pos. rewrite Heq, Hj. done. Qed.

Lemma back_rel_finite (h h1 : xheap) par fs t pc d tx ty :
  back_rel h h1 par fs t pc (Fin d) (Fin tx) (Fin ty) ->
  path_fin h (path_addrs fs t) ->
  forall a, a ∈ path_addrs fs t -> vfinite (pos h1 a).
Proof.
  revert par. induction fs as [|f fs IH]; intros par Hb Hfin a Ha.
  - unfold path_addrs in Ha. simpl in Ha.
    apply list_elem_of_singleton in Ha as ->. simpl in Hb.
    destruct (path_fin_pos _ _ (root_addr t) Hfin) as (px & py & Hp); [left|].
    rewrite (node_rel_pos_self _ _ _ _ _ _ _ _ Hb), Hp.
    + apply move_fin_finite.
    + apply (path_fin_alloc _ _ _ Hfin). left.
  - destruct Hb as [Hn Hb]. rewrite path_addrs_cons in Hfin, Ha.
    assert (Hfin' : path_fin h (path_addrs fs t)).
    { intros b Hb'. apply Hfin. by right. }
    specialize (IH _ Hb Hfin').
    apply elem_of_cons in Ha as [->|Ha]; [|by apply IH].
    set (c := root_addr (plug fs t)) in *.
    assert (Hc : c ∈ path_addrs fs t) by apply root_in_path.
    destruct (IH c Hc) as (cx & cy & Hcp).
    destruct (path_fin_len _ _ c Hfin') as (l & Hl); [done|].
    destruct (path_fin_pos _ _ (f_addr f) Hfin) as (px & py & Hp); [left|].
    rewrite (node_rel_pos_self _ _ _ _ _ _ _ _ Hn), Hp, Hl, Hcp.
    + apply move_fin_finite.
    + apply (path_fin_alloc _ _ _ Hfin). left.
Qed.

Lemma fwd_rel_finite (h1 h' : xheap) pp fs t d tx ty :
  fwd_rel h1 h' pp fs t (Fin d) (Fin tx) (Fin ty) ->
  h' !! root_addr t
  = move_joint (fun q => move_within_dist q
      (fwd_args h1 h' fs t (Fin d) (Fin tx) (Fin ty)).1.1
      (fwd_args h1 h' fs t (Fin d) (Fin tx) (Fin ty)).1.2
      (fwd_args h1 h' fs t (Fin d) (Fin tx) (Fin ty)).2) <$> h1 !! root_addr t ->
  path_fin h1 (path_addrs fs t) ->
  forall a, a ∈ path_addrs fs t -> vfinite (pos h' a).
Proof.
  revert pp d tx ty. induction fs as [|f fs IH];
    intros pp d tx ty Hr Hl Hfin a Ha.
  - unfold path_addrs in Ha. simpl in Ha.
    apply list_elem_of_singleton in Ha as ->. simpl in Hl.
    destruct (path_fin_pos _ _ (root_addr t) Hfin) as (px & py & Hp); [left|].
    rewrite (moved_pos _ _ _ _ _ _ Hl), Hp.
    + apply move_fin_finite.
    + apply (path_fin_alloc _ _ _ Hfin). left.
  - destruct Hr as [Hn Hr]. rewrite path_addrs_cons in Hfin, Ha.
    assert (Hfin' : path_fin h1 (path_addrs fs t)).
    { intros b Hb'. apply Hfin. by right. }
    destruct (path_fin_pos _ _ (f_addr f) Hfin) as (px & py & Hp); [left|].
    assert (Hpf : vfinite (pos h' (f_addr f))).
    { rewrite (node_rel_pos_self _ _ _ _ _ _ _ _ Hn), Hp.
      - apply move_fin_finite.
      - apply (path_fin_alloc _ _ _ Hfin). left. }
    apply elem_of_cons in Ha as [->|Ha]; [done|].
    destruct Hpf as (nx & ny & Hpf).
    destruct (path_fin_len _ _ (root_addr (plug fs t)) Hfin') as (l & Hlen);
      [apply root_in_path|].
    simpl in Hl. rewrite Hpf, Hlen in Hr, Hl. simpl in Hr, Hl.
    by eapply IH.
Qed.

Lemma path_addrs_app fs gs t :
  path_addrs (fs ++ gs) t = List.map f_addr fs ++ path_addrs gs t.
Proof. unfold path_addrs. by rewrite List.map_app, <- (assoc_L (++)). Qed.

Lemma map_f_addr_in_path fs t a : a ∈ List.map f_addr fs -> a ∈ path_addrs fs t.
Proof. intros Ha. unfold path_addrs. apply elem_of_app. by left. Qed.

Lemma map_f_addr_in_frames fs a : a ∈ List.map f_addr fs -> a ∈ frames_ids fs.
Proof.
  induction fs as [|f fs IH]; intros Ha; [done|]. simpl in Ha.
  rewrite frames_ids_cons. apply elem_of_app.
  apply elem_of_cons in Ha as [->|Ha]; [left; left|right; auto].
Qed.

Lemma move_to_zero px py tx ty :
  move_within_dist (vfin px py) (Fin 0) (Fin tx) (Fin ty) = vfin tx ty.
Proof.
  destruct (Req_EM_T px tx) as [->|Hx]; [destruct (Req_EM_T py ty) as [->|Hy]|].
  - apply move_fin_on.
  - rewrite move_fin_off by (by right). unfold vfin. f_equal; f_equal;
      unfold Rdiv; ring.
  - rewrite move_fin_off by (by left). unfold vfin. f_equal; f_equal;
      unfold Rdiv; ring.
Qed.

(** [ik_solve] in exact arithmetic, on a tree whose path joints are at
    points: the joints of the path stay at points, the root comes back to
    where it was, and every other joint of the path is moved towards the
    new position of its parent, from where the backward pass left it. *)
Lemma ik_solve_exact_passes fs gs l (w : xworld) fuel tx ty :
  let te := plug gs (Sh l []) in
  let T := plug fs te in
  is_tree (joints w) None T ->
  NoDup (ids T) ->
  Forall (fun f => f_sibs f = []) gs ->
  (2 * height T <= fuel)%nat ->
  (List.length (path_stack fs te) + List.length (ik_stack w) <= IK_STACK_SIZE)%nat ->
  path_fin (joints w) (path_addrs (fs ++ gs) (Sh l [])) ->
  exists w1 w',
    ik_reach_back fuel (Some (root_addr te)) (Fin tx) (Fin ty) fzero w
    = Ok ((Some (root_addr T), x (pos (joints w) (root_addr T)),
           y (pos (joints w) (root_addr T))), w1) /\
    ik_solve fuel (Some (root_addr te)) (Fin tx) (Fin ty) w = Ok (1%Z, w') /\
    same_links (joints w) (joints w1) /\
    same_links (joints w1) (joints w') /\
    back_rel (joints w) (joints w1) None fs te NULL (Fin 0) (Fin tx) (Fin ty) /\
    fwd_rel (joints w1) (joints w') None (fs ++ gs) (Sh l []) (Fin 0)
      (x (pos (joints w) (root_addr T))) (y (pos (joints w) (root_addr T))) /\
    (forall a, a ∉ frames_ids fs -> a <> root_addr te ->
       joints w1 !! a = joints w !! a) /\
    (forall a, a ∉ frames_ids (fs ++ gs) -> a <> l ->
       joints w' !! a = joints w1 !! a) /\
    path_fin (joints w1) (path_addrs (fs ++ gs) (Sh l [])) /\
    (forall a, a ∈ path_addrs (fs ++ gs) (Sh l []) ->
       vfinite (pos (joints w') a)) /\
    pos (joints w') (root_addr T) = pos (joints w) (root_addr T) /\
    (forall p c, (p, c) ∈ path_links (fs ++ gs) (Sh l []) ->
       pos (joints w') c
       = move_within_dist (pos (joints w1) c) (len (joints w) c)
           (x (pos (joints w') p)) (y (pos (joints w') p))).
Proof.
  intros te T Ht Hnd Hgs Hfuel Hcap Hfin.
  destruct (ik_solve_tree_passes fs gs l w fuel (Fin tx) (Fin ty))
    as (w1 & w' & Hback & Hrun & Hl1 & Hl2 & _ & Hb & Hu1 & Hf & Hleaf & Hu2);
    [done..|].
  set (h1 := joints w1) in *.
  fold te T in Hb, Hf, Hleaf, Hu1, Hback.
  assert (HT : T = plug (fs ++ gs) (Sh l [])) by (unfold T, te; by rewrite plug_app).
  destruct (NoDup_plug _ _ Hnd) as (_ & _ & Hdis). fold te in Hdis.
  assert (Hroot : root_addr T ∈ path_addrs (fs ++ gs) (Sh l [])).
  { rewrite HT. apply root_in_path. }
  destruct (path_fin_pos _ _ _ Hfin Hroot) as (rx & ry & Hrp).
  rewrite Hrp in Hf, Hleaf, Hback |- *. simpl x in *. simpl y in *.
  change (@fzero xreal xreal_num) with (Fin 0) in *.
  (* the path after the backward pass *)
  assert (Hfin_te : path_fin (joints w) (path_addrs fs te)).
  { intros a Ha. apply Hfin. rewrite path_addrs_app.
    unfold path_addrs in Ha. apply elem_of_app in Ha as [Ha|Ha];
      apply elem_of_app; [by left|right].
    apply list_elem_of_singleton in Ha as ->. apply root_in_path. }
  pose proof (back_rel_finite _ _ _ _ _ _ _ _ _ Hb Hfin_te) as Hfin1.
  assert (Hpf1 : path_fin h1 (path_addrs (fs ++ gs) (Sh l []))).
  { intros a Ha. destruct (Hfin a Ha) as (j & px & py & ln & Hj & Hp & Hln).
    destruct (same_links_lookup _ _ _ _ Hl1 Hj) as (j1 & Hj1 & Hlk).
    unfold links in Hlk. simplify_eq.
    assert (Hcase : a ∈ path_addrs fs te \/
                    ((a ∉ frames_ids fs) /\ a <> root_addr te)).
    { rewrite path_addrs_app in Ha. apply elem_of_app in Ha as [Ha|Ha].
      - left. by apply map_f_addr_in_path.
      - destruct (decide (a = root_addr te)) as [->|Hne].
        + left. unfold path_addrs. apply elem_of_app. right. left.
        + right. split; [|done]. intros Hin. apply (Hdis a Hin).
          by apply path_addrs_in_plug. }
    destruct Hcase as [Hin|[Hnf Hne]].
    - destruct (Hfin1 a Hin) as (qx & qy & Hq).
      rewrite (pos_lookup _ _ _ Hj1) in Hq.
      exists j1, qx, qy, ln. repeat split; [done|done|congruence].
    - rewrite (Hu1 a Hnf Hne) in Hj1. simplify_eq.
      exists j, px, py, ln. rewrite (Hu1 a Hnf Hne). done. }
  assert (Hfin2 : forall a, a ∈ path_addrs (fs ++ gs) (Sh l []) ->
                    vfinite (pos (joints w') a)).
  { by eapply fwd_rel_finite. }
  exists w1, w'. fold h1. split; [exact Hback|].
  repeat split; try done.
  - (* the root *)
    rewrite HT. rewrite HT in Hroot.
    destruct (path_fin_pos _ _ _ Hpf1 Hroot) as (ax & ay & Ha).
    rewrite (moved_pos _ _ _ _ _ _
               (fwd_rel_root _ _ _ _ _ _ _ _ Hf Hleaf)), Ha.
    + by rewrite move_to_zero.
    + by eapply path_fin_alloc.
  - (* the links *)
    intros p c Hpc.
    pose proof (fwd_rel_links _ _ _ _ _ _ _ _ _ _ Hf Hleaf Hpc) as Hc.
    destruct (path_links_child _ _ _ _ Hpc) as [Hcin _].
    rewrite (moved_pos _ _ _ _ _ _ Hc).
    + f_equal. unfold len.
      destruct (path_fin_alloc _ _ _ Hfin Hcin) as [j Hj].
      destruct (same_links_lookup _ _ _ _ Hl1 Hj) as (j1 & Hj1 & Hlk).
      unfold links in Hlk. rewrite Hj, Hj1. simpl. congruence.
    + by eapply path_fin_alloc.
Qed.

(** [ik_solve_exact_passes] with the store between the passes left
    abstract. *)
Lemma ik_solve_exact fs gs l (w : xworld) fuel tx ty :
  let te := plug gs (Sh l []) in
  let T := plug fs te in
  is_tree (joints w) None T ->
  NoDup (ids T) ->
  Forall (fun f => f_sibs f = []) gs ->
  (2 * height T <= fuel)%nat ->
  (List.length (path_stack fs te) + List.length (ik_stack w) <= IK_STACK_SIZE)%nat ->
  path_fin (joints w) (path_addrs (fs ++ gs) (Sh l [])) ->
  exists h1 w',
    ik_solve fuel (Some (root_addr te)) (Fin tx) (Fin ty) w = Ok (1%Z, w') /\
    same_links (joints w) h1 /\
    same_links h1 (joints w') /\
    back_rel (joints w) h1 None fs te NULL (Fin 0) (Fin tx) (Fin ty) /\
    fwd_rel h1 (joints w') None (fs ++ gs) (Sh l []) (Fin 0)
      (x (pos (joints w) (root_addr T))) (y (pos (joints w) (root_addr T))) /\
    (forall a, a ∉ frames_ids fs -> a <> root_addr te ->
       h1 !! a = joints w !! a) /\
    (forall a, a ∉ frames_ids (fs ++ gs) -> a <> l ->
       joints w' !! a = h1 !! a) /\
    path_fin h1 (path_addrs (fs ++ gs) (Sh l [])) /\
    (forall a, a ∈ path_addrs (fs ++ gs) (Sh l []) ->
       vfinite (pos (joints w') a)) /\
    pos (joints w') (root_addr T) = pos (joints w) (root_addr T) /\
    (forall p c, (p, c) ∈ path_links (fs ++ gs) (Sh l []) ->
       pos (joints w') c
       = move_within_dist (pos h1 c) (len (joints w) c)
           (x (pos (joints w') p)) (y (pos (joints w') p))).
Proof.
  intros te T Ht Hnd Hgs Hfuel Hcap Hfin.
  destruct (ik_solve_exact_passes fs gs l w fuel tx ty)
    as (w1 & w' & _ & Hrest); [done..|].
  by exists (joints w1), w'.
Qed.

(** *** The branches off the path *)

Lemma vfin_ne a b c d : vfin a b <> vfin c d -> a - c <> 0 \/ b - d <> 0.
Proof.
  intros Hne. destruct (Req_EM_T a c) as [->|Ha]; [|left; lra].
  destruct (Req_EM_T b d) as [->|Hb]; [done|right; lra].
Qed.

(** The alignment for a joint that moved from [org] to [new], both points,
    is a rigid motion when the joint has no parent (a translation), and when
    it was not on its parent and is not on it now (a translation and a
    rotation about the joint). *)
Lemma align_map_rigid (org new : xvec) (pp : option xvec) :
  vfinite org -> vfinite new ->
  match pp with
  | Some p => vfinite p /\ org <> p /\ new <> p
  | None => True
  end ->
  rigid_map (align_map org new pp) org new.
Proof.
  intros (ox & oy & ->) (nx & ny & ->). destruct pp as [p|].
  - intros ((px & py & ->) & Ho & Hn). simpl align_map.
    set (from := Vec2 (fsub (x (vfin ox oy)) (x (vfin px py)))
                      (fsub (y (vfin ox oy)) (y (vfin px py)))).
    set (to := Vec2 (fsub (x (vfin nx ny)) (x (vfin px py)))
                    (fsub (y (vfin nx ny)) (y (vfin px py)))).
    change from with (vfin (ox - px) (oy - py)).
    change to with (vfin (nx - px) (ny - py)).
    destruct (align_matrix_fin (ox - px) (oy - py) (nx - px) (ny - py))
      as [[Hz _]|(_ & c & s & sg & Hm & Hcs & Hsg)].
    + exfalso. apply Rmult_integral in Hz as [Hz|Hz];
        apply norm2_zero in Hz as [Hx Hy].
      * apply vfin_ne in Ho. lra.
      * apply vfin_ne in Hn. lra.
    + exists ox, oy, nx, ny, c, (sg * s). repeat split.
      { replace (sg * s * (sg * s)) with ((sg * sg) * (s * s)) by ring.
        rewrite Hsg. lra. }
      intros qx qy.
      change (align_position (vfin nx ny)
                (align_matrix (vfin (ox - px) (oy - py))
                   (vfin (nx - px) (ny - py)))
                (vfin (nx - px - (ox - px)) (ny - py - (oy - py)))
                (vfin qx qy)
              = vfin (c * (qx - ox) - sg * s * (qy - oy) + nx)
                     (sg * s * (qx - ox) + c * (qy - oy) + ny)).
      rewrite Hm. unfold align_position, vfin. simpl.
      f_equal; f_equal; ring.
  - intros _. exists ox, oy, nx, ny, 1, 0. repeat split; [lra|].
    intros qx qy. unfold align_map, vfin. simpl. f_equal; f_equal; ring.
Qed.

(** Two rigid motions, one after the other. *)
Lemma rigid_map_comp (g1 g2 : xvec -> xvec) a b c :
  rigid_map g1 a b -> rigid_map g2 b c ->
  rigid_map (fun q => g2 (g1 q)) a c.
Proof.
  intros (ox & oy & nx & ny & c1 & s1 & -> & -> & H1 & Hg1)
         (ox2 & oy2 & mx & my & c2 & s2 & Hb & -> & H2 & Hg2).
  injection Hb as <- <-.
  exists ox, oy, mx, my, (c2 * c1 - s2 * s1), (s2 * c1 + c2 * s1).
  repeat split.
  - transitivity ((c1 * c1 + s1 * s1) * (c2 * c2 + s2 * s2)); [ring|].
    rewrite H1, H2. ring.
  - intros qx qy. rewrite Hg1, Hg2. unfold vfin. f_equal; f_equal; ring.
Qed.


(** The step of the backward pass at a frame, with the position of the
    parent it takes as the pivot of the rotation: the one before the call. *)
Lemma back_rel_frame_pp (h h' : xheap) par fs t pc d tx ty f :
  back_rel h h' par fs t pc d tx ty -> f ∈ fs ->
  exists pp d' tx' ty',
    node_rel h h' pp (f_addr f) (f_sibs f) d' tx' ty' /\
    (((exists fs', fs = f :: fs') /\ pp = pos h <$> par) \/
     exists p, (p, f_addr f) ∈ path_links fs t /\ pp = Some (pos h p)).
Proof.
  revert par. induction fs as [|g fs IH]; intros par Hb Hin.
  { by apply elem_of_nil in Hin. }
  destruct Hb as [Hn Hb].
  apply elem_of_cons in Hin as [->|Hin].
  { eexists _, _, _, _. split; [exact Hn|]. left. split; [by eexists|done]. }
  destruct (IH _ Hb Hin) as (pp & d' & tx' & ty' & Hn' & Hpp).
  exists pp, d', tx', ty'. split; [done|]. right.
  destruct Hpp as [[[fs' ->] ->]|(p & Hp & ->)].
  - exists (f_addr g). split; [left|done].
  - exists p. split; [by right|done].
Qed.

(** The same in the forward pass: the position of the parent is the one
    after the call. *)
Lemma fwd_rel_frame_pp (h h' : xheap) pp0 fs t d tx ty f :
  fwd_rel h h' pp0 fs t d tx ty -> f ∈ fs ->
  exists pp d' tx' ty',
    node_rel h h' pp (f_addr f) (f_sibs f) d' tx' ty' /\
    (((exists fs', fs = f :: fs') /\ pp = pp0) \/
     exists p, (p, f_addr f) ∈ path_links fs t /\ pp = Some (pos h' p)).
Proof.
  revert pp0 d tx ty. induction fs as [|g fs IH]; intros pp0 d tx ty Hb Hin.
  { by apply elem_of_nil in Hin. }
  destruct Hb as [Hn Hb].
  apply elem_of_cons in Hin as [->|Hin].
  { eexists _, _, _, _. split; [exact Hn|]. left. split; [by eexists|done]. }
  destruct (IH _ _ _ _ Hb Hin) as (pp & d' & tx' & ty' & Hn' & Hpp).
  exists pp, d', tx', ty'. split; [done|]. right.
  destruct Hpp as [[[fs' ->] ->]|(p & Hp & ->)].
  - exists (f_addr g). split; [left|done].
  - exists p. split; [by right|done].
Qed.

Lemma path_links_prefix fs gs t p c :
  (p, c) ∈ path_links fs (plug gs t) -> (p, c) ∈ path_links (fs ++ gs) t.
Proof.
  induction fs as [|f fs IH]; simpl; intros Hin.
  { by apply elem_of_nil in Hin. }
  rewrite plug_app. apply elem_of_cons in Hin as [->|Hin]; [left|right; auto].
Qed.

(** A frame is in place for the call when the alignments of its branches
    are defined: the joint of the frame is on its parent [p] neither before
    the backward pass moves it nor after, and neither before the forward
    pass moves it nor after.  [h], [h1] and [h'] are the stores before the
    call, between the passes, and after the call. *)
Definition off_parent (h h1 h' : xheap) (e p : addr) : Prop :=
  pos h e <> pos h p /\ pos h1 e <> pos h p /\
  pos h1 e <> pos h' p /\ pos h' e <> pos h' p.

(** One step moves the branches of a frame by a rigid motion that takes the
    joint of the frame where the step puts it. *)
Lemma node_rel_motion (h h' : xheap) pp e sibs d tx ty :
  node_rel h h' pp e sibs d tx ty ->
  (forall q, q ∈ ids_list sibs -> is_Some (h !! q)) ->
  vfinite (pos h e) -> vfinite (pos h' e) ->
  match pp with
  | Some p => vfinite p /\ pos h e <> p /\ pos h' e <> p
  | None => True
  end ->
  exists g, rigid_map g (pos h e) (pos h' e) /\
    forall q, q ∈ ids_list sibs -> pos h' q = g (pos h q).
Proof.
  intros Hn Hal He He' Hpp.
  exists (align_map (pos h e) (pos h' e) pp). split.
  - by apply align_map_rigid.
  - intros q Hq. eapply node_rel_pos_sib; [done|done|by apply Hal].
Qed.

(** Both passes: the branches of a frame that is in place are moved by one
    rigid motion, which takes the joint of the frame from where it was to
    where it is after the call. *)
Lemma frame_motion (h h1 h' : xheap) fs fs' t t' pc d tx ty d' tx' ty' f :
  back_rel h h1 None fs t pc d tx ty ->
  fwd_rel h1 h' None fs' t' d' tx' ty' ->
  f ∈ fs -> f ∈ fs' ->
  same_links h h1 ->
  (forall q, q ∈ frame_ids f -> is_Some (h !! q)) ->
  vfinite (pos h (f_addr f)) -> vfinite (pos h1 (f_addr f)) ->
  vfinite (pos h' (f_addr f)) ->
  (forall p, (p, f_addr f) ∈ path_links fs t \/
             (p, f_addr f) ∈ path_links fs' t' ->
     vfinite (pos h p) /\ vfinite (pos h' p) /\
     off_parent h h1 h' (f_addr f) p) ->
  exists g, rigid_map g (pos h (f_addr f)) (pos h' (f_addr f)) /\
    forall q, q ∈ ids_list (f_sibs f) -> pos h' q = g (pos h q).
Proof.
  intros Hb Hf Hin Hin' Hl Hal He He1 He' Hoff.
  destruct (back_rel_frame_pp _ _ _ _ _ _ _ _ _ _ Hb Hin)
    as (pp1 & d1 & a1 & b1 & Hn1 & Hpp1).
  destruct (fwd_rel_frame_pp _ _ _ _ _ _ _ _ _ Hf Hin')
    as (pp2 & d2 & a2 & b2 & Hn2 & Hpp2).
  assert (Hsib : forall q, q ∈ ids_list (f_sibs f) -> is_Some (h !! q))
    by (intros q Hq; apply Hal; by right).
  destruct (node_rel_motion _ _ _ _ _ _ _ _ Hn1 Hsib He He1)
    as (g1 & Hr1 & Hg1).
  { destruct Hpp1 as [[_ ->]|(p & Hp & ->)]; [done|].
    destruct (Hoff p (or_introl Hp)) as (Hfp & _ & Ho1 & Ho2 & _). done. }
  assert (Hsib1 : forall q, q ∈ ids_list (f_sibs f) -> is_Some (h1 !! q)).
  { intros q Hq. eapply same_links_alloc; [done|]. by apply Hsib. }
  destruct (node_rel_motion _ _ _ _ _ _ _ _ Hn2 Hsib1 He1 He')
    as (g2 & Hr2 & Hg2).
  { destruct Hpp2 as [[_ ->]|(p & Hp & ->)]; [done|].
    destruct (Hoff p (or_intror Hp)) as (_ & Hfp & _ & _ & Ho3 & Ho4). done. }
  exists (fun q => g2 (g1 q)). split; [by eapply rigid_map_comp|].
  intros q Hq. by rewrite Hg2, Hg1.
Qed.

(** [ik_solve] on the branches of a frame that is in place. *)
Lemma ik_solve_frame_motion fs gs l (w : xworld) fuel tx ty :
  let te := plug gs (Sh l []) in
  let T := plug fs te in
  is_tree (joints w) None T ->
  NoDup (ids T) ->
  Forall (fun f => f_sibs f = []) gs ->
  (2 * height T <= fuel)%nat ->
  (List.length (path_stack fs te) + List.length (ik_stack w) <= IK_STACK_SIZE)%nat ->
  path_fin (joints w) (path_addrs (fs ++ gs) (Sh l [])) ->
  exists w1 w',
    ik_reach_back fuel (Some (root_addr te)) (Fin tx) (Fin ty) fzero w
    = Ok ((Some (root_addr T), x (pos (joints w) (root_addr T)),
           y (pos (joints w) (root_addr T))), w1) /\
    ik_solve fuel (Some (root_addr te)) (Fin tx) (Fin ty) w = Ok (1%Z, w') /\
    (forall a, a ∈ path_addrs (fs ++ gs) (Sh l []) ->
       vfinite (pos (joints w') a)) /\
    forall f, f ∈ fs ->
      (forall p, (p, f_addr f) ∈ path_links (fs ++ gs) (Sh l []) ->
         off_parent (joints w) (joints w1) (joints w') (f_addr f) p) ->
      exists g,
        rigid_map g (pos (joints w) (f_addr f)) (pos (joints w') (f_addr f)) /\
        forall q, q ∈ ids_list (f_sibs f) ->
          pos (joints w') q = g (pos (joints w) q).
Proof.
  intros te T Ht Hnd Hgs Hfuel Hcap Hfin.
  destruct (ik_solve_exact_passes fs gs l w fuel tx ty)
    as (w1 & w' & Hback & Hrun & Hl1 & Hl2 & Hb & Hf & _ & _ & Hfin1 & Hfin2
        & _ & _); [done..|].
  fold te T in Hb, Hback.
  exists w1, w'. split; [exact Hback|]. split; [exact Hrun|].
  split; [exact Hfin2|].
  intros f Hin Hoff.
  assert (Hfa : f_addr f ∈ path_addrs (fs ++ gs) (Sh l [])).
  { apply map_f_addr_in_path. rewrite List.map_app. apply elem_of_app. left.
    apply list_elem_of_fmap. by exists f. }
  assert (Hlink : forall p, (p, f_addr f) ∈ path_links fs te \/
                    (p, f_addr f) ∈ path_links (fs ++ gs) (Sh l []) ->
                  (p, f_addr f) ∈ path_links (fs ++ gs) (Sh l [])).
  { intros p [Hp|Hp]; [|done]. by apply path_links_prefix. }
  apply (frame_motion (joints w) (joints w1) (joints w') fs (fs ++ gs) te
           (Sh l []) NULL (Fin 0) (Fin tx) (Fin ty) (Fin 0)
           (x (pos (joints w) (root_addr T)))
           (y (pos (joints w) (root_addr T)))); try done.
  - apply elem_of_app. by left.
  - intros q Hq. eapply is_tree_alloc; [exact Ht|].
    by eapply frame_ids_in_plug.
  - destruct (path_fin_pos _ _ _ Hfin Hfa) as (a & b & ->). apply vfinite_fin.
  - destruct (path_fin_pos _ _ _ Hfin1 Hfa) as (a & b & ->). apply vfinite_fin.
  - by apply Hfin2.
  - intros p Hp. apply Hlink in Hp.
    destruct (path_links_child _ _ _ _ Hp) as [_ Hpin].
    apply map_f_addr_in_path with (t := Sh l []) in Hpin.
    split; [|split; [by apply Hfin2|by apply Hoff]].
    destruct (path_fin_pos _ _ _ Hfin Hpin) as (a & b & ->). apply vfinite_fin.
Qed.

(** Sibling rigidity.  In exact arithmetic a call of [ik_solve] moves the
    branches that hang off a joint of the path by one rigid motion, a
    rotation about the joint and the translation that takes the joint where
    it ends, when the alignments are defined: the joint is the root, or it
    is on its parent neither before nor after its move, in either pass.  The
    joints of the branches are then at points after the call, and the
    distance between two of them is what it was. *)
Theorem ik_solve_sibling_rigid fs gs l (w : xworld) fuel tx ty :
  let te := plug gs (Sh l []) in
  let T := plug fs te in
  is_tree (joints w) None T ->
  NoDup (ids T) ->
  Forall (fun f => f_sibs f = []) gs ->
  (2 * height T <= fuel)%nat ->
  (List.length (path_stack fs te) + List.length (ik_stack w) <= IK_STACK_SIZE)%nat ->
  path_fin (joints w) (path_addrs (fs ++ gs) (Sh l [])) ->
  exists w1 w',
    ik_reach_back fuel (Some (root_addr te)) (Fin tx) (Fin ty) fzero w
    = Ok ((Some (root_addr T), x (pos (joints w) (root_addr T)),
           y (pos (joints w) (root_addr T))), w1) /\
    ik_solve fuel (Some (root_addr te)) (Fin tx) (Fin ty) w = Ok (1%Z, w') /\
    forall f, f ∈ fs ->
      (forall p, (p, f_addr f) ∈ path_links (fs ++ gs) (Sh l []) ->
         off_parent (joints w) (joints w1) (joints w') (f_addr f) p) ->
      exists ex ey ex' ey' c s,
        pos (joints w) (f_addr f) = vfin ex ey /\
        pos (joints w') (f_addr f) = vfin ex' ey' /\
        c * c + s * s = 1 /\
        (forall q qx qy, q ∈ ids_list (f_sibs f) ->
           pos (joints w) q = vfin qx qy ->
           pos (joints w') q
           = vfin (c * (qx - ex) - s * (qy - ey) + ex')
                  (s * (qx - ex) + c * (qy - ey) + ey')) /\
        (forall u v, u ∈ ids_list (f_sibs f) -> v ∈ ids_list (f_sibs f) ->
           vfinite (pos (joints w) u) -> vfinite (pos (joints w) v) ->
           vdist (pos (joints w') u) (pos (joints w') v)
           = vdist (pos (joints w) u) (pos (joints w) v)).
Proof.
  intros te T Ht Hnd Hgs Hfuel Hcap Hfin.
  destruct (ik_solve_frame_motion fs gs l w fuel tx ty)
    as (w1 & w' & Hback & Hrun & _ & Hframe); [done..|].
  exists w1, w'. split; [exact Hback|]. split; [exact Hrun|].
  intros f Hin Hoff.
  destruct (Hframe f Hin Hoff) as (g & Hr & Hg).
  pose proof Hr as (ex & ey & ex' & ey' & c & s & He & He' & Hcs & Hgq).
  exists ex, ey, ex', ey', c, s.
  split; [done|]. split; [done|]. split; [done|]. split.
  - intros q qx qy Hq Hp. by rewrite (Hg q Hq), Hp, Hgq.
  - intros u v Hu Hv (ux & uy & Hpu) (vx & vy & Hpv).
    rewrite (Hg u Hu), (Hg v Hv), Hpu, Hpv.
    apply (rigid_map_dist _ _ _ Hr ux uy vx vy).
Qed.

End Exact.

(** ** Chains *)

Section Chains.
Local Open Scope R_scope.

Local Abbreviation xvec := (ik_vec2 xreal).
Local Abbreviation xjoint := (ik_joint xreal).
Local Abbreviation xheap := (gmap addr (ik_joint xreal)).
Local Abbreviation xworld := (world xreal).





Lemma point_cases (px py tx ty : R) :
  (px = tx /\ py = ty) \/ (px <> tx \/ py <> ty).
Proof.
  destruct (Req_EM_T px tx); destruct (Req_EM_T py ty); tauto.
Qed.

(** Where [ik_move_within_dist] puts a joint: on the target when it was
    there, at the distance from it otherwise. *)
Lemma move_fin_dist px py d tx ty :
  exists nx ny,
    move_within_dist (vfin px py) (Fin d) (Fin tx) (Fin ty) = vfin nx ny /\
    (px = tx /\ py = ty -> nx = tx /\ ny = ty) /\
    (px <> tx \/ py <> ty -> norm2 (nx - tx) (ny - ty) = Rabs d) /\
    norm2 (nx - tx) (ny - ty) <= Rabs d.
Proof.
  destruct (point_cases px py tx ty) as [[-> ->]|Hne].
  - exists tx, ty. rewrite move_fin_on. split; [done|].
    split; [done|]. split; [intros [?|?]; done|].
    replace (norm2 (tx - tx) (ty - ty)) with 0; [apply Rabs_pos|].
    symmetry. apply norm2_zero. lra.
  - rewrite move_fin_off by done. eexists _, _. split; [done|].
    pose proof (norm2_pos (px - tx) (py - ty)) as Hn.
    assert (Hn' : 0 < norm2 (px - tx) (py - ty)) by (apply Hn; lra).
    assert (Heq : norm2 (tx + d * (px - tx) / norm2 (px - tx) (py - ty) - tx)
                    (ty + d * (py - ty) / norm2 (px - tx) (py - ty) - ty)
                  = Rabs d).
    { replace (tx + d * (px - tx) / norm2 (px - tx) (py - ty) - tx)
        with (d / norm2 (px - tx) (py - ty) * (px - tx)) by (field; lra).
      replace (ty + d * (py - ty) / norm2 (px - tx) (py - ty) - ty)
        with (d / norm2 (px - tx) (py - ty) * (py - ty)) by (field; lra).
      rewrite norm2_scale. unfold Rdiv. rewrite Rabs_mult.
      rewrite (Rabs_pos_eq (/ _)) by (left; by apply Rinv_0_lt_compat).
      field. lra. }
    split; [tauto|]. split; [done|]. by rewrite Heq.
Qed.

(** The step of the backward pass at the effected joint. *)
Lemma back_rel_root (h h' : xheap) par fs t pc d tx ty :
  back_rel h h' par fs t pc d tx ty ->
  exists pp, node_rel h h' pp (root_addr t) (esibs (kids_of t) pc) d tx ty.
Proof.
  revert par. induction fs as [|f fs IH]; intros par; simpl.
  - intros Hn. by eexists.
  - intros [_ Hb]. by eapply IH.
Qed.


Lemma path_links_app fs gs t :
  path_links (fs ++ gs) t = path_links fs (plug gs t) ++ path_links gs t.
Proof.
  induction fs as [|f fs IH]; simpl; [done|].
  by rewrite IH, plug_app.
Qed.

(** [ik_solve] on a tree whose joints on the path are points: the backward
    pass puts the effected joint on the target, the forward pass moves it
    within its length of its parent. *)
Lemma ik_solve_effected fs gs l (w : xworld) fuel tx ty :
  let te := plug gs (Sh l []) in
  let T := plug fs te in
  is_tree (joints w) None T ->
  NoDup (ids T) ->
  Forall (fun f => f_sibs f = []) gs ->
  (2 * height T <= fuel)%nat ->
  (List.length (path_stack fs te) + List.length (ik_stack w) <= IK_STACK_SIZE)%nat ->
  path_fin (joints w) (path_addrs (fs ++ gs) (Sh l [])) ->
  exists w',
    ik_solve fuel (Some (root_addr te)) (Fin tx) (Fin ty) w = Ok (1%Z, w') /\
    same_links (joints w) (joints w') /\
    pos (joints w') (root_addr T) = pos (joints w) (root_addr T) /\
    (forall a, a ∈ path_addrs (fs ++ gs) (Sh l []) ->
       vfinite (pos (joints w') a)) /\
    (forall p, (p, root_addr te) ∈ path_links fs te ->
       pos (joints w') (root_addr te)
       = move_within_dist (vfin tx ty) (len (joints w) (root_addr te))
           (x (pos (joints w') p)) (y (pos (joints w') p))).
Proof.
  intros te T Ht Hnd Hgs Hfuel Hcap Hfin.
  destruct (ik_solve_exact fs gs l w fuel tx ty)
    as (h1 & w' & Hrun & Hl1 & Hl2 & Hb & Hf & _ & _ & _ & Hfin2 & Hroot & Hlk);
    [done..|].
  fold te T in Hb, Hroot.
  exists w'. split; [done|]. split; [by eapply same_links_trans|].
  split; [done|]. split; [done|].
  intros p Hp. rewrite (Hlk p (root_addr te)).
  - f_equal. destruct (back_rel_root _ _ _ _ _ _ _ _ _ Hb) as (pp & Hn).
    assert (He : root_addr te ∈ path_addrs (fs ++ gs) (Sh l [])).
    { rewrite path_addrs_app. apply elem_of_app. right. apply root_in_path. }
    rewrite (node_rel_pos_self _ _ _ _ _ _ _ _ Hn)
      by (by eapply path_fin_alloc).
    destruct (path_fin_pos _ _ _ Hfin He) as (ex & ey & ->).
    apply move_to_zero.
  - rewrite path_links_app. apply elem_of_app. by left.
Qed.

(** *** A chain of two joints *)

Lemma ik_solve_chain2 (w : xworld) r l fuel rx ry lx ly ln0 ln tx ty :
  joints w !! r = Some (Joint (vfin rx ry) (Fin ln0) NULL [Some l]) ->
  joints w !! l = Some (Joint (vfin lx ly) (Fin ln) (Some r) []) ->
  (4 <= fuel)%nat ->
  (List.length (ik_stack w) <= IK_STACK_SIZE)%nat ->
  exists w',
    ik_solve fuel (Some l) (Fin tx) (Fin ty) w = Ok (1%Z, w') /\
    same_links (joints w) (joints w') /\
    pos (joints w') r = vfin rx ry /\
    pos (joints w') l
    = move_within_dist (vfin tx ty) (Fin ln) (Fin rx) (Fin ry).
Proof.
  intros Hr Hl Hfuel Hcap.
  assert (Hne : r <> l) by (intros ->; simplify_eq).
  destruct (ik_solve_effected [Frame r [] []] [] l w fuel tx ty)
    as (w' & Hrun & Hlk & Hroot & _ & He).
  - simpl. unfold fill. simpl.
    eapply is_tree_node; [exact Hr|done|done|].
    repeat constructor. eapply is_tree_node; [exact Hl|done|done|].
    constructor.
  - simpl. unfold fill. simpl. apply NoDup_cons. split.
    + intros Hin. by apply list_elem_of_singleton in Hin.
    + apply NoDup_singleton.
  - constructor.
  - simpl. lia.
  - simpl. lia.
  - intros a Ha. simpl in Ha. unfold path_addrs in Ha. simpl in Ha.
    apply elem_of_cons in Ha as [->|Ha].
    + by eexists _, _, _, _.
    + apply list_elem_of_singleton in Ha as ->. by eexists _, _, _, _.
  - simpl in *. unfold pos, len in *. rewrite Hr, Hl in *. simpl in *.
    exists w'. split; [done|]. split; [done|]. split; [done|].
    rewrite (He r) by left. by rewrite Hroot.
Qed.

(** A joint to the right of the target, on its horizontal. *)
Lemma move_fin_right px d tx ty :
  tx < px ->
  move_within_dist (vfin px ty) (Fin d) (Fin tx) (Fin ty) = vfin (tx + d) ty.
Proof.
  intros Hlt. rewrite move_fin_off by (left; lra).
  replace (norm2 (px - tx) (ty - ty)) with (px - tx).
  - unfold vfin. f_equal; f_equal; field; lra.
  - symmetry. apply norm2_eq; [lra|ring].
Qed.

(** C4, amended.  On a chain of two joints, the root at (0, 0) and the leaf
    of segment length 5, [ik_solve] with the target (10, 0) leaves the root
    at (0, 0) and the leaf at (5, 0), wherever the leaf was: the forward
    pass moves the leaf within its length of the root. *)
Theorem ik_solve_two_joints_far (w : xworld) r l fuel lx ly ln0 :
  joints w !! r = Some (Joint (vfin 0 0) (Fin ln0) NULL [Some l]) ->
  joints w !! l = Some (Joint (vfin lx ly) (Fin 5) (Some r) []) ->
  (4 <= fuel)%nat ->
  (List.length (ik_stack w) <= IK_STACK_SIZE)%nat ->
  exists w',
    ik_solve fuel (Some l) (Fin 10) (Fin 0) w = Ok (1%Z, w') /\
    pos (joints w') r = vfin 0 0 /\
    pos (joints w') l = vfin 5 0.
Proof.
  intros Hr Hl Hfuel Hcap.
  destruct (ik_solve_chain2 w r l fuel 0 0 lx ly ln0 5 10 0)
    as (w' & Hrun & _ & Hroot & Hleaf); [done..|].
  exists w'. split; [done|]. split; [done|].
  rewrite Hleaf, move_fin_right by lra. unfold vfin. do 2 f_equal. lra.
Qed.


(** *** Segment lengths *)

(** A translation of the joints at [X]. *)
Lemma map_pos_translate (h : xheap) X dx dy u ux uy :
  NoDup X -> u ∈ X -> is_Some (h !! u) -> pos h u = vfin ux uy ->
  pos (map_pos (fun p => Vec2 (fadd (x p) (Fin dx)) (fadd (y p) (Fin dy))) X h) u
  = vfin (ux + dx) (uy + dy).
Proof.
  intros Hnd Hu [j Hj] Hp. unfold pos in *.
  rewrite map_pos_lookup_in by done. rewrite Hj in *. simpl in *.
  by rewrite Hp.
Qed.

(** [ik_translate] puts the root where it is told and keeps the distance
    between any two joints of the tree. *)
Lemma ik_translate_dist (w : xworld) t par fuel rx ry x_ y_ :
  is_tree (joints w) par t ->
  NoDup (ids t) ->
  (height t <= fuel)%nat ->
  pos (joints w) (root_addr t) = vfin rx ry ->
  exists w',
    ik_translate fuel (Some (root_addr t)) (Fin x_) (Fin y_) w = Ok (tt, w') /\
    pos (joints w') (root_addr t) = vfin x_ y_ /\
    forall u v, u ∈ ids t -> v ∈ ids t ->
      vfinite (pos (joints w) u) -> vfinite (pos (joints w) v) ->
      vdist (pos (joints w') v) (pos (joints w') u)
      = vdist (pos (joints w) v) (pos (joints w) u).
Proof.
  intros Ht Hnd Hh Hr.
  destruct (is_tree_alloc _ _ _ _ Ht (root_in_ids t)) as [jr Hjr].
  unfold ik_translate. erewrite bind_Ok by (by apply load_Some).
  rewrite ik_translate_relative_map.
  erewrite map_branch_tree by done.
  eexists. split; [done|]. rewrite joints_set_joints.
  unfold pos in Hr. rewrite Hjr in Hr. simpl in Hr. rewrite Hr. simpl x. simpl y.
  change (fsub (Fin x_) (Fin rx)) with (Fin (x_ - rx)).
  change (fsub (Fin y_) (Fin ry)) with (Fin (y_ - ry)).
  split.
  - rewrite (map_pos_translate _ _ _ _ _ rx ry); [|done|apply root_in_ids|done|].
    + unfold vfin. f_equal; f_equal; lra.
    + unfold pos. by rewrite Hjr.
  - intros u v Hu Hv (ux & uy & Hpu) (vx & vy & Hpv).
    rewrite (map_pos_translate _ _ _ _ u ux uy);
      [|done|done|by eapply is_tree_alloc|done].
    rewrite (map_pos_translate _ _ _ _ v vx vy);
      [|done|done|by eapply is_tree_alloc|done].
    rewrite Hpu, Hpv, !vdist_fin. f_equal. apply norm2_congr. ring.
Qed.

(** C2, amended.  After [ik_solve], in exact arithmetic, a joint on the path
    is at its segment length from its parent, whatever the distance was
    before, unless the backward pass left it on the point where its parent
    ends: then it is on its parent.  The joints that hang off the path on a
    joint of the path, and that joint, keep their distances, and are at
    points after the call, when the alignments at the joint are defined:
    the joint is the root, or it is on its parent neither before nor after
    its move, in either pass.  So a segment off the path has its length
    after the call if it had it before.  [ik_translate] keeps all
    distances. *)
Theorem ik_solve_segment_lengths fs gs l (w : xworld) fuel tx ty :
  let te := plug gs (Sh l []) in
  let T := plug fs te in
  is_tree (joints w) None T ->
  NoDup (ids T) ->
  Forall (fun f => f_sibs f = []) gs ->
  (2 * height T <= fuel)%nat ->
  (List.length (path_stack fs te) + List.length (ik_stack w) <= IK_STACK_SIZE)%nat ->
  path_fin (joints w) (path_addrs (fs ++ gs) (Sh l [])) ->
  (exists w1 w',
     ik_reach_back fuel (Some (root_addr te)) (Fin tx) (Fin ty) fzero w
     = Ok ((Some (root_addr T), x (pos (joints w) (root_addr T)),
            y (pos (joints w) (root_addr T))), w1) /\
     ik_solve fuel (Some (root_addr te)) (Fin tx) (Fin ty) w = Ok (1%Z, w') /\
     (forall p c, (p, c) ∈ path_links (fs ++ gs) (Sh l []) ->
        exists ln, len (joints w) c = Fin ln /\
          (pos (joints w1) c <> pos (joints w') p ->
           vdist (pos (joints w') c) (pos (joints w') p) = Fin (Rabs ln)) /\
          (pos (joints w1) c = pos (joints w') p ->
           pos (joints w') c = pos (joints w') p)) /\
     (forall f, f ∈ fs ->
        (forall p, (p, f_addr f) ∈ path_links (fs ++ gs) (Sh l []) ->
           off_parent (joints w) (joints w1) (joints w') (f_addr f) p) ->
        forall u v, u ∈ frame_ids f -> v ∈ frame_ids f ->
          vfinite (pos (joints w) u) -> vfinite (pos (joints w) v) ->
          vfinite (pos (joints w') u) /\ vfinite (pos (joints w') v) /\
          vdist (pos (joints w') v) (pos (joints w') u)
          = vdist (pos (joints w) v) (pos (joints w) u))) /\
  (exists w',
     ik_translate fuel (Some (root_addr T)) (Fin tx) (Fin ty) w = Ok (tt, w') /\
     pos (joints w') (root_addr T) = vfin tx ty /\
     (forall u v, u ∈ ids T -> v ∈ ids T ->
        vfinite (pos (joints w) u) -> vfinite (pos (joints w) v) ->
        vdist (pos (joints w') v) (pos (joints w') u)
        = vdist (pos (joints w) v) (pos (joints w) u))).
Proof.
  intros te T Ht Hnd Hgs Hfuel Hcap Hfin. split.
  - destruct (ik_solve_exact_passes fs gs l w fuel tx ty)
      as (w1 & w' & Hback & Hrun & Hl1 & Hl2 & Hb & Hf & _ & _ & Hfin1 & Hfin2
          & _ & Hlk); [done..|].
    destruct (ik_solve_frame_motion fs gs l w fuel tx ty)
      as (w1' & w'' & Hback' & Hrun' & _ & Hframe); [done..|].
    fold te T in Hback, Hback'.
    assert (w1' = w1) as -> by congruence.
    assert (w'' = w') as -> by congruence.
    exists w1, w'. split; [exact Hback|]. split; [exact Hrun|]. split.
    + intros p c Hpc.
      destruct (path_links_child _ _ _ _ Hpc) as [Hc Hp].
      destruct (path_fin_len _ _ _ Hfin Hc) as (ln & Hln).
      destruct (path_fin_pos _ _ _ Hfin1 Hc) as (cx & cy & Hc1).
      destruct (Hfin2 p (map_f_addr_in_path _ _ _ Hp)) as (px & py & Hp').
      exists ln. split; [done|].
      rewrite (Hlk p c Hpc), Hln, Hc1, Hp'. simpl x. simpl y.
      destruct (move_fin_dist cx cy ln px py) as (nx & ny & -> & Hon & Hoff & _).
      split.
      * intros Hne. rewrite vdist_fin. f_equal. apply Hoff.
        destruct (point_cases cx cy px py) as [[-> ->]|Hne']; done.
      * intros [= -> ->]. by destruct (Hon (conj eq_refl eq_refl)) as [-> ->].
    + intros f Hin Hoff u v Hu Hv Hfu Hfv.
      destruct (Hframe f Hin Hoff) as (g & Hr & Hg).
      assert (Hfa : f_addr f ∈ path_addrs (fs ++ gs) (Sh l [])).
      { apply map_f_addr_in_path. rewrite List.map_app. apply elem_of_app.
        left. apply list_elem_of_fmap. by exists f. }
      assert (Hpos : forall q, q ∈ frame_ids f -> vfinite (pos (joints w) q) ->
                pos (joints w') q = g (pos (joints w) q)).
      { intros q Hq Hfq. apply elem_of_cons in Hq as [->|Hq]; [|by apply Hg].
        destruct Hr as (ex & ey & ex' & ey' & c & s & -> & -> & _ & Hgq).
        rewrite Hgq. unfold vfin. f_equal; f_equal; ring. }
      rewrite (Hpos u Hu Hfu), (Hpos v Hv Hfv).
      split; [by eapply rigid_map_finite|]. split; [by eapply rigid_map_finite|].
      destruct Hfu as (ux & uy & ->). destruct Hfv as (vx & vy & ->).
      apply (rigid_map_dist _ _ _ Hr vx vy ux uy).
  - assert (Hroot : root_addr T ∈ path_addrs (fs ++ gs) (Sh l [])).
    { unfold T, te. rewrite <- plug_app. apply root_in_path. }
    destruct (path_fin_pos _ _ _ Hfin Hroot) as (rx & ry & Hr).
    apply (ik_translate_dist w T None fuel rx ry tx ty); [done|done| |done].
    lia.
Qed.

(** *** A target out of reach *)








(** *** A chain of three joints *)


(** *** Where an alignment is undefined *)

Lemma vdist_undefined (p q : xvec) : ~ vfinite p -> vdist p q = NaN.
Proof.
  intros Hp. destruct p as [px py], q as [qx qy].
  destruct (vfinite_cases (Vec2 px py)) as [Hf|[Hx|Hy]]; [done|..];
    simpl in *; subst; unfold vdist, vec_length; simpl.
  - by destruct qx.
  - destruct px, qx; simpl; by destruct qy.
Qed.

(** A joint that is moved onto its parent leaves its branches nowhere. *)
Lemma node_rel_onto_parent (h h' : xheap) e sibs d tx ty px py q :
  node_rel h h' (Some (vfin px py)) e sibs d tx ty ->
  pos h' e = vfin px py ->
  q ∈ ids_list sibs -> is_Some (h !! q) ->
  ~ vfinite (pos h' q).
Proof.
  intros Hn He Hq Hal.
  rewrite (node_rel_pos_sib _ _ _ _ _ _ _ _ _ Hn Hq Hal), He.
  unfold align_map. apply align_position_mC_NaN.
  destruct (vfinite_cases (pos h e)) as [(ox & oy & ->)|Hnan].
  - simpl x. simpl y.
    change (fsub (Fin ox) (Fin px)) with (Fin (ox - px)).
    change (fsub (Fin oy) (Fin py)) with (Fin (oy - py)).
    change (fsub (Fin px) (Fin px)) with (Fin (px - px)).
    change (fsub (Fin py) (Fin py)) with (Fin (py - py)).
    destruct (align_matrix_fin (ox - px) (oy - py) (px - px) (py - py))
      as [[_ HC]|[Hne _]]; [done|exfalso].
    apply Hne. replace (norm2 (px - px) (py - py)) with 0; [ring|].
    symmetry. apply norm2_zero. lra.
  - apply align_matrix_NaN. left. apply not_vfinite_sub. left.
    by apply nan_not_vfinite.
Qed.

(** A branch that is nowhere stays nowhere. *)
Lemma node_rel_undefined (h h' : xheap) pp e sibs d tx ty q :
  node_rel h h' pp e sibs d tx ty ->
  q ∈ ids_list sibs -> is_Some (h !! q) ->
  ~ vfinite (pos h q) -> ~ vfinite (pos h' q).
Proof.
  intros Hn Hq Hal Hnf.
  rewrite (node_rel_pos_sib _ _ _ _ _ _ _ _ _ Hn Hq Hal).
  by apply align_map_cases.
Qed.

End Chains.

(** ** The theorems at concrete stores *)

(** Proves [is_tree] of a concrete store and shape, joint by joint. *)
Ltac tree_tac :=
  repeat first
    [ apply Forall_nil_2
    | apply Forall_cons_2
    | eapply is_tree_node; [reflexivity | reflexivity | reflexivity | ] ].




(** A tree of four joints with a branch at the root, in exact arithmetic. *)
Definition t_branch : shape := Sh 0 [Sh 1 [Sh 2 []]; Sh 3 []].

Definition w_branch : world xreal :=
  World (list_to_map
    [(0%nat, Joint (vfin 0 0) (Fin 1) NULL [Some 1%nat; Some 3%nat]);
     (1%nat, Joint (vfin 3 0) (Fin 3) (Some 0%nat) [Some 2%nat]);
     (2%nat, Joint (vfin 3 4) (Fin 4) (Some 1%nat) []);
     (3%nat, Joint (vfin 0 2) (Fin 2) (Some 0%nat) [])]) [] 0 0.

(** C10 at this tree, translated by (2, -1) and back. *)
Lemma ik_translate_relative_roundtrip_witness :
  exists w1,
    ik_translate_relative 3 (Some 0%nat) (Fin 2) (Fin (-1)) w_branch
    = Ok (tt, w1) /\
    ik_translate_relative 3 (Some 0%nat) (fneg (Fin 2)) (fneg (Fin (-1))) w1
    = Ok (tt, w_branch).
Proof.
  apply (ik_translate_relative_roundtrip w_branch t_branch None 3 2 (-1)).
  - unfold t_branch. tree_tac.
  - compute_done.
  - simpl. lia.
Defined.

(** The same tree in binary32. *)
Definition v32 (a b : Z) : ik_vec2 f32 := Vec2 (f32_of_Z a) (f32_of_Z b).

Definition w_branch32 : world f32 :=
  World (list_to_map
    [(0%nat, Joint (v32 0 0) (f32_of_Z 1) NULL [Some 1%nat; Some 3%nat]);
     (1%nat, Joint (v32 3 0) (f32_of_Z 3) (Some 0%nat) [Some 2%nat]);
     (2%nat, Joint (v32 3 4) (f32_of_Z 4) (Some 1%nat) []);
     (3%nat, Joint (v32 0 2) (f32_of_Z 2) (Some 0%nat) [])]) [] 0 0.

(** C7 at this call, joint 2 sent to (6, 8): the call returns, one entry is
    pushed, for the branch at the root, and one is popped. *)
Lemma ik_solve_stack_balance_witness :
  exists w1 root ox oy w',
    ik_reach_back 6 (Some 2%nat) (f32_of_Z 6) (f32_of_Z 8) fzero w_branch32
    = Ok ((root, ox, oy), w1) /\
    ik_solve 6 (Some 2%nat) (f32_of_Z 6) (f32_of_Z 8) w_branch32
    = Ok (1%Z, w') /\
    ik_reach_forward 6 root fzero ox oy w1 = Ok (tt, w') /\
    ik_stack w' = [] /\
    pushes w1 = 1%nat /\ pops w1 = 0%nat /\
    pushes w' = 1%nat /\ pops w' = 1%nat.
Proof.
  destruct (ik_solve_stack_balance [Frame 0 [] [Sh 3 []]; Frame 1 [] []]
              (Sh 2 []) w_branch32 6 (f32_of_Z 6) (f32_of_Z 8))
    as (w1 & root & ox & oy & Hb & Hpu & Hpo
        & [Hf|(w' & Hrun & Hfw & Hs & Hpu' & Hpo')]).
  - tree_tac.
  - compute_done.
  - reflexivity.
  - simpl. lia.
  - unfold IK_STACK_SIZE. simpl. lia.
  - exfalso. vm_compute in Hf. discriminate.
  - exists w1, root, ox, oy, w'.
    change (pushes w1 = 1%nat) in Hpu. change (pops w1 = 0%nat) in Hpo.
    change (pops w' = (pops w1 + 1)%nat) in Hpo'.
    split; [exact Hb|]. split; [exact Hrun|]. split; [exact Hfw|].
    split; [exact Hs|]. split; [exact Hpu|]. split; [exact Hpo|].
    split; [congruence|lia].
Defined.

(** A parent with three slots, the first occupied; and one that is full. *)
Definition j_parent : ik_joint f32 :=
  Joint (v32 0 0) (f32_of_Z 1) NULL [Some 1%nat; NULL; NULL].

Definition j_full : ik_joint f32 :=
  Joint (v32 0 0) (f32_of_Z 1) (Some 0%nat) [Some 2%nat].

Definition w_attach : world f32 :=
  World (list_to_map
    [(0%nat, j_parent);
     (1%nat, j_full);
     (2%nat, Joint (v32 0 0) (f32_of_Z 1) (Some 1%nat) []);
     (3%nat, Joint (v32 0 0) (f32_of_Z 2) NULL [])]) [] 0 0.

(** C8 at these parents: joint 3 is refused by the full one, and goes to
    the second slot of the other. *)
Lemma ik_attach_joint_spec_witness :
  ik_attach_joint (Some 3%nat) (Some 1%nat) w_attach = Ok (IK_ERROR, w_attach) /\
  exists w',
    ik_attach_joint (Some 3%nat) (Some 0%nat) w_attach = Ok (IK_OK, w') /\
    joints w' !! 0%nat
    = Some (Joint (v32 0 0) (f32_of_Z 1) NULL [Some 1%nat; Some 3%nat; NULL]) /\
    joints w' !! 3%nat
    = Some (Joint (v32 0 0) (f32_of_Z 2) (Some 0%nat) []) /\
    joints w' !! 1%nat = joints w_attach !! 1%nat /\
    joints w' !! 2%nat = joints w_attach !! 2%nat /\
    ik_stack w' = [].
Proof.
  split.
  - apply (ik_attach_joint_spec w_attach 3%nat 1%nat j_full); [reflexivity|].
    repeat constructor. discriminate.
  - destruct (proj2 (ik_attach_joint_spec w_attach 3%nat 0%nat j_parent
                       eq_refl)
                [Some 1%nat] [NULL]
                (Joint (v32 0 0) (f32_of_Z 2) NULL []))
      as (w' & Hrun & Hp & Hc & Ho & Hs & _).
    + reflexivity.
    + repeat constructor. discriminate.
    + reflexivity.
    + exists w'. split; [exact Hrun|]. split; [exact Hp|].
      split; [apply Hc; lia|].
      split; [apply Ho; lia|]. split; [apply Ho; lia|exact Hs].
Defined.

(** A chain of two joints whose lower joint has two children. *)
Definition w_fork32 : world f32 :=
  World (list_to_map
    [(0%nat, Joint (v32 0 0) (f32_of_Z 1) NULL [Some 1%nat]);
     (1%nat, Joint (v32 3 0) (f32_of_Z 3) (Some 0%nat) [Some 2%nat; Some 3%nat]);
     (2%nat, Joint (v32 3 4) (f32_of_Z 4) (Some 1%nat) []);
     (3%nat, Joint (v32 5 0) (f32_of_Z 2) (Some 1%nat) [])]) [] 0 0.

(** C9 at this chain, the effected joint being the one with two
    children. *)
Lemma ik_solve_effected_children_witness :
  ik_solve 6 (Some 1%nat) (f32_of_Z 6) (f32_of_Z 8) w_fork32 = Fault NullDeref.
Proof.
  refine (proj1 (proj1 (ik_solve_effected_children [Frame 0 [] []] 1%nat
            [Sh 2 []; Sh 3 []] w_fork32 6 (f32_of_Z 6) (f32_of_Z 8)
            _ _ _ _ _) _)).
  - tree_tac.
  - compute_done.
  - reflexivity.
  - simpl. lia.
  - unfold IK_STACK_SIZE. simpl. lia.
  - simpl. lia.
Defined.

(** The chain of the examples, as the interface builds it: two joints of
    segment length 5, the second attached to the first. *)
Definition build_chain {F} `{Num F} (len : F) : M (world F) (pointer * pointer) :=
  ik_init ;;
  root <- ik_new_joint len 1 ;;
  leaf <- ik_new_joint len 0 ;;
  _ <- ik_attach_joint leaf root ;;
  ret (root, leaf).

Definition w_empty {F} : world F := World ∅ [] 0 0.

Definition w_chain : world xreal :=
  World (list_to_map
    [(0%nat, Joint (vfin 0 0) (Fin 5) NULL [Some 1%nat]);
     (1%nat, Joint (vfin 0 0) (Fin 5) (Some 0%nat) [])]) [] 0 0.

Lemma build_chain_5 :
  build_chain (Fin 5) w_empty = Ok ((Some 0%nat, Some 1%nat), w_chain).
Proof. reflexivity. Qed.

(** C4, amended, at the chain as built. *)
Lemma ik_solve_two_joints_far_witness :
  exists w',
    ik_solve 4 (Some 1%nat) (Fin 10) (Fin 0) w_chain = Ok (1%Z, w') /\
    pos (joints w') 0%nat = vfin 0 0 /\
    pos (joints w') 1%nat = vfin 5 0.
Proof.
  apply (ik_solve_two_joints_far w_chain 0%nat 1%nat 4 0 0 5).
  - reflexivity.
  - reflexivity.
  - lia.
  - unfold IK_STACK_SIZE. simpl. lia.
Defined.

(** The same chain in a pose that has the segment length. *)
Definition w_pose : world xreal :=
  World (list_to_map
    [(0%nat, Joint (vfin 0 0) (Fin 5) NULL [Some 1%nat]);
     (1%nat, Joint (vfin 5 0) (Fin 5) (Some 0%nat) [])]) [] 0 0.

(** The leaf of such a chain, sent to the right of the root on its
    horizontal, ends at (5, 0). *)
Lemma ik_solve_chain5 (w : world xreal) lx ly tx :
  (0 < tx)%R ->
  joints w !! 0%nat = Some (Joint (vfin 0 0) (Fin 5) NULL [Some 1%nat]) ->
  joints w !! 1%nat = Some (Joint (vfin lx ly) (Fin 5) (Some 0%nat) []) ->
  ik_stack w = [] ->
  exists w',
    ik_solve 4 (Some 1%nat) (Fin tx) (Fin 0) w = Ok (1%Z, w') /\
    pos (joints w') 0%nat = vfin 0 0 /\
    pos (joints w') 1%nat = vfin 5 0.
Proof.
  intros Htx Hr Hl Hs.
  destruct (ik_solve_chain2 w 0%nat 1%nat 4 0 0 lx ly 5 5 tx 0)
    as (w' & Hrun & _ & Hroot & Hleaf);
    [done|done|lia|rewrite Hs; unfold IK_STACK_SIZE; simpl; lia|].
  rewrite move_fin_right in Hleaf by done.
  exists w'. split; [done|]. split; [done|].
  rewrite Hleaf. unfold vfin. do 2 f_equal. lra.
Qed.

Lemma vfin_5_ne (a : R) : (a <> 5)%R -> vfin 5 0 <> vfin a 0.
Proof. intros Ha Heq. unfold vfin in Heq. injection Heq as Heq. lra. Qed.

(** Against C4.  The example of the specification: the chain is built, and
    the leaf is sent to (10, 0).  It ends at (5, 0), its length from the
    root, not at (10, 0); and so it does from the pose with the leaf at
    (5, 0). *)
Lemma ik_solve_example_far :
  (exists w',
     (rl <- build_chain (Fin 5) ;; ik_solve 4 rl.2 (Fin 10) (Fin 0)) w_empty
     = Ok (1%Z, w') /\
     pos (joints w') 0%nat = vfin 0 0 /\
     pos (joints w') 1%nat = vfin 5 0 /\
     pos (joints w') 1%nat <> vfin 10 0) /\
  (exists w',
     ik_solve 4 (Some 1%nat) (Fin 10) (Fin 0) w_pose = Ok (1%Z, w') /\
     pos (joints w') 0%nat = vfin 0 0 /\
     pos (joints w') 1%nat = vfin 5 0 /\
     pos (joints w') 1%nat <> vfin 10 0).
Proof.
  split.
  - destruct (ik_solve_chain5 w_chain 0 0 10) as (w' & Hrun & Hroot & Hleaf);
      [lra|reflexivity|reflexivity|reflexivity|].
    exists w'. split; [|split; [done|split; [done|]]].
    + erewrite bind_Ok by apply build_chain_5. exact Hrun.
    + rewrite Hleaf. apply vfin_5_ne. lra.
  - destruct (ik_solve_chain5 w_pose 5 0 10) as (w' & Hrun & Hroot & Hleaf);
      [lra|reflexivity|reflexivity|reflexivity|].
    exists w'. split; [done|]. split; [done|]. split; [done|].
    rewrite Hleaf. apply vfin_5_ne. lra.
Qed.


(** Proves [path_fin] of a concrete store and path. *)
Ltac path_fin_tac :=
  let a := fresh "a" in
  let Ha := fresh "Ha" in
  intros a Ha; unfold path_addrs in Ha; simpl in Ha;
  repeat (apply elem_of_cons in Ha as [->|Ha];
          [eexists _, _, _, _; repeat split; reflexivity|]);
  by apply elem_of_nil in Ha.





Lemma norm2_0 : norm2 (0 - 0) (0 - 0) = 0%R.
Proof. apply norm2_zero. lra. Qed.

(** Against C2.  The leaf is sent onto the root: the backward pass puts it
    there, the forward pass finds it on its target, the root, and leaves it:
    the segment of length 5 has the length 0 afterwards. *)
Lemma ik_solve_leaf_onto_root :
  exists w',
    ik_solve 4 (Some 1%nat) (Fin 0) (Fin 0) w_pose = Ok (1%Z, w') /\
    vdist (pos (joints w_pose) 1%nat) (pos (joints w_pose) 0%nat) = Fin 5 /\
    len (joints w') 1%nat = Fin 5 /\
    vdist (pos (joints w') 1%nat) (pos (joints w') 0%nat) = Fin 0 /\
    vdist (pos (joints w') 1%nat) (pos (joints w') 0%nat)
    <> len (joints w') 1%nat.
Proof.
  destruct (ik_solve_chain2 w_pose 0%nat 1%nat 4 0 0 5 0 5 5 0 0)
    as (w' & Hrun & Hlk & Hroot & Hleaf);
    [reflexivity|reflexivity|lia|unfold IK_STACK_SIZE; simpl; lia|].
  rewrite move_fin_on in Hleaf.
  assert (Hlen : len (joints w') 1%nat = Fin 5).
  { destruct (same_links_lookup _ _ 1%nat _ Hlk eq_refl) as (j' & Hj' & Heq).
    unfold len. rewrite Hj'. simpl. unfold links in Heq. by simplify_eq. }
  exists w'. split; [done|]. split; [|split; [done|]].
  - change (pos (joints w_pose) 1%nat) with (vfin 5 0).
    change (pos (joints w_pose) 0%nat) with (vfin 0 0).
    rewrite vdist_fin. f_equal. apply norm2_eq; lra.
  - rewrite Hleaf, Hroot, Hlen, vdist_fin, norm2_0. split; [done|].
    intros Heq. injection Heq as Heq. lra.
Qed.







(** A tree with a branch of two joints off the path: joint 1 hangs on the
    root and carries the leaf 2 and the branch of joints 3 and 4. *)
Definition w_tree5 : world xreal :=
  World (list_to_map
    [(0%nat, Joint (vfin 0 0) (Fin 1) NULL [Some 1%nat]);
     (1%nat, Joint (vfin 1 0) (Fin 1) (Some 0%nat) [Some 2%nat; Some 3%nat]);
     (2%nat, Joint (vfin 2 0) (Fin 1) (Some 1%nat) []);
     (3%nat, Joint (vfin 1 1) (Fin 1) (Some 1%nat) [Some 4%nat]);
     (4%nat, Joint (vfin 1 2) (Fin 1) (Some 3%nat) [])]) [] 0 0.

Definition p_tree5 : list frame :=
  [Frame 0 [] []; Frame 1 [] [Sh 3 [Sh 4 []]]].

Lemma w_tree5_pos :
  pos (joints w_tree5) 0%nat = vfin 0 0 /\
  pos (joints w_tree5) 1%nat = vfin 1 0 /\
  len (joints w_tree5) 2%nat = Fin 1 /\
  pos (joints w_tree5) 3%nat = vfin 1 1 /\
  pos (joints w_tree5) 4%nat = vfin 1 2.
Proof. repeat split; reflexivity. Qed.

(** The tree of five joints, the leaf 2 sent to (1, 2): the backward pass
    takes joint 1 to (1, 1), and the forward pass to the point at distance 1
    from the root on the way there.  Joint 1 is never on the root, and the
    branch of the joints 3 and 4 is turned about it. *)
Lemma w_tree5_passes w1 w' :
  ik_reach_back 8 (Some 2%nat) (Fin 1) (Fin 2) fzero w_tree5
  = Ok ((Some 0%nat, Fin 0, Fin 0), w1) ->
  ik_solve 8 (Some 2%nat) (Fin 1) (Fin 2) w_tree5 = Ok (1%Z, w') ->
  pos (joints w1) 1%nat = vfin 1 1 /\
  pos (joints w1) 2%nat = vfin 1 2 /\
  pos (joints w') 0%nat = vfin 0 0 /\
  exists bx by_, pos (joints w') 1%nat = vfin bx by_ /\ (0 < bx < 1)%R.
Proof.
  pose proof (ik_solve_exact_passes p_tree5 [] 2%nat w_tree5 8 1 2
    ltac:(tree_tac) ltac:(compute_done) ltac:(constructor) ltac:(simpl; lia)
    ltac:(unfold IK_STACK_SIZE; simpl; lia) ltac:(path_fin_tac)) as Hex.
  destruct Hex as (w1' & w'' & Hback' & Hrun' & Hl1 & Hl2 & Hb & Hf & _ & _
                   & _ & _ & Hroot & Hlk).
  change (ik_reach_back 8 (Some 2%nat) (Fin 1) (Fin 2) fzero w_tree5
          = Ok ((Some 0%nat, Fin 0, Fin 0), w1')) in Hback'.
  change (ik_solve 8 (Some 2%nat) (Fin 1) (Fin 2) w_tree5 = Ok (1%Z, w''))
    in Hrun'.
  intros Hback Hrun.
  rewrite Hback' in Hback. injection Hback as ->.
  rewrite Hrun' in Hrun. injection Hrun as ->.
  clear Hback' Hrun'.
  destruct w_tree5_pos as (P0 & P1 & L2 & P3 & P4).
  destruct Hb as (_ & Hn1 & Hn2).
  cbn [plug fill p_tree5 root_addr f_addr f_sibs f_left f_right app kids_of
       fmap option_fmap option_map back_rel] in Hn1, Hn2.
  assert (A1 : is_Some (joints w_tree5 !! 1%nat)) by (by eexists).
  assert (A2 : is_Some (joints w_tree5 !! 2%nat)) by (by eexists).
  assert (H2 : pos (joints w1) 2%nat = vfin 1 2).
  { rewrite (node_rel_pos_self _ _ _ _ _ _ _ _ Hn2 A2). apply move_to_zero. }
  assert (H1 : pos (joints w1) 1%nat = vfin 1 1).
  { rewrite (node_rel_pos_self _ _ _ _ _ _ _ _ Hn1 A1).
    rewrite H2, P1, L2. simpl x. simpl y.
    rewrite move_fin_off by (right; lra).
    replace (norm2 (1 - 1) (0 - 2)) with 2%R
      by (symmetry; apply norm2_eq; lra).
    unfold vfin. f_equal; f_equal; lra. }
  assert (H0 : pos (joints w') 0%nat = vfin 0 0) by (by rewrite <- P0).
  split; [done|]. split; [done|]. split; [done|].
  assert (L1 : len (joints w_tree5) 1%nat = Fin 1) by reflexivity.
  pose proof (Hlk 0%nat 1%nat ltac:(left)) as Hp1.
  rewrite H1, H0, L1 in Hp1. simpl x in Hp1. simpl y in Hp1.
  rewrite move_fin_off in Hp1 by (left; lra).
  eexists _, _. split; [exact Hp1|].
  pose proof (norm2_sqr (1 - 0) (1 - 0)) as Hs.
  pose proof (norm2_nonneg (1 - 0) (1 - 0)) as Hn.
  set (n := norm2 (1 - 0) (1 - 0)) in *.
  assert (Hn1' : (1 < n)%R) by nra.
  replace (0 + 1 * (1 - 0) / n)%R with (/ n)%R by (field; lra).
  split.
  - apply Rinv_0_lt_compat. lra.
  - rewrite <- Rinv_1. apply Rinv_lt_contravar; lra.
Qed.

Lemma w_tree5_in_place w1 w' :
  ik_reach_back 8 (Some 2%nat) (Fin 1) (Fin 2) fzero w_tree5
  = Ok ((Some 0%nat, Fin 0, Fin 0), w1) ->
  ik_solve 8 (Some 2%nat) (Fin 1) (Fin 2) w_tree5 = Ok (1%Z, w') ->
  (forall p, (p, 1%nat) ∈ path_links p_tree5 (Sh 2 []) ->
     off_parent (joints w_tree5) (joints w1) (joints w') 1%nat p) /\
  pos (joints w1) 1%nat <> pos (joints w') 0%nat /\
  pos (joints w1) 2%nat <> pos (joints w') 1%nat.
Proof.
  intros Hback Hrun.
  destruct (w_tree5_passes w1 w' Hback Hrun)
    as (H1 & H2 & H0 & bx & by_ & Hb & Hbx).
  clear Hback Hrun.
  destruct w_tree5_pos as (P0 & P1 & _).
  split; [|split].
  - intros p Hp. simpl in Hp.
    apply elem_of_cons in Hp as [[= ->]|Hp].
    + unfold off_parent. rewrite P0, P1, H1, H0, Hb.
      repeat split; intros Heq; apply (f_equal x) in Heq; simpl in Heq;
        injection Heq as Hx; lra.
    + apply elem_of_cons in Hp as [Heq|Hp]; [by simplify_eq|].
      by apply elem_of_nil in Hp.
  - rewrite H1, H0. intros Heq. apply (f_equal x) in Heq. simpl in Heq.
    injection Heq as Hx. lra.
  - rewrite H2, Hb. intros Heq. apply (f_equal x) in Heq. simpl in Heq.
    injection Heq as Hx. lra.
Qed.

Lemma w_tree5_lengths :
  len (joints w_tree5) 1%nat = Fin 1 /\
  len (joints w_tree5) 2%nat = Fin 1 /\
  vdist (pos (joints w_tree5) 3%nat) (pos (joints w_tree5) 1%nat) = Fin 1 /\
  vdist (pos (joints w_tree5) 4%nat) (pos (joints w_tree5) 3%nat) = Fin 1 /\
  vdist (pos (joints w_tree5) 3%nat) (pos (joints w_tree5) 4%nat) = Fin 1.
Proof.
  destruct w_tree5_pos as (P0 & P1 & L2 & P3 & P4).
  split; [reflexivity|]. split; [reflexivity|].
  rewrite P1, P3, P4, !vdist_fin.
  repeat split; f_equal; apply norm2_eq; lra.
Qed.

Lemma fin_abs_1 (a : xreal) ln : a = Fin ln -> a = Fin 1 -> Fin (Rabs ln) = Fin 1.
Proof. intros -> [= ->]. f_equal. apply Rabs_pos_eq. lra. Qed.

(** C2, amended, at the tree of five joints, the leaf 2 sent to (1, 2): the
    two segments of the path have their length 1 after the call, and so
    have the two segments of the branch that is turned about joint 1. *)
Lemma ik_solve_segment_lengths_witness :
  (exists w1 w',
     ik_reach_back 8 (Some 2%nat) (Fin 1) (Fin 2) fzero w_tree5
     = Ok ((Some 0%nat, Fin 0, Fin 0), w1) /\
     ik_solve 8 (Some 2%nat) (Fin 1) (Fin 2) w_tree5 = Ok (1%Z, w') /\
     vdist (pos (joints w') 1%nat) (pos (joints w') 0%nat) = Fin 1 /\
     vdist (pos (joints w') 2%nat) (pos (joints w') 1%nat) = Fin 1 /\
     vfinite (pos (joints w') 3%nat) /\ vfinite (pos (joints w') 4%nat) /\
     vdist (pos (joints w') 3%nat) (pos (joints w') 1%nat) = Fin 1 /\
     vdist (pos (joints w') 4%nat) (pos (joints w') 3%nat) = Fin 1) /\
  (exists w',
     ik_translate 8 (Some 0%nat) (Fin 1) (Fin 2) w_tree5 = Ok (tt, w') /\
     pos (joints w') 0%nat = vfin 1 2 /\
     (forall u v, u ∈ [0; 1; 2; 3; 4]%nat -> v ∈ [0; 1; 2; 3; 4]%nat ->
        vfinite (pos (joints w_tree5) u) -> vfinite (pos (joints w_tree5) v) ->
        vdist (pos (joints w') v) (pos (joints w') u)
        = vdist (pos (joints w_tree5) v) (pos (joints w_tree5) u))).
Proof.
  destruct (ik_solve_segment_lengths p_tree5 [] 2%nat w_tree5 8 1 2)
    as [(w1 & w' & Hback & Hrun & Hpath & Hbranch) Htr].
  - tree_tac.
  - compute_done.
  - constructor.
  - simpl. lia.
  - unfold IK_STACK_SIZE. simpl. lia.
  - path_fin_tac.
  - destruct (w_tree5_in_place w1 w' Hback Hrun) as (Hoff & H10 & H21).
    destruct w_tree5_lengths as (L1 & L2 & D31 & D43 & _).
    destruct (Hpath 0%nat 1%nat) as (ln1 & Hln1 & Hd1 & _); [left|].
    destruct (Hpath 1%nat 2%nat) as (ln2 & Hln2 & Hd2 & _); [right; left|].
    destruct (Hbranch (Frame 1 [] [Sh 3 [Sh 4 []]])
                ltac:(right; left) Hoff 1%nat 3%nat)
      as (_ & Hf3 & Hd31); [compute_done|compute_done|by eexists _, _..|].
    destruct (Hbranch (Frame 1 [] [Sh 3 [Sh 4 []]])
                ltac:(right; left) Hoff 3%nat 4%nat)
      as (_ & Hf4 & Hd43); [compute_done|compute_done|by eexists _, _..|].
    split; [|exact Htr].
    exists w1, w'. split; [exact Hback|]. split; [exact Hrun|].
    split; [rewrite (Hd1 H10); exact (fin_abs_1 _ _ Hln1 L1)|].
    split; [rewrite (Hd2 H21); exact (fin_abs_1 _ _ Hln2 L2)|].
    split; [exact Hf3|]. split; [exact Hf4|].
    split; [by rewrite Hd31|by rewrite Hd43].
Defined.

(** Sibling rigidity at the same call: the branch of the joints 3 and 4 is
    turned about joint 1 and taken where joint 1 ends. *)
Lemma ik_solve_sibling_rigid_witness :
  exists w1 w' ex' ey' c s,
    ik_reach_back 8 (Some 2%nat) (Fin 1) (Fin 2) fzero w_tree5
    = Ok ((Some 0%nat, Fin 0, Fin 0), w1) /\
    ik_solve 8 (Some 2%nat) (Fin 1) (Fin 2) w_tree5 = Ok (1%Z, w') /\
    pos (joints w') 1%nat = vfin ex' ey' /\
    (c * c + s * s = 1)%R /\
    pos (joints w') 3%nat
    = vfin (c * (1 - 1) - s * (1 - 0) + ex') (s * (1 - 1) + c * (1 - 0) + ey') /\
    pos (joints w') 4%nat
    = vfin (c * (1 - 1) - s * (2 - 0) + ex') (s * (1 - 1) + c * (2 - 0) + ey') /\
    vdist (pos (joints w') 3%nat) (pos (joints w') 4%nat) = Fin 1.
Proof.
  destruct (ik_solve_sibling_rigid p_tree5 [] 2%nat w_tree5 8 1 2)
    as (w1 & w' & Hback & Hrun & Hframe).
  - tree_tac.
  - compute_done.
  - constructor.
  - simpl. lia.
  - unfold IK_STACK_SIZE. simpl. lia.
  - path_fin_tac.
  - destruct (w_tree5_in_place w1 w' Hback Hrun) as (Hoff & _ & _).
    destruct w_tree5_lengths as (_ & _ & _ & _ & D34).
    destruct (Hframe (Frame 1 [] [Sh 3 [Sh 4 []]]) ltac:(right; left) Hoff)
      as (ex & ey & ex' & ey' & c & s & He & He' & Hcs & Hq & Hd).
    injection He as <- <-.
    exists w1, w', ex', ey', c, s.
    split; [exact Hback|]. split; [exact Hrun|]. split; [exact He'|].
    split; [exact Hcs|].
    split; [apply (Hq 3%nat); [compute_done|reflexivity]|].
    split; [apply (Hq 4%nat); [compute_done|reflexivity]|].
    rewrite Hd; [exact D34|compute_done|compute_done|by eexists _, _..].
Defined.

(** C5, at a failing input.  The leaf 2 is sent to (-1, 0): the backward
    pass moves joint 1 onto the root, [ik_align_branch] divides 0 by 0 for
    the branch of the joints 3 and 4, and the two are nowhere afterwards;
    their distance, 1 before the call, is undefined after it. *)
Lemma ik_solve_branch_undefined :
  exists w',
    ik_solve 8 (Some 2%nat) (Fin (-1)) (Fin 0) w_tree5 = Ok (1%Z, w') /\
    vdist (pos (joints w_tree5) 3%nat) (pos (joints w_tree5) 4%nat) = Fin 1 /\
    vdist (pos (joints w') 3%nat) (pos (joints w') 4%nat) = NaN /\
    vdist (pos (joints w') 3%nat) (pos (joints w') 4%nat)
    <> vdist (pos (joints w_tree5) 3%nat) (pos (joints w_tree5) 4%nat).
Proof.
  destruct w_tree5_pos as (P0 & P1 & L2 & P3 & P4).
  destruct (ik_solve_exact p_tree5 [] 2%nat w_tree5 8 (-1) 0)
    as (h1 & w' & Hrun & Hl1 & Hl2 & Hb & Hf & _ & _ & _ & _ & _ & _);
    [tree_tac|compute_done|constructor|simpl; lia|
     unfold IK_STACK_SIZE; simpl; lia|path_fin_tac|].
  destruct Hb as (_ & Hn1 & Hn2). destruct Hf as (_ & Hn1' & _).
  cbn [plug fill p_tree5 root_addr f_addr f_sibs f_left f_right app kids_of
       fmap option_fmap option_map back_rel] in Hn1, Hn2, Hn1'.
  assert (A1 : is_Some (joints w_tree5 !! 1%nat)) by (by eexists).
  assert (A2 : is_Some (joints w_tree5 !! 2%nat)) by (by eexists).
  assert (A3 : is_Some (joints w_tree5 !! 3%nat)) by (by eexists).
  assert (H2 : pos h1 2%nat = vfin (-1) 0).
  { rewrite (node_rel_pos_self _ _ _ _ _ _ _ _ Hn2 A2). apply move_to_zero. }
  assert (H1 : pos h1 1%nat = vfin 0 0).
  { rewrite (node_rel_pos_self _ _ _ _ _ _ _ _ Hn1 A1).
    rewrite H2, P1, L2. simpl x. simpl y.
    rewrite move_fin_right by lra. unfold vfin. do 2 f_equal. lra. }
  rewrite P0 in Hn1.
  assert (H3 : ~ vfinite (pos h1 3%nat)).
  { apply (node_rel_onto_parent _ _ _ _ _ _ _ 0 0 _ Hn1 H1); [|done].
    compute_done. }
  assert (H3' : ~ vfinite (pos (joints w') 3%nat)).
  { apply (node_rel_undefined _ _ _ _ _ _ _ _ _ Hn1'); [compute_done| |done].
    by eapply same_links_alloc. }
  assert (Hbefore : vdist (pos (joints w_tree5) 3%nat) (pos (joints w_tree5) 4%nat)
                    = Fin 1).
  { rewrite P3, P4, vdist_fin. f_equal. apply norm2_eq; lra. }
  exists w'. split; [done|]. split; [done|].
  rewrite (vdist_undefined _ _ H3'), Hbefore. split; [reflexivity|discriminate].
Qed.

(** *** The examples in binary32 *)

(** The chain of the specification, the leaf sent to (10, 0): every
    operation is exact, and the leaf ends at (5, 0) as in exact
    arithmetic. *)
Lemma ik_solve_example_far_f32 :
  exists w',
    (rl <- build_chain (f32_of_Z 5) ;;
     ik_solve 4 rl.2 (f32_of_Z 10) (f32_of_Z 0)) w_empty
    = Ok (1%Z, w') /\
    pos (joints w') 0%nat = v32 0 0 /\
    pos (joints w') 1%nat = v32 5 0.
Proof.
  eexists. split; [vm_compute; reflexivity|].
  split; vm_compute; reflexivity.
Qed.



Definition w_tree5_32 : world f32 :=
  World (list_to_map
    [(0%nat, Joint (v32 0 0) (f32_of_Z 1) NULL [Some 1%nat]);
     (1%nat, Joint (v32 1 0) (f32_of_Z 1) (Some 0%nat) [Some 2%nat; Some 3%nat]);
     (2%nat, Joint (v32 2 0) (f32_of_Z 1) (Some 1%nat) []);
     (3%nat, Joint (v32 1 1) (f32_of_Z 1) (Some 1%nat) [Some 4%nat]);
     (4%nat, Joint (v32 1 2) (f32_of_Z 1) (Some 3%nat) [])]) [] 0 0.

(** The tree with the branch, the leaf sent to (-1, 0): the joints of the
    branch are not-a-numbers afterwards, and joint 1 is on the root. *)
Lemma ik_solve_branch_nan_f32 :
  exists w',
    ik_solve 8 (Some 2%nat) (f32_of_Z (-1)) (f32_of_Z 0) w_tree5_32
    = Ok (1%Z, w') /\
    pos (joints w') 0%nat = v32 0 0 /\
    pos (joints w') 1%nat = v32 0 0 /\
    pos (joints w') 2%nat = v32 (-1) 0 /\
    pos (joints w') 3%nat = Vec2 S754_nan S754_nan /\
    pos (joints w') 4%nat = Vec2 S754_nan S754_nan.
Proof.
  eexists. split; [vm_compute; reflexivity|].
  repeat (split; [vm_compute; reflexivity|]). vm_compute. reflexivity.
Qed.

(** The same tree as the interface builds it, every joint at (0, 0) and of
    segment length 1. *)
Definition build_tree {F} `{Num F} (len : F)
    : M (world F) (pointer * pointer * pointer) :=
  ik_init ;;
  r <- ik_new_joint len 1 ;;
  b <- ik_new_joint len 2 ;;
  c <- ik_new_joint len 0 ;;
  s <- ik_new_joint len 1 ;;
  s2 <- ik_new_joint len 0 ;;
  _ <- ik_attach_joint b r ;;
  _ <- ik_attach_joint c b ;;
  _ <- ik_attach_joint s b ;;
  _ <- ik_attach_joint s2 s ;;
  ret (c, s, s2).

(** The first [ik_solve] on the tree as built, the leaf sent to (3, 0): the
    joint that carries the branch is on its parent, the alignment divides 0
    by 0, and the joints of the branch are not-a-numbers afterwards. *)
Lemma ik_solve_fresh_tree_nan_f32 :
  exists w',
    (j <- build_tree (f32_of_Z 1) ;;
     ik_solve 8 j.1.1 (f32_of_Z 3) (f32_of_Z 0)) w_empty
    = Ok (1%Z, w') /\
    pos (joints w') 1%nat = v32 1 0 /\
    pos (joints w') 2%nat = v32 2 0 /\
    pos (joints w') 3%nat = Vec2 S754_nan S754_nan /\
    pos (joints w') 4%nat = Vec2 S754_nan S754_nan.
Proof.
  eexists. split; [vm_compute; reflexivity|].
  repeat (split; [vm_compute; reflexivity|]). vm_compute. reflexivity.
Qed.

(** ** What the functions leave alone *)

Section Frame.
Context {F : Type} {num : Num F}.
Local Open Scope num_scope.

Local Abbreviation vec2 := (ik_vec2 F).
Local Abbreviation joint := (ik_joint F).
Local Abbreviation heap := (gmap addr (ik_joint F)).
Local Abbreviation W := (world F).

Lemma frames_ids_in_plug fs t a : a ∈ frames_ids fs -> a ∈ ids (plug fs t).
Proof. intros Ha. rewrite ids_plug_perm. apply elem_of_app. by left. Qed.

Lemma ids_in_plug fs t a : a ∈ ids t -> a ∈ ids (plug fs t).
Proof. intros Ha. rewrite ids_plug_perm. apply elem_of_app. by right. Qed.

(** [ik_solve] writes positions only, and only of joints of the tree: the
    segment length, the parent and the child slots of every joint are what
    they were, no joint appears or disappears, a joint that is not in the
    tree of the effected joint is not touched, and the path stack is as
    deep as at entry, with the same entries. *)
Theorem ik_solve_keeps_structure fs gs l (w : W) fuel tx ty :
  let te := plug gs (Sh l []) in
  let T := plug fs te in
  is_tree (joints w) None T ->
  NoDup (ids T) ->
  Forall (fun f => f_sibs f = []) gs ->
  (2 * height T <= fuel)%nat ->
  (List.length (path_stack fs te) + List.length (ik_stack w) <= IK_STACK_SIZE)%nat ->
  exists w',
    ik_solve fuel (Some (root_addr te)) tx ty w = Ok (1%Z, w') /\
    ik_stack w' = ik_stack w /\
    dom (joints w') = dom (joints w) /\
    (forall a j, joints w !! a = Some j ->
       exists j', joints w' !! a = Some j' /\
         seg_length j' = seg_length j /\ parent j' = parent j /\
         children j' = children j) /\
    (forall a, a ∉ ids T -> joints w' !! a = joints w !! a).
Proof.
  intros te T Ht Hnd Hgs Hfuel Hcap.
  destruct (ik_solve_tree fs gs l w fuel tx ty)
    as (h1 & w' & Hrun & Hl1 & Hl2 & Hst & _ & Hu1 & _ & _ & Hu2); [done..|].
  fold te T in Hu1.
  assert (Hl : same_links (joints w) (joints w'))
    by (by eapply same_links_trans).
  exists w'. split; [done|]. split; [done|]. split; [|split].
  - unfold same_links in Hl.
    rewrite <- (dom_fmap_L links (joints w')), Hl. apply dom_fmap_L.
  - intros a j Hj. destruct (same_links_lookup _ _ _ _ Hl Hj) as (j' & Hj' & Heq).
    exists j'. unfold links in Heq. by simplify_eq.
  - intros a Ha.
    assert (HT : T = plug (fs ++ gs) (Sh l []))
      by (unfold T, te; by rewrite plug_app).
    rewrite Hu2, Hu1; [done| | | |].
    + intros Hin. apply Ha. by apply frames_ids_in_plug.
    + intros ->. apply Ha. apply ids_in_plug. apply root_in_ids.
    + intros Hin. apply Ha. rewrite HT. by apply frames_ids_in_plug.
    + intros ->. apply Ha. rewrite HT. apply ids_in_plug. left.
Qed.

(** [ik_translate_relative] on a tree moves every joint of the tree by
    (dx, dy), once, and touches nothing else. *)
Theorem ik_translate_relative_moves_tree (w : W) t par fuel dx dy :
  is_tree (joints w) par t ->
  NoDup (ids t) ->
  (height t <= fuel)%nat ->
  exists w',
    ik_translate_relative fuel (Some (root_addr t)) dx dy w = Ok (tt, w') /\
    ik_stack w' = ik_stack w /\
    (forall a j, a ∈ ids t -> joints w !! a = Some j ->
       joints w' !! a
       = Some (Joint (Vec2 (x (position j) ⊕ dx) (y (position j) ⊕ dy))
                 (seg_length j) (parent j) (children j))) /\
    (forall a, a ∉ ids t -> joints w' !! a = joints w !! a).
Proof.
  intros Ht Hnd Hh. eexists. split.
  { rewrite ik_translate_relative_map. by eapply map_branch_tree. }
  split; [done|]. rewrite joints_set_joints. split.
  - intros a j Ha Hj. by rewrite map_pos_lookup_in, Hj.
  - intros a Ha. by apply map_pos_lookup_notin.
Qed.

(** [ik_init] before [ik_solve]: whatever the path stack held, and however
    full it was, the call returns 1 and leaves the stack empty, as long as
    the path itself has no more than [IK_STACK_SIZE] joints with more than
    one child. *)
Theorem ik_init_solve fs gs l (w : W) fuel tx ty :
  let te := plug gs (Sh l []) in
  let T := plug fs te in
  is_tree (joints w) None T ->
  NoDup (ids T) ->
  Forall (fun f => f_sibs f = []) gs ->
  (2 * height T <= fuel)%nat ->
  (List.length (path_stack fs te) <= IK_STACK_SIZE)%nat ->
  exists w',
    (ik_init ;; ik_solve fuel (Some (root_addr te)) tx ty) w = Ok (1%Z, w') /\
    ik_stack w' = [] /\
    dom (joints w') = dom (joints w).
Proof.
  intros te T Ht Hnd Hgs Hfuel Hcap.
  set (w0 := World (joints w) [] (pushes w) (pops w)).
  destruct (ik_solve_tree fs gs l w0 fuel tx ty)
    as (h1 & w' & Hrun & Hl1 & Hl2 & Hst & _); [done|done|done|done| |].
  { unfold w0. cbn [ik_stack List.length]. rewrite Nat.add_0_r. exact Hcap. }
  assert (Hl : same_links (joints w) (joints w'))
    by (by eapply same_links_trans).
  exists w'. split; [exact Hrun|]. split; [exact Hst|].
  unfold same_links in Hl.
  rewrite <- (dom_fmap_L links (joints w')), Hl. apply dom_fmap_L.
Qed.

End Frame.

(** ** The path stack *)

Section Stack.
Context {F : Type} {num : Num F}.

Local Abbreviation W := (world F).

(** [n] calls of [ik_stack_pop], the results in the order of the calls. *)
Fixpoint pop_n (n : nat) : M W (list pointer) :=
  match n with
  | O => ret []
  | S n => j <- ik_stack_pop ;; js <- pop_n n ;; ret (j :: js)
  end.

Lemma push_all_Ok (js : list pointer) : forall w : W,
  (List.length js + List.length (ik_stack w) <= IK_STACK_SIZE)%nat ->
  for_each js ik_stack_push w
  = Ok (tt, World (joints w) (rev js ++ ik_stack w)
              (pushes w + List.length js) (pops w)).
Proof.
  induction js as [|j js IH]; intros w Hcap; simpl.
  - rewrite Nat.add_0_r. by destruct w.
  - unfold bind at 1. unfold ik_stack_push at 1.
    simpl in Hcap. destruct (decide _) as [_|Hn]; [|lia].
    rewrite IH by (simpl; lia). simpl.
    by rewrite <- (assoc_L (++)), Nat.add_succ_r.
Qed.

Lemma pop_n_app (js : list pointer) : forall (w : W),
  pop_n (List.length js)
    (World (joints w) (js ++ ik_stack w) (pushes w) (pops w))
  = Ok (js, World (joints w) (ik_stack w) (pushes w)
              (pops w + List.length js)).
Proof.
  induction js as [|j js IH]; intros w; simpl.
  - rewrite Nat.add_0_r. done.
  - unfold bind at 1. simpl.
    pose proof (IH (World (joints w) (ik_stack w) (pushes w) (S (pops w)))) as H.
    simpl in H. unfold bind. rewrite H. simpl. by rewrite Nat.add_succ_r.
Qed.

(** The path stack is last in, first out: after the pointers [js] are
    pushed, within the capacity, the top is the last of them, as many pops
    give them back in reverse order, and the stack below is what it was. *)
Theorem ik_stack_lifo (js : list pointer) (w : W) :
  (List.length js + List.length (ik_stack w) <= IK_STACK_SIZE)%nat ->
  exists w1 w2,
    for_each js ik_stack_push w = Ok (tt, w1) /\
    ik_stack_top w1 = Ok (default NULL (head (rev js ++ ik_stack w)), w1) /\
    pop_n (List.length js) w1 = Ok (rev js, w2) /\
    ik_stack w2 = ik_stack w /\ joints w2 = joints w.
Proof.
  intros Hcap. rewrite push_all_Ok by done.
  eexists _, _. split; [done|]. split.
  { unfold ik_stack_top. simpl. by destruct (rev js ++ ik_stack w). }
  pose proof (pop_n_app (rev js)
    (World (joints w) (ik_stack w) (pushes w + List.length js) (pops w))) as H.
  simpl in H. rewrite length_rev in H. by rewrite H.
Qed.

(** [ik_stack_push] has no bounds check: the push that would be entry
    number [IK_STACK_SIZE] + 1 writes beyond the array. *)
Theorem ik_stack_overflow (js : list pointer) (w : W) :
  (List.length (ik_stack w) <= IK_STACK_SIZE)%nat ->
  (IK_STACK_SIZE < List.length js + List.length (ik_stack w))%nat ->
  for_each js ik_stack_push w = Fault StackOverflow.
Proof.
  revert w. induction js as [|j js IH]; intros w Hin Hcap; simpl in *; [lia|].
  unfold bind. unfold ik_stack_push at 1.
  destruct (decide _) as [Hlt|Hn]; [|done].
  apply IH; simpl; lia.
Qed.

End Stack.

(** ** Empty child slots *)

Section Slots.
Context {F : Type} {num : Num F}.
Local Open Scope num_scope.

Local Abbreviation vec2 := (ik_vec2 F).
Local Abbreviation joint := (ik_joint F).
Local Abbreviation heap := (gmap addr (ik_joint F)).
Local Abbreviation W := (world F).

Lemma for_each_skip {A} (l : list A) (f : A -> M W unit) (w : W) :
  (forall a w, a ∈ l -> f a w = Ok (tt, w)) -> for_each l f w = Ok (tt, w).
Proof.
  induction l as [|a l IH]; intros Hf; [done|].
  simpl. unfold bind. rewrite Hf by left. apply IH.
  intros b w' Hb. apply Hf. by right.
Qed.

(** [ik_translate_relative] reads every child slot as a joint: at the first
    empty slot of the root, after the branches in the slots before it, it
    reads a field of [NULL]. *)
Theorem ik_translate_relative_empty_slot (w : W) r j kids rest fuel dx dy :
  joints w !! r = Some j ->
  children j = slots_of kids ++ NULL :: rest ->
  Forall (is_tree (joints w) (Some r)) kids ->
  NoDup (r :: ids_list kids) ->
  Forall (fun k => height k <= fuel)%nat kids ->
  (0 < fuel)%nat ->
  ik_translate_relative (S fuel) (Some r) dx dy w = Fault NullDeref.
Proof.
  intros Hj Hc Hk Hnd Hh Hfuel.
  rewrite ik_translate_relative_map. simpl.
  erewrite bind_Ok by (by apply load_Some).
  unfold store_position. erewrite bind_Ok by (by apply modify_Some).
  rewrite Hc, for_each_app.
  set (g := fun p : vec2 => Vec2 (x p ⊕ dx) (y p ⊕ dy)).
  set (w1 := set_joints _ w).
  assert (Hl : same_links (joints w) (joints w1)).
  { unfold w1. rewrite joints_set_joints. by apply (same_links_insert _ _ j). }
  erewrite bind_Ok; cycle 1.
  { apply (map_branch_kids g fuel (Some r)); [|by eapply Forall_impl; [exact Hk|]; intros; eapply is_tree_same_links|done].
    intros t par w' Ht Hht. by eapply map_branch_tree. }
  simpl. destruct fuel as [|fuel]; [lia|]. done.
Qed.

(** [ik_solve] on a joint without a parent whose slots are all empty (it was
    created with room for children and none was attached): the forward pass
    takes the path child from a slot, or from the empty stack, and reads the
    length of [NULL]. *)
Theorem ik_solve_empty_slots (w : W) e j n fuel tx ty :
  joints w !! e = Some j ->
  parent j = NULL ->
  children j = replicate (S n) NULL ->
  ik_stack w = [] ->
  ik_solve (S fuel) (Some e) tx ty w = Fault NullDeref.
Proof.
  intros Hj Hp Hc Hs.
  set (w1 := set_joints
         (<[e := set_position (move_within_dist (position j) fzero tx ty) j]>
            (joints w)) w).
  assert (Hj1 : joints w1 !! e
                = Some (set_position (move_within_dist (position j) fzero tx ty) j)).
  { unfold w1. by rewrite joints_set_joints, lookup_insert_eq. }
  assert (Hnull : forall a, a ∈ children j -> a = NULL).
  { intros a Ha. rewrite Hc in Ha. by apply elem_of_replicate in Ha as [-> _]. }
  assert (Hback : ik_reach_back (S fuel) (Some e) tx ty fzero w
                  = Ok ((Some e, x (position j), y (position j)), w1)).
  { rewrite ik_reach_back_unfold.
    erewrite bind_Ok by (by apply load_Some).
    erewrite bind_Ok by (by apply ik_move_within_dist_Some).
    fold w1. erewrite bind_Ok; cycle 1.
    { unfold when. case_bool_decide; [|done].
      rewrite bind_top. unfold w1 at 1. simpl ik_stack. rewrite Hs. simpl.
      unfold align_children. rewrite Hp. apply for_each_skip.
      intros a w2 Ha. rewrite (Hnull a Ha).
      by rewrite bool_decide_false by (by intros []). }
    by rewrite Hp. }
  unfold ik_solve. erewrite bind_Ok by exact Hback. cbn beta iota zeta.
  erewrite bind_Fault; [done|].
  set (j1 := set_position (move_within_dist (position j) fzero tx ty) j) in *.
  assert (Hc1 : children j1 = children j) by done.
  assert (Hp1 : parent j1 = NULL) by done.
  assert (Hn : n_children j1 = S n)
    by (unfold n_children; by rewrite Hc1, Hc, length_replicate).
  rewrite ik_reach_forward_unfold.
  erewrite bind_Ok by (by apply load_Some).
  erewrite bind_Ok by (by apply ik_move_within_dist_Some).
  rewrite Hn, bool_decide_false by lia.
  destruct n as [|n].
  - rewrite bool_decide_false by lia. by rewrite Hc1, Hc.
  - rewrite bool_decide_true by lia.
    erewrite bind_Ok; cycle 1.
    { rewrite bind_pop_nil by done.
      erewrite bind_Ok; [done|].
      unfold align_children. rewrite Hp1, Hc1. apply for_each_skip.
      intros a w2 Ha. rewrite (Hnull a Ha).
      by rewrite bool_decide_false by (by intros []). }
    done.
Qed.

End Slots.

(** ** Building a tree with the interface *)

Section Build.
Context {F : Type} {num : Num F}.
Local Open Scope num_scope.

Local Abbreviation vec2 := (ik_vec2 F).
Local Abbreviation joint := (ik_joint F).
Local Abbreviation heap := (gmap addr (ik_joint F)).
Local Abbreviation W := (world F).

(** [ik_attach_joint] for each of [cs] in turn, to the same parent; the
    results in the order of the calls. *)
Fixpoint attach_each (cs : list pointer) (p : pointer) : M W (list Z) :=
  match cs with
  | [] => ret []
  | c :: cs' =>
      r <- ik_attach_joint c p ;;
      rs <- attach_each cs' p ;;
      ret (r :: rs)
  end.

(** A joint is created with a slot for each of the trees [kids], and their
    roots are attached to it, in order. *)
Definition new_node (len : F) (kids : list shape) : M W (pointer * list Z) :=
  p <- ik_new_joint len (List.length kids) ;;
  rs <- attach_each (slots_of kids) p ;;
  ret (p, rs).

Lemma is_tree_agree (h h' : heap) t : forall par,
  (forall a, a ∈ ids t -> h' !! a = h !! a) ->
  is_tree h par t -> is_tree h' par t.
Proof.
  induction t as [a kids IH] using shape_ind'. intros par Hag Ht.
  inversion Ht as [? ? ? j Hj Hp Hc Hk]; subst.
  econstructor; [|done|done|].
  - rewrite Hag; [done|]. left.
  - rewrite Forall_forall in IH, Hk |- *. intros k Hin.
    apply IH; [done| |by apply Hk].
    intros b Hb. apply Hag. right. apply elem_of_ids_list. eauto.
Qed.

Lemma is_tree_reparent (h : heap) par q t j :
  is_tree h par t -> NoDup (ids t) -> h !! root_addr t = Some j ->
  is_tree (<[root_addr t := set_parent q j]> h) q t.
Proof.
  intros Ht Hnd Hj. destruct t as [a kids]. simpl in *.
  inversion Ht as [? ? ? j0 Hj0 Hp Hc Hk]; subst. simplify_eq.
  apply NoDup_cons in Hnd as [Hne _].
  econstructor; [by rewrite lookup_insert_eq|done|done|].
  rewrite Forall_forall in Hk |- *. intros k Hin.
  eapply is_tree_agree; [|by apply Hk].
  intros b Hb. apply lookup_insert_ne. intros ->. apply Hne.
  apply elem_of_ids_list. eauto.
Qed.

Lemma slots_of_not_null kids : Forall (fun s : pointer => s <> NULL) (slots_of kids).
Proof. unfold slots_of. apply Forall_forall. intros s Hs.
  apply list_elem_of_fmap in Hs as (k & -> & _). done. Qed.

Lemma set_children_id (j : joint) : set_children (children j) j = j.
Proof. by destruct j. Qed.

Lemma slots_of_app ks1 ks2 : slots_of (ks1 ++ ks2) = slots_of ks1 ++ slots_of ks2.
Proof. unfold slots_of. apply List.map_app. Qed.

Lemma root_in_ids_list k ks : k ∈ ks -> root_addr k ∈ ids_list ks.
Proof. intros Hk. apply elem_of_ids_list. exists k. split; [done|apply root_in_ids]. Qed.

(** The attachments of [new_node], [ks1] being attached already. *)
Lemma attach_each_spec p : forall ks2 ks1 (w : W) jp,
  joints w !! p = Some jp ->
  children jp = slots_of ks1 ++ replicate (List.length ks2) NULL ->
  Forall (is_tree (joints w) (Some p)) ks1 ->
  Forall (is_tree (joints w) NULL) ks2 ->
  NoDup (p :: ids_list ks1 ++ ids_list ks2) ->
  exists w',
    attach_each (slots_of ks2) (Some p) w
    = Ok (replicate (List.length ks2) IK_OK, w') /\
    ik_stack w' = ik_stack w /\
    joints w' !! p = Some (set_children (slots_of (ks1 ++ ks2)) jp) /\
    Forall (is_tree (joints w') (Some p)) (ks1 ++ ks2) /\
    (forall a j, a <> p -> joints w !! a = Some j ->
       joints w' !! a
       = Some (if decide (a ∈ root_addr <$> ks2)
               then set_parent (Some p) j else j)) /\
    (forall a, joints w !! a = None -> joints w' !! a = None).
Proof.
  induction ks2 as [|k ks2 IH]; intros ks1 w jp Hjp Hc Hk1 Hk2 Hnd.
  - exists w. simpl in *. rewrite app_nil_r in *.
    split; [done|]. split; [done|]. split.
    { by rewrite <- Hc, set_children_id. }
    split; [done|]. split; [|done].
    intros a j _ Hj. by rewrite Hj.
  - apply Forall_cons in Hk2 as [Hk Hk2].
    destruct (is_tree_root_lookup _ _ _ Hk) as (jc & Hjc & Hpc & Hcc).
    set (c := root_addr k) in *.
    apply NoDup_cons in Hnd as [Hp Hnd].
    assert (Hcp : c <> p).
    { intros Heq. apply Hp. apply elem_of_app. right. rewrite <- Heq.
      apply root_in_ids_list. left. }
    apply NoDup_app in Hnd as (Hnd1 & Hdis & Hnd2).
    rewrite ids_list_cons in Hnd2. apply NoDup_app in Hnd2 as (Hndk & Hdisk & Hnd2).
    simpl attach_each. fold c. unfold ik_attach_joint.
    erewrite bind_Ok; cycle 1.
    { erewrite bind_Ok by (by apply load_Some). rewrite Hc. simpl replicate.
      apply (ik_attach_joint_from_free 0 (slots_of ks1)
               (replicate (List.length ks2) NULL) c p jp w);
        [apply slots_of_not_null|done|by eexists]. }
    set (jp1 := set_children _ jp).
    set (w1 := set_joints _ w).
    assert (Hh1 : joints w1
                  = <[c := set_parent (Some p) jc]> (<[p := jp1]> (joints w))).
    { unfold w1. rewrite joints_set_joints. symmetry. apply insert_alter.
      by rewrite lookup_insert_ne. }
    assert (Hc1 : children jp1
                  = slots_of (ks1 ++ [k]) ++ replicate (List.length ks2) NULL).
    { unfold jp1. simpl. rewrite Hc. simpl replicate.
      rewrite (insert_app_r_alt _ _ (List.length (slots_of ks1))) by lia.
      rewrite Nat.sub_diag. simpl.
      by rewrite slots_of_app, <- (assoc_L (++)). }
    assert (Hag : forall a, a <> p -> a <> c -> joints w1 !! a = joints w !! a).
    { intros a Ha1 Ha2. rewrite Hh1.
      by rewrite lookup_insert_ne, lookup_insert_ne. }
    destruct (IH (ks1 ++ [k]) w1 jp1) as (w' & Hrun & Hst & Hp' & Htr & Hfr & Hno).
    + rewrite Hh1. rewrite lookup_insert_ne by done. by rewrite lookup_insert_eq.
    + done.
    + apply Forall_app. split.
      * rewrite Forall_forall in Hk1 |- *. intros t Ht.
        eapply is_tree_agree; [|by apply Hk1].
        intros a Ha. apply Hag.
        -- intros ->. apply Hp. apply elem_of_app. left.
           apply elem_of_ids_list. eauto.
        -- intros ->. apply (Hdis c).
           ++ apply elem_of_ids_list. eauto.
           ++ apply root_in_ids_list. left.
      * constructor; [|constructor]. rewrite Hh1.
        apply (is_tree_reparent _ NULL).
        -- eapply is_tree_agree; [|exact Hk]. intros a Ha.
           apply lookup_insert_ne. intros ->. apply Hp. apply elem_of_app.
           right. rewrite ids_list_cons. apply elem_of_app. by left.
        -- done.
        -- by rewrite lookup_insert_ne.
    + rewrite Forall_forall in Hk2 |- *. intros t Ht.
      eapply is_tree_agree; [|by apply Hk2].
      intros a Ha. apply Hag.
      * intros ->. apply Hp. apply elem_of_app. right.
        rewrite ids_list_cons. apply elem_of_app. right.
        apply elem_of_ids_list. eauto.
      * intros ->. apply (Hdisk c); [apply root_in_ids|].
        apply elem_of_ids_list. eauto.
    + apply NoDup_cons. split.
      * intros Hin. apply Hp. rewrite ids_list_app, ids_list_cons in Hin.
        rewrite ids_list_cons. simpl in Hin. rewrite app_nil_r in Hin.
        by rewrite (assoc_L (++)).
      * rewrite ids_list_app, ids_list_cons. simpl. rewrite app_nil_r.
        rewrite <- (assoc_L (++)). apply NoDup_app. split; [done|].
        split; [|by apply NoDup_app].
        intros a Ha. apply Hdis in Ha. by rewrite ids_list_cons in Ha.
    + exists w'. split.
      { erewrite bind_Ok by exact Hrun. done. }
      split; [by rewrite Hst|]. split.
      { rewrite Hp'. unfold jp1, set_children. simpl.
        by rewrite <- (assoc_L (++)). }
      split; [by rewrite <- (assoc_L (++)) in Htr|]. split.
      * intros a j Ha Hj. destruct (decide (a = c)) as [->|Hne].
        -- assert (Hj1 : joints w1 !! c = Some (set_parent (Some p) jc)).
           { rewrite Hh1. by rewrite lookup_insert_eq. }
           rewrite (Hfr c _ Hcp Hj1).
           rewrite decide_False.
           ++ rewrite decide_True by (simpl; left). by simplify_eq.
           ++ intros Hin. apply list_elem_of_fmap in Hin as (t & Heq & Ht).
              apply (Hdisk c); [apply root_in_ids|].
              rewrite Heq. by apply root_in_ids_list.
        -- assert (Hj1 : joints w1 !! a = Some j) by (by rewrite Hag).
           rewrite (Hfr a _ Ha Hj1). simpl.
           destruct (decide (a ∈ root_addr <$> ks2)) as [Hin|Hnin].
           ++ by rewrite decide_True by (by right).
           ++ rewrite decide_False; [done|].
              intros Hin. apply elem_of_cons in Hin as [?|?]; done.
      * intros a Ha. apply Hno. rewrite Hag; [done| |]; intros ->; simplify_eq.
Qed.

(** The interface builds trees.  From trees [kids] without parents, a joint
    created with as many slots and the attachment of their roots in order
    make the tree [Sh p kids], at a new address [p]: every attachment returns
    [IK_OK], the new joint is at (0, 0) and has its slots filled in the
    order of the calls, the roots of [kids] have it as parent, nothing else
    is written, and one more attachment to it returns [IK_ERROR]. *)
Theorem new_node_tree (w : W) len kids :
  Forall (is_tree (joints w) NULL) kids ->
  NoDup (ids_list kids) ->
  exists p w',
    new_node len kids w
    = Ok ((Some p, replicate (List.length kids) IK_OK), w') /\
    joints w !! p = None /\
    is_tree (joints w') NULL (Sh p kids) /\
    NoDup (ids (Sh p kids)) /\
    joints w' !! p
    = Some (Joint (Vec2 fzero fzero) len NULL (slots_of kids)) /\
    (forall a j, joints w !! a = Some j ->
       joints w' !! a
       = Some (if decide (a ∈ root_addr <$> kids)
               then set_parent (Some p) j else j)) /\
    ik_stack w' = ik_stack w /\
    (forall c, ik_attach_joint c (Some p) w' = Ok (IK_ERROR, w')).
Proof.
  intros Hk Hnd.
  set (p := fresh (dom (joints w))).
  assert (Hp : joints w !! p = None).
  { apply not_elem_of_dom. apply is_fresh. }
  assert (Hpk : p ∉ ids_list kids).
  { intros Hin. apply elem_of_ids_list in Hin as (k & Hkin & Ha).
    rewrite Forall_forall in Hk.
    destruct (is_tree_alloc _ _ _ _ (Hk k Hkin) Ha) as [j Hj]. congruence. }
  set (j0 := Joint (Vec2 fzero fzero) len NULL
               (replicate (List.length kids) NULL)).
  set (w0 := set_joints (<[p := j0]> (joints w)) w).
  destruct (attach_each_spec p kids [] w0 j0)
    as (w' & Hrun & Hst & Hp' & Htr & Hfr & Hno).
  - unfold w0. by rewrite joints_set_joints, lookup_insert_eq.
  - done.
  - constructor.
  - rewrite Forall_forall in Hk |- *. intros k Hin.
    eapply is_tree_agree; [|by apply Hk].
    intros a Ha. unfold w0. rewrite joints_set_joints.
    apply lookup_insert_ne. intros <-. apply Hpk. apply elem_of_ids_list. eauto.
  - simpl. by apply NoDup_cons.
  - exists p, w'. split.
    { unfold new_node. unfold bind at 1. unfold ik_new_joint. fold p j0 w0.
      erewrite bind_Ok by exact Hrun. done. }
    split; [done|]. split.
    { econstructor; [exact Hp'|done|done|done]. }
    split; [by apply NoDup_cons|]. split; [done|]. split.
    { intros a j Hj. apply Hfr; [congruence|].
      unfold w0. rewrite joints_set_joints, lookup_insert_ne; [done|congruence]. }
    split; [done|].
    intros c. unfold ik_attach_joint.
    erewrite bind_Ok by (by apply load_Some).
    apply ik_attach_joint_from_full. simpl. apply slots_of_not_null.
Qed.

End Build.

(** ** Deleting a branch *)

Section Delete.
Context {F : Type} {num : Num F}.
Local Open Scope num_scope.

Local Abbreviation vec2 := (ik_vec2 F).
Local Abbreviation joint := (ik_joint F).
Local Abbreviation heap := (gmap addr (ik_joint F)).
Local Abbreviation W := (world F).

(** [IK_FREE(p)]: nothing for [NULL]; the joint at [p] is no longer
    allocated afterwards.  Freeing what is not allocated (a second time,
    say) is the fault [InvalidPointer]. *)
Definition ik_free (p : pointer) : M W unit :=
  fun w =>
    match p with
    | None => Ok (tt, w)
    | Some a =>
        match joints w !! a with
        | Some _ => Ok (tt, set_joints (delete a (joints w)) w)
        | None => Fault InvalidPointer
        end
    end.

(** [ik_delete_branch].  The slots of [root] are read as the loop reaches
    them, before [root] is freed; no call below writes them. *)
Fixpoint ik_delete_branch (fuel : nat) (root : pointer) : M W unit :=
  match fuel with
  | O => out_of_fuel
  | S fuel =>
      r <- load root ;;
      for_each (children r) (fun child =>
        when (bool_decide (child <> NULL)) (ik_delete_branch fuel child)) ;;
      ik_free root
  end.

(** [is_branch h t]: in the store [h] the child slots that are not empty
    make the tree [t], in slot order.  Slots may be empty, and the parent
    fields are not looked at. *)
Inductive is_branch (h : heap) : shape -> Prop :=
| is_branch_node a kids j :
    h !! a = Some j ->
    filter (fun s : pointer => s <> NULL) (children j) = slots_of kids ->
    Forall (is_branch h) kids ->
    is_branch h (Sh a kids).

(** The store without the joints at [X]. *)
Definition free_all (X : list addr) (h : heap) : heap :=
  foldl (fun h a => delete a h) h X.

Lemma free_all_app X Y (h : heap) : free_all (X ++ Y) h = free_all Y (free_all X h).
Proof. unfold free_all. apply foldl_app. Qed.

Lemma free_all_lookup (X : list addr) : forall (h : heap) a,
  free_all X h !! a = if decide (a ∈ X) then None else h !! a.
Proof.
  induction X as [|b X IH]; intros h a.
  - destruct (decide (a ∈ [])) as [Hin|_]; [|done].
    by apply elem_of_nil in Hin.
  - change (free_all (b :: X) h) with (free_all X (delete b h)).
    rewrite IH. destruct (decide (a ∈ X)) as [Hin|Hnin].
    + by rewrite decide_True by (by right).
    + destruct (decide (a = b)) as [->|Hne].
      * rewrite lookup_delete_eq. by rewrite decide_True by left.
      * rewrite lookup_delete_ne by done. rewrite decide_False; [done|].
        intros Hin. apply elem_of_cons in Hin as [?|?]; done.
Qed.

Lemma free_all_perm X Y (h : heap) : X ≡ₚ Y -> free_all X h = free_all Y h.
Proof.
  intros HXY. apply map_eq. intros a. rewrite !free_all_lookup.
  destruct (decide (a ∈ X)) as [Hin|Hnin].
  - rewrite decide_True; [done|]. by rewrite <- HXY.
  - rewrite decide_False; [done|]. by rewrite <- HXY.
Qed.

Lemma is_branch_agree (h h' : heap) t :
  (forall a, a ∈ ids t -> h' !! a = h !! a) ->
  is_branch h t -> is_branch h' t.
Proof.
  induction t as [a kids IH] using shape_ind'. intros Hag Ht.
  inversion Ht as [? ? j Hj Hc Hk]; subst.
  econstructor; [|done|].
  - rewrite Hag; [done|]. left.
  - rewrite Forall_forall in IH, Hk |- *. intros k Hin.
    apply IH; [done| |by apply Hk].
    intros b Hb. apply Hag. right. apply elem_of_ids_list. eauto.
Qed.

Lemma filter_slots_of kids :
  filter (fun s : pointer => s <> NULL) (slots_of kids) = slots_of kids.
Proof.
  induction kids as [|k kids IH]; [done|]. simpl.
  rewrite filter_cons_True by done. by rewrite IH.
Qed.

(** A tree in the sense of [is_tree] is one here. *)
Lemma is_tree_branch (h : heap) par t : is_tree h par t -> is_branch h t.
Proof.
  revert par. induction t as [a kids IH] using shape_ind'. intros par Ht.
  inversion Ht as [? ? ? j Hj Hp Hc Hk]; subst.
  econstructor; [done| |].
  - rewrite Hc. apply filter_slots_of.
  - rewrite Forall_forall in IH, Hk |- *. intros k Hin. eapply IH; eauto.
Qed.

Lemma is_branch_alloc (h : heap) t a : is_branch h t -> a ∈ ids t -> is_Some (h !! a).
Proof.
  induction t as [b kids IH] using shape_ind'. intros Ht Ha.
  inversion Ht as [? ? j Hj Hc Hk]; subst.
  simpl in Ha. apply elem_of_cons in Ha as [->|Ha]; [by eexists|].
  apply elem_of_ids_list in Ha as (k & Hin & Ha).
  rewrite Forall_forall in IH, Hk. apply (IH k Hin); [by apply Hk|done].
Qed.

(** The loop of [ik_delete_branch] over the slots. *)
Lemma delete_kids fuel :
  (forall t (w : W), is_branch (joints w) t -> NoDup (ids t) ->
     (height t <= fuel)%nat ->
     ik_delete_branch fuel (Some (root_addr t)) w
     = Ok (tt, set_joints (free_all (ids t) (joints w)) w)) ->
  forall slots kids (w : W),
  filter (fun s : pointer => s <> NULL) slots = slots_of kids ->
  Forall (is_branch (joints w)) kids ->
  NoDup (ids_list kids) ->
  Forall (fun k => height k <= fuel)%nat kids ->
  for_each slots (fun child =>
    when (bool_decide (child <> NULL)) (ik_delete_branch fuel child)) w
  = Ok (tt, set_joints (free_all (ids_list kids) (joints w)) w).
Proof.
  intros IH. induction slots as [|s slots IHs]; intros kids w Hf Hk Hnd Hh.
  - destruct kids; [|done]. simpl. by rewrite set_joints_id.
  - destruct s as [c|].
    + rewrite filter_cons_True in Hf by done.
      destruct kids as [|k kids]; [done|]. simpl in Hf.
      injection Hf as -> Hf.
      apply Forall_cons in Hk as [Hk Hks]. apply Forall_cons in Hh as [Hh Hhs].
      rewrite ids_list_cons in Hnd. apply NoDup_app in Hnd as (Hndk & Hdis & Hnds).
      cbn [for_each]. rewrite bool_decide_true by done. cbn [when].
      erewrite bind_Ok by (by apply IH).
      rewrite (IHs kids); [| done | | done | done].
      * rewrite joints_set_joints, set_joints_set_joints.
        by rewrite ids_list_cons, free_all_app.
      * rewrite joints_set_joints. rewrite Forall_forall in Hks |- *.
        intros t Ht. eapply is_branch_agree; [|by apply Hks].
        intros a Ha. rewrite free_all_lookup. rewrite decide_False; [done|].
        intros Hin. apply (Hdis a Hin). apply elem_of_ids_list. eauto.
    + rewrite filter_cons_False in Hf by (by intros Hn; apply Hn).
      cbn [for_each]. rewrite bool_decide_false by (by intros Hn; apply Hn).
      cbn [when]. unfold bind, ret. by apply IHs.
Qed.

Lemma ik_delete_branch_tree fuel : forall t (w : W),
  is_branch (joints w) t -> NoDup (ids t) -> (height t <= fuel)%nat ->
  ik_delete_branch fuel (Some (root_addr t)) w
  = Ok (tt, set_joints (free_all (ids t) (joints w)) w).
Proof.
  induction fuel as [|fuel IH]; intros [a kids] w Ht Hnd Hh.
  { simpl in Hh. lia. }
  inversion Ht as [? ? j Hj Hc Hk]; subst.
  simpl in Hnd. apply NoDup_cons in Hnd as [Hne Hnd].
  simpl root_addr. simpl ik_delete_branch.
  erewrite bind_Ok by (by apply load_Some).
  erewrite bind_Ok; cycle 1.
  { apply (delete_kids fuel IH _ kids); [done|done|done|].
    apply Forall_forall. intros k Hin. pose proof (height_kid _ _ Hin) as Hle.
    simpl in Hh. lia. }
  unfold ik_free. rewrite joints_set_joints, free_all_lookup.
  rewrite decide_False by done. rewrite Hj.
  rewrite set_joints_set_joints. do 3 f_equal.
  change (delete a (free_all (ids_list kids) (joints w)))
    with (free_all [a] (free_all (ids_list kids) (joints w))).
  rewrite <- free_all_app. apply free_all_perm.
  simpl. change (concat (List.map ids kids)) with (ids_list kids).
  by rewrite Permutation_app_comm.
Qed.

(** [ik_delete_branch] frees the joints of the branch and nothing else,
    whether or not every slot of the branch is attached. *)
Theorem ik_delete_branch_frees (w : W) t fuel :
  is_branch (joints w) t ->
  NoDup (ids t) ->
  (height t <= fuel)%nat ->
  exists w',
    ik_delete_branch fuel (Some (root_addr t)) w = Ok (tt, w') /\
    ik_stack w' = ik_stack w /\
    forall a, joints w' !! a = if decide (a ∈ ids t) then None else joints w !! a.
Proof.
  intros Ht Hnd Hh. eexists. split; [by apply ik_delete_branch_tree|].
  split; [done|]. intros a. rewrite joints_set_joints. apply free_all_lookup.
Qed.

(** A joint that was just created, with any number of slots, and is deleted
    again: the store is what it was. *)
Theorem ik_new_joint_delete (w : W) len n fuel :
  (p <- ik_new_joint len n ;; ik_delete_branch (S fuel) p) w = Ok (tt, w).
Proof.
  unfold bind at 1. unfold ik_new_joint.
  set (p := fresh (dom (joints w))).
  assert (Hp : joints w !! p = None).
  { apply not_elem_of_dom. apply is_fresh. }
  set (j := Joint _ _ _ _).
  rewrite (ik_delete_branch_tree (S fuel) (Sh p [])).
  - rewrite joints_set_joints, set_joints_set_joints. simpl.
    rewrite delete_insert_eq, delete_id by done. by rewrite set_joints_id.
  - rewrite joints_set_joints. apply (is_branch_node _ p [] j).
    + by rewrite lookup_insert_eq.
    + unfold j. simpl. induction n as [|n IH]; [done|]. simpl.
      by rewrite filter_cons_False by (by intros Hn; apply Hn).
    + constructor.
  - simpl. apply NoDup_singleton.
  - simpl. lia.
Qed.

(** *** The slot of the parent after a deletion *)

(** [hole_path h fs k]: the frames [fs] are in the store [h], linked as the
    tree [plug fs k] says, and the joint at the root of [k] is not. *)
Fixpoint hole_path (h : heap) (fs : list frame) (k : shape) : Prop :=
  match fs with
  | [] => h !! root_addr k = None
  | f :: fs' =>
      (exists j, h !! f_addr f = Some j /\
         filter (fun s : pointer => s <> NULL) (children j)
         = slots_of (f_left f ++ plug fs' k :: f_right f)) /\
      Forall (is_branch h) (f_left f) /\
      hole_path h fs' k
  end.

Lemma hole_path_agree (h h' : heap) fs k :
  (forall a, a ∈ frames_ids fs -> h' !! a = h !! a) ->
  h' !! root_addr k = h !! root_addr k ->
  hole_path h fs k -> hole_path h' fs k.
Proof.
  intros Hag Hk. induction fs as [|f fs IH]; simpl.
  - by rewrite Hk.
  - intros ((j & Hj & Hc) & Hl & Hp). rewrite frames_ids_cons in Hag.
    split; [|split].
    + exists j. split; [|done]. rewrite Hag; [done|].
      apply elem_of_app. left. left.
    + rewrite Forall_forall in Hl |- *. intros t Ht.
      eapply is_branch_agree; [|by apply Hl].
      intros a Ha. apply Hag. apply elem_of_app. left. right.
      apply elem_of_ids_list. exists t. split; [|done].
      unfold f_sibs. apply elem_of_app. by left.
    + apply IH; [|done]. intros a Ha. apply Hag. apply elem_of_app. by right.
Qed.

Lemma filter_split {A} (P : A -> Prop) `{forall a, Decision (P a)} (l : list A) :
  forall l1 a l2,
  filter P l = l1 ++ a :: l2 ->
  exists s1 s2, l = s1 ++ a :: s2 /\ filter P s1 = l1 /\ filter P s2 = l2.
Proof.
  induction l as [|b l IH]; intros l1 a l2 Hf.
  { by destruct l1. }
  destruct (decide (P b)) as [Hb|Hb].
  - rewrite filter_cons_True in Hf by done. destruct l1 as [|c l1].
    + simpl in Hf. injection Hf as -> Hf. by exists [], l.
    + simpl in Hf. injection Hf as -> Hf.
      destruct (IH _ _ _ Hf) as (s1 & s2 & -> & <- & <-).
      exists (c :: s1), s2. split; [done|]. split; [|done].
      by rewrite filter_cons_True.
  - rewrite filter_cons_False in Hf by done.
    destruct (IH _ _ _ Hf) as (s1 & s2 & -> & <- & <-).
    exists (b :: s1), s2. split; [done|]. split; [|done].
    by rewrite filter_cons_False.
Qed.

(** [ik_delete_branch] from the root of a tree one branch of which was
    freed: it comes to the slot that still holds the pointer and reads the
    freed joint. *)
Lemma ik_delete_branch_hole k H fuel : forall fs (w : W),
  hole_path (joints w) fs k ->
  NoDup (frames_ids fs) ->
  root_addr k ∉ frames_ids fs ->
  Forall (fun f => Forall (fun s => height s <= H)%nat (f_left f)) fs ->
  (List.length fs + H < fuel)%nat ->
  ik_delete_branch fuel (Some (root_addr (plug fs k))) w = Fault InvalidPointer.
Proof.
  induction fuel as [|fuel IH]; intros fs w Hp Hnd Hk Hh Hfuel; [lia|].
  destruct fs as [|f fs].
  { simpl in *. unfold bind, load. by rewrite Hp. }
  destruct Hp as ((j & Hj & Hc) & Hl & Hp).
  simpl plug. unfold fill. simpl root_addr. simpl ik_delete_branch.
  erewrite bind_Ok by (by apply load_Some).
  rewrite slots_of_app in Hc. simpl in Hc.
  destruct (filter_split _ _ _ _ _ Hc) as (s1 & s2 & -> & Hs1 & Hs2).
  apply Forall_cons in Hh as [Hhf Hh].
  rewrite frames_ids_cons in Hnd, Hk. apply NoDup_app in Hnd as (Hndf & Hdis & Hnd).
  unfold frame_ids in Hndf. apply NoDup_cons in Hndf as [Hfa Hndf].
  unfold f_sibs in Hndf, Hfa. rewrite ids_list_app in Hndf, Hfa.
  apply NoDup_app in Hndf as (Hndl & _ & _).
  apply bind_Fault. rewrite for_each_app. erewrite bind_Ok; cycle 1.
  { apply (delete_kids fuel (ik_delete_branch_tree fuel) s1 (f_left f));
      [done|done|done|].
    eapply Forall_impl; [exact Hhf|]. simpl in *. lia. }
  cbn [for_each]. rewrite bool_decide_true by done. cbn [when].
  apply bind_Fault.
  apply IH; [|done| |done|simpl in Hfuel; lia].
  - rewrite joints_set_joints. eapply hole_path_agree; [| |exact Hp].
    + intros a Ha. rewrite free_all_lookup. rewrite decide_False; [done|].
      intros Hin. apply (Hdis a); [|done]. right. unfold f_sibs.
      rewrite ids_list_app. apply elem_of_app. by left.
    + rewrite free_all_lookup. rewrite decide_False; [done|].
      intros Hin. apply Hk. apply elem_of_app. left. right. unfold f_sibs.
      rewrite ids_list_app. apply elem_of_app. by left.
  - intros Hin. apply Hk. apply elem_of_app. by right.
Qed.

Lemma is_tree_hole_path (h : heap) k : forall fs par,
  is_tree h par (plug fs k) ->
  NoDup (ids (plug fs k)) ->
  hole_path (free_all (ids k) h) fs k.
Proof.
  induction fs as [|f fs IH]; intros par Ht Hnd.
  - simpl. rewrite free_all_lookup. rewrite decide_True; [done|apply root_in_ids].
  - simpl plug in *.
    destruct (is_tree_fill_inv _ _ _ _ Ht) as (jf & Hjf & _ & Hc & Ht' & Hsib).
    pose proof Hnd as Hnd'. rewrite ids_fill_perm in Hnd'.
    apply NoDup_app in Hnd' as (_ & Hdis & Hnd').
    assert (Hout : forall a, a ∈ frame_ids f -> a ∉ ids k).
    { intros a Ha Hin. apply (Hdis a Ha). by apply ids_in_plug. }
    split; [|split].
    + exists jf. split.
      * rewrite free_all_lookup, decide_False; [done|]. apply Hout. left.
      * rewrite Hc. apply filter_slots_of.
    + unfold f_sibs in Hsib. apply Forall_app in Hsib as [Hl _].
      rewrite Forall_forall in Hl |- *. intros t Hin.
      eapply is_branch_agree; [|eapply is_tree_branch; by apply Hl].
      intros a Ha. rewrite free_all_lookup, decide_False; [done|].
      apply Hout. right. apply elem_of_ids_list. exists t. split; [|done].
      unfold f_sibs. apply elem_of_app. by left.
    + by eapply IH.
Qed.

(** [ik_delete_branch] does not detach.  After the branch [k] of a tree is
    deleted, the slot of its parent still holds the pointer to its freed
    root; [ik_delete_branch] on the same branch again, or on the whole tree,
    reads the freed joint. *)
Theorem ik_delete_branch_dangling fs f k (w : W) fuel :
  let T := plug (fs ++ [f]) k in
  is_tree (joints w) None T ->
  NoDup (ids T) ->
  (2 * height T <= fuel)%nat ->
  exists w1 jf,
    ik_delete_branch fuel (Some (root_addr k)) w = Ok (tt, w1) /\
    joints w1 !! root_addr k = None /\
    joints w1 !! f_addr f = Some jf /\
    Some (root_addr k) ∈ children jf /\
    ik_delete_branch fuel (Some (root_addr k)) w1 = Fault InvalidPointer /\
    ik_delete_branch fuel (Some (root_addr T)) w1 = Fault InvalidPointer.
Proof.
  intros T Ht Hnd Hfuel.
  pose proof (height_plug (fs ++ [f]) k) as Hhp. fold T in Hhp.
  rewrite length_app in Hhp. simpl in Hhp.
  assert (Hhk : (0 < height k)%nat) by (destruct k; simpl; lia).
  destruct (NoDup_plug _ _ Hnd) as (Hndf & Hndk & Hdis).
  assert (Htk : is_tree (joints w) (plug_par None (fs ++ [f])) k)
    by (by apply is_tree_plug).
  pose proof (is_tree_hole_path _ _ _ _ Ht Hnd) as Hhole.
  set (w1 := set_joints (free_all (ids k) (joints w)) w).
  assert (Hrun : ik_delete_branch fuel (Some (root_addr k)) w = Ok (tt, w1)).
  { apply ik_delete_branch_tree; [by eapply is_tree_branch|done|lia]. }
  assert (Hk1 : joints w1 !! root_addr k = None).
  { unfold w1. rewrite joints_set_joints, free_all_lookup.
    rewrite decide_True; [done|apply root_in_ids]. }
  assert (Htf : is_tree (joints w) (plug_par None fs) (fill f k)).
  { apply is_tree_plug. unfold T in Ht. by rewrite plug_app in Ht. }
  destruct (is_tree_fill_inv _ _ _ _ Htf) as (jf & Hjf & _ & Hc & _ & _).
  exists w1, jf. split; [done|]. split; [done|]. split; [|split; [|split]].
  - unfold w1. rewrite joints_set_joints, free_all_lookup.
    rewrite decide_False; [done|]. apply Hdis.
    rewrite frames_ids_app, frames_ids_cons. apply elem_of_app. right.
    apply elem_of_app. left. left.
  - rewrite Hc, slots_of_app. apply elem_of_app. right. left.
  - destruct fuel as [|fuel']; [lia|]. simpl. unfold bind, load.
    by rewrite Hk1.
  - apply (ik_delete_branch_hole k (height T) fuel (fs ++ [f]) w1).
    + done.
    + done.
    + intros Hin. apply (Hdis _ Hin). apply root_in_ids.
    + pose proof (height_plug_sibs (fs ++ [f]) k) as Hs. fold T in Hs.
      eapply Forall_impl; [exact Hs|]. simpl. intros g Hg.
      unfold f_sibs in Hg. by apply Forall_app in Hg as [Hg _].
    + rewrite length_app. simpl. lia.
Qed.

End Delete.

(** ** Vertex buffers

    [ik_get_render_data] reads the joints and writes a buffer of positions
    that grows by reallocation.  The arrays of positions are kept in a store
    of their own, by address; a cell that was allocated and not yet written
    is [None].  The [ik_vertex_buffer] struct is passed by value here and
    returned where the C code writes it through the pointer.  [size] and
    [cap] are C [int]s: integers, with the overflow of the doubling
    reported. *)

Inductive vfault : Type :=
| VJoint (f : fault)   (* reading a joint: see [load] *)
| VNull                (* an array is read or written through NULL *)
| VFreed               (* an array that is not allocated is read, written or freed *)
| VBounds              (* a cell beyond the end of its array is read or written *)
| VOverflow.           (* an int leaves its range *)

Inductive vresult (A : Type) : Type :=
| VOk (a : A)
| VFault (f : vfault)
| VOutOfFuel.
Arguments VOk {A} a.
Arguments VFault {A} f.
Arguments VOutOfFuel {A}.

Definition V (S A : Type) : Type := S -> vresult (A * S).

Definition vret {S A} (a : A) : V S A := fun m => VOk (a, m).

Definition vbind {S A B} (c : V S A) (k : A -> V S B) : V S B :=
  fun m =>
    match c m with
    | VOk (a, m') => k a m'
    | VFault f => VFault f
    | VOutOfFuel => VOutOfFuel
    end.

Definition vraise {S A} (f : vfault) : V S A := fun _ => VFault f.

Notation "x <~ c ;; k" := (vbind c (fun x => k))
  (at level 100, c at next level, right associativity).
Notation "c ;;; k" := (vbind c (fun _ => k))
  (at level 100, right associativity).

Definition INT_MIN : Z := -2147483648.
Definition INT_MAX : Z := 2147483647.

(** [ik_vertex_buffer]; the fields [data], [size] and [cap]. *)
Record ik_vertex_buffer : Type := VB {
  vb_data : pointer;
  vb_size : Z;
  vb_cap : Z
}.

Section Render.
Context {F : Type} {num : Num F}.

Local Abbreviation vec2 := (ik_vec2 F).
Local Abbreviation joint := (ik_joint F).
Local Abbreviation heap := (gmap addr (ik_joint F)).
Local Abbreviation arrays := (gmap addr (list (option (ik_vec2 F)))).

(** [IK_MALLOC(sizeof(ik_vec2) * n)]: an array of [n] cells at an address
    that holds none. *)
Definition v_malloc (n : Z) : V arrays pointer :=
  fun m =>
    let a := fresh (dom m) in
    VOk (Some a, <[a := replicate (Z.to_nat n) None]> m).

(** [memcpy(dst, src, sizeof(ik_vec2) * n)]. *)
Definition v_memcpy (dst src : pointer) (n : Z) : V arrays unit :=
  fun m =>
    match dst, src with
    | Some d, Some s =>
        match m !! d, m !! s with
        | Some cd, Some cs =>
            if decide (0 <= n <= Z.of_nat (List.length cd)
                       /\ n <= Z.of_nat (List.length cs))%Z
            then VOk (tt, <[d := take (Z.to_nat n) cs ++ drop (Z.to_nat n) cd]> m)
            else VFault VBounds
        | _, _ => VFault VFreed
        end
    | _, _ => VFault VNull
    end.

(** [free(p)]. *)
Definition v_free (p : pointer) : V arrays unit :=
  fun m =>
    match p with
    | None => VOk (tt, m)
    | Some a =>
        match m !! a with
        | Some _ => VOk (tt, delete a m)
        | None => VFault VFreed
        end
    end.

(** [p[i] = v]. *)
Definition v_store (p : pointer) (i : Z) (v : vec2) : V arrays unit :=
  fun m =>
    match p with
    | None => VFault VNull
    | Some a =>
        match m !! a with
        | Some cells =>
            if decide (0 <= i < Z.of_nat (List.length cells))%Z
            then VOk (tt, <[a := <[Z.to_nat i := Some v]> cells]> m)
            else VFault VBounds
        | None => VFault VFreed
        end
    end.

(** The joint at [p], read in the store [h] of joints. *)
Definition v_load (h : heap) (p : pointer) : V arrays joint :=
  fun m =>
    match p with
    | None => VFault (VJoint NullDeref)
    | Some a =>
        match h !! a with
        | Some j => VOk (j, m)
        | None => VFault (VJoint InvalidPointer)
        end
    end.

(** [ik_vertex_buffer_push]. *)
Definition ik_vertex_buffer_push (buffer : ik_vertex_buffer) (value : vec2)
    : V arrays ik_vertex_buffer :=
  b <~ (if (vb_size buffer =? vb_cap buffer)%Z
        then
          let new_cap := (vb_cap buffer * 2)%Z in
          if decide (INT_MIN <= new_cap <= INT_MAX)%Z
          then
            new_data <~ v_malloc new_cap ;;
            v_memcpy new_data (vb_data buffer) (vb_size buffer) ;;;
            v_free (vb_data buffer) ;;;
            vret (VB new_data (vb_size buffer) new_cap)
          else vraise VOverflow
        else vret buffer) ;;
  v_store (vb_data b) (vb_size b) value ;;;
  if decide (vb_size b + 1 <= INT_MAX)%Z
  then vret (VB (vb_data b) (vb_size b + 1) (vb_cap b))
  else vraise VOverflow.

(** [ik_vertex_buffer_reset]. *)
Definition ik_vertex_buffer_reset (buffer : ik_vertex_buffer)
    : ik_vertex_buffer :=
  VB (vb_data buffer) 0 (vb_cap buffer).

(** The loop of [ik_get_render_data_no_reset] over the child slots. *)
Fixpoint v_for_each {A} (l : list A) (b : ik_vertex_buffer)
    (body : A -> ik_vertex_buffer -> V arrays ik_vertex_buffer)
    : V arrays ik_vertex_buffer :=
  match l with
  | [] => vret b
  | a :: l' => b1 <~ body a b ;; v_for_each l' b1 body
  end.

(** [ik_get_render_data_no_reset]. *)
Fixpoint ik_get_render_data_no_reset (h : heap) (fuel : nat) (root : pointer)
    (buffer : ik_vertex_buffer) : V arrays ik_vertex_buffer :=
  match fuel with
  | O => fun _ => VOutOfFuel
  | S fuel =>
      r <~ v_load h root ;;
      v_for_each (children r) buffer (fun child b =>
        b1 <~ ik_vertex_buffer_push b (position r) ;;
        c <~ v_load h child ;;
        b2 <~ ik_vertex_buffer_push b1 (position c) ;;
        ik_get_render_data_no_reset h fuel child b2)
  end.

(** [ik_get_render_data]. *)
Definition ik_get_render_data (h : heap) (fuel : nat) (root : pointer)
    (buffer : ik_vertex_buffer) : V arrays ik_vertex_buffer :=
  ik_get_render_data_no_reset h fuel root (ik_vertex_buffer_reset buffer).

(** [ik_new_vertex_buffer]. *)
Definition ik_new_vertex_buffer : V arrays ik_vertex_buffer :=
  data <~ v_malloc 10 ;;
  vret (VB data 0 10).

(** [ik_free_vertex_buffer]. *)
Definition ik_free_vertex_buffer (buffer : ik_vertex_buffer)
    : V arrays ik_vertex_buffer :=
  v_free (vb_data buffer) ;;;
  vret (VB (vb_data buffer) 0 0).

(** *** Pushing *)

Lemma vbind_Ok {S A B} (c : V S A) (k : A -> V S B) m a m1 :
  c m = VOk (a, m1) -> vbind c k m = k a m1.
Proof. intros Hc. unfold vbind. by rewrite Hc. Qed.

Lemma vbind_Fault {S A B} (c : V S A) (k : A -> V S B) m f :
  c m = VFault f -> vbind c k m = VFault f.
Proof. intros Hc. unfold vbind. by rewrite Hc. Qed.

(** [buffer_holds m b cs]: the buffer [b] is in a valid state in the store
    [m], and the positions it holds are [cs]. *)
Definition buffer_holds (m : arrays) (b : ik_vertex_buffer) (cs : list vec2)
    : Prop :=
  exists a cells,
    vb_data b = Some a /\ m !! a = Some cells /\
    Z.of_nat (List.length cells) = vb_cap b /\
    vb_size b = Z.of_nat (List.length cs) /\
    take (List.length cs) cells = Some <$> cs /\
    (0 < vb_cap b <= INT_MAX)%Z.

Lemma buffer_holds_size m b cs :
  buffer_holds m b cs -> (0 <= vb_size b <= vb_cap b)%Z.
Proof.
  intros (a & cells & _ & _ & Hlen & Hsz & Htake & _).
  apply (f_equal List.length) in Htake.
  rewrite length_take, length_fmap in Htake. lia.
Qed.

(** What one push does to the store: the array of the buffer may move, the
    other arrays stay. *)
Definition moved (m m' : arrays) (b b' : ik_vertex_buffer) : Prop :=
  exists a a', vb_data b = Some a /\ vb_data b' = Some a' /\
    delete a' m' = delete a m /\ (a' = a \/ m !! a' = None).

Lemma moved_trans m m1 m2 b b1 b2 :
  moved m m1 b b1 -> moved m1 m2 b1 b2 -> moved m m2 b b2.
Proof.
  intros (a & a1 & Ha & Ha1 & Hd1 & Hf1) (a1' & a2 & Ha1' & Ha2 & Hd2 & Hf2).
  simplify_eq. exists a, a2. split; [done|]. split; [done|].
  split; [congruence|].
  destruct Hf2 as [->|Hn]; [done|].
  destruct (decide (a2 = a1)) as [->|Hne]; [done|].
  assert (Hl : delete a1 m1 !! a2 = None) by (by rewrite lookup_delete_ne).
  rewrite Hd1 in Hl. destruct (decide (a2 = a)) as [->|Hne']; [by left|].
  right. by rewrite lookup_delete_ne in Hl.
Qed.

(** A push into a buffer that is not full writes the next cell. *)
Lemma push_room (m : arrays) b (cs : list vec2) v a cells :
  vb_data b = Some a -> m !! a = Some cells ->
  Z.of_nat (List.length cells) = vb_cap b ->
  vb_size b = Z.of_nat (List.length cs) ->
  (vb_size b < vb_cap b <= INT_MAX)%Z ->
  ik_vertex_buffer_push b v m
  = VOk (VB (Some a) (vb_size b + 1) (vb_cap b),
         <[a := <[List.length cs := Some v]> cells]> m).
Proof.
  intros Ha Hm Hlen Hsz Hlt. unfold ik_vertex_buffer_push.
  rewrite (proj2 (Z.eqb_neq _ _)) by lia.
  unfold vbind at 1. unfold vret at 1.
  unfold vbind, v_store. rewrite Ha, Hm.
  rewrite decide_True by lia. rewrite decide_True by lia.
  unfold vret. by rewrite Hsz, Nat2Z.id.
Qed.

(** A push into a full buffer moves it to an array twice as long. *)
Lemma push_full (m : arrays) b (cs : list vec2) v a cells :
  vb_data b = Some a -> m !! a = Some cells ->
  Z.of_nat (List.length cells) = vb_cap b ->
  vb_size b = Z.of_nat (List.length cs) ->
  vb_size b = vb_cap b ->
  (0 < vb_cap b)%Z -> (vb_cap b * 2 <= INT_MAX)%Z ->
  let a' := fresh (dom m) in
  ik_vertex_buffer_push b v m
  = VOk (VB (Some a') (vb_size b + 1) (vb_cap b * 2),
         <[a' := <[List.length cs := Some v]>
                   (cells ++ replicate (List.length cells) None)]>
           (delete a m)).
Proof.
  intros Ha Hm Hlen Hsz Hfull Hpos Hmax a'.
  assert (Ha' : m !! a' = None) by (apply not_elem_of_dom, is_fresh).
  assert (Hne : a' <> a) by (intros Heq; rewrite Heq in Ha'; congruence).
  unfold ik_vertex_buffer_push.
  rewrite (proj2 (Z.eqb_eq _ _)) by done.
  rewrite decide_True by (unfold INT_MIN; lia).
  erewrite vbind_Ok; cycle 1.
  { unfold vbind at 1. unfold v_malloc. fold a'.
    unfold vbind at 1. unfold v_memcpy. rewrite Ha.
    rewrite lookup_insert_eq, lookup_insert_ne, Hm by done.
    rewrite decide_True by (rewrite length_replicate; lia).
    unfold vbind, v_free. rewrite lookup_insert_ne, lookup_insert_ne, Hm by done.
    unfold vret. reflexivity. }
  simpl vb_data. simpl vb_size. simpl vb_cap.
  unfold vbind, v_store.
  rewrite lookup_delete_ne by done. rewrite lookup_insert_eq.
  assert (Hn : Z.to_nat (vb_size b) = List.length cells) by lia.
  rewrite Hn, firstn_all.
  rewrite drop_replicate.
  replace (Z.to_nat (vb_cap b * 2) - List.length cells)%nat
    with (List.length cells) by lia.
  rewrite decide_True by (rewrite length_app, length_replicate; lia).
  rewrite decide_True by lia.
  unfold vret. do 2 f_equal.
  rewrite !(delete_insert_ne _ a a') by done. rewrite !insert_insert_eq.
  do 3 f_equal. lia.
Qed.

(** The capacity after one push, and after [n]. *)
Definition grow (size cap : Z) : Z :=
  if (size =? cap)%Z then (cap * 2)%Z else cap.

Fixpoint cap_after (n : nat) (size cap : Z) : Z :=
  match n with
  | O => cap
  | S n => cap_after n (size + 1) (grow size cap)
  end.

Lemma cap_after_mono n : forall size cap,
  (0 < cap)%Z -> (cap <= cap_after n size cap)%Z.
Proof.
  induction n as [|n IH]; intros size cap Hc; simpl; [lia|].
  unfold grow. destruct (size =? cap)%Z.
  - specialize (IH (size + 1)%Z (cap * 2)%Z). lia.
  - by apply IH.
Qed.

(** The capacity doubles, and only as far as needed. *)
Lemma cap_after_spec n : forall size cap,
  (0 <= size <= cap)%Z -> (0 < cap)%Z ->
  exists k : nat,
    cap_after n size cap = (cap * 2 ^ Z.of_nat k)%Z /\
    (size + Z.of_nat n <= cap_after n size cap)%Z /\
    (k = 0%nat \/ cap_after n size cap < 2 * (size + Z.of_nat n))%Z.
Proof.
  induction n as [|n IH]; intros size cap Hs Hc.
  - exists 0%nat. simpl. split; [lia|]. split; [lia|by left].
  - simpl. unfold grow. destruct (Z.eqb_spec size cap) as [->|Hne].
    + destruct (IH (cap + 1)%Z (cap * 2)%Z) as (k & Heq & Hle & Hk); [lia..|].
      exists (S k). rewrite Heq in *. split; [|split].
      * rewrite Nat2Z.inj_succ, Z.pow_succ_r by lia. lia.
      * lia.
      * right. destruct Hk as [->|Hk]; [|lia].
        simpl in *. lia.
    + destruct (IH (size + 1)%Z cap) as (k & Heq & Hle & Hk); [lia..|].
      exists k. rewrite Heq in *. split; [done|]. split; [lia|].
      destruct Hk as [->|Hk]; [by left|right; lia].
Qed.

Lemma cap_after_room n : forall size cap,
  (size + Z.of_nat n <= cap)%Z -> cap_after n size cap = cap.
Proof.
  induction n as [|n IH]; intros size cap Hle; [done|].
  simpl. unfold grow. rewrite (proj2 (Z.eqb_neq _ _)) by lia.
  apply IH. lia.
Qed.

(** One push: the buffer holds one position more, and the ones before. *)
Lemma push_holds (m : arrays) b cs v :
  buffer_holds m b cs ->
  (grow (vb_size b) (vb_cap b) <= INT_MAX)%Z ->
  exists b' m',
    ik_vertex_buffer_push b v m = VOk (b', m') /\
    buffer_holds m' b' (cs ++ [v]) /\
    moved m m' b b' /\
    vb_cap b' = grow (vb_size b) (vb_cap b) /\
    ((vb_size b < vb_cap b)%Z -> vb_data b' = vb_data b).
Proof.
  intros Hb Hmax. pose proof (buffer_holds_size _ _ _ Hb) as Hsz.
  destruct Hb as (a & cells & Ha & Hm & Hlen & Hs & Htake & Hc).
  unfold grow in *. destruct (Z.eqb_spec (vb_size b) (vb_cap b)) as [Hfull|Hroom].
  - set (a' := fresh (dom m)).
    assert (Ha' : m !! a' = None) by (apply not_elem_of_dom, is_fresh).
    assert (Hlc : List.length cs = List.length cells) by lia.
    eexists _, _. split; [apply (push_full m b cs v a cells); try done; lia|].
    split; [|split; [|split; [done|simpl; lia]]].
    + exists a', (<[List.length cs := Some v]>
                   (cells ++ replicate (List.length cells) None)).
      split; [done|]. split; [by rewrite lookup_insert_eq|]. simpl.
      split; [rewrite length_insert, length_app, length_replicate; lia|].
      split; [rewrite length_app; simpl; lia|]. split; [|lia].
      rewrite length_app. simpl. rewrite Hlc.
      rewrite insert_app_r_alt by lia. rewrite Nat.sub_diag.
      rewrite take_app_ge by lia.
      replace (List.length cells + 1 - List.length cells)%nat with 1%nat by lia.
      rewrite fmap_app. f_equal.
      * rewrite <- Htake, Hlc. by rewrite firstn_all.
      * destruct cells; [simpl in *; lia|done].
    + exists a, a'. split; [done|]. split; [done|]. split; [|by right].
      rewrite delete_insert_eq. apply delete_id. fold a'.
      rewrite lookup_delete_ne; [done|]. intros Heq. rewrite Heq in Hm.
      congruence.
  - eexists _, _. split; [apply (push_room m b cs v a cells); try done; lia|].
    split; [|split; [|split; [done|by rewrite Ha]]].
    + exists a, (<[List.length cs := Some v]> cells).
      split; [done|]. split; [by rewrite lookup_insert_eq|]. simpl.
      split; [by rewrite length_insert|].
      split; [rewrite length_app; simpl; lia|]. split; [|done].
      rewrite length_app. simpl.
      assert (Hlt : (List.length cs < List.length cells)%nat) by lia.
      rewrite Nat.add_1_r, (take_S_r _ _ (Some v))
        by (by rewrite list_lookup_insert_eq).
      rewrite take_insert_ge by lia. by rewrite Htake, fmap_app.
    + exists a, a. split; [done|]. split; [done|]. split; [|by left].
      by rewrite delete_insert_eq.
Qed.


(** *** A run of pushes *)

Fixpoint push_all (vs : list vec2) (b : ik_vertex_buffer)
    : V arrays ik_vertex_buffer :=
  match vs with
  | [] => vret b
  | v :: vs => b1 <~ ik_vertex_buffer_push b v ;; push_all vs b1
  end.

Lemma push_all_app vs1 vs2 : forall b m,
  push_all (vs1 ++ vs2) b m
  = match push_all vs1 b m with
    | VOk (b1, m1) => push_all vs2 b1 m1
    | VFault f => VFault f
    | VOutOfFuel => VOutOfFuel
    end.
Proof.
  induction vs1 as [|v vs1 IH]; intros b m; simpl; [done|].
  unfold vbind. destruct (ik_vertex_buffer_push b v m) as [[b1 m1]|f|];
    [apply IH|done..].
Qed.

Lemma moved_refl (m : arrays) b (cs : list vec2) :
  buffer_holds m b cs -> moved m m b b.
Proof.
  intros (a & cells & Ha & _). exists a, a.
  split; [done|]. split; [done|]. split; [done|by left].
Qed.

Lemma push_all_holds (vs : list vec2) : forall (m : arrays) b (cs : list vec2),
  buffer_holds m b cs ->
  (cap_after (List.length vs) (vb_size b) (vb_cap b) <= INT_MAX)%Z ->
  exists b' m',
    push_all vs b m = VOk (b', m') /\
    buffer_holds m' b' (cs ++ vs) /\
    moved m m' b b' /\
    vb_cap b' = cap_after (List.length vs) (vb_size b) (vb_cap b) /\
    ((vb_size b + Z.of_nat (List.length vs) <= vb_cap b)%Z ->
     vb_data b' = vb_data b).
Proof.
  induction vs as [|v vs IH]; intros m b cs Hb Hmax.
  - exists b, m. rewrite app_nil_r.
    split; [done|]. split; [done|]. split; [by eapply moved_refl|done].
  - simpl in Hmax.
    assert (Hc : (0 < vb_cap b)%Z) by (destruct Hb as (?&?&?&?&?&?&?&?); lia).
    assert (Hg : (0 < grow (vb_size b) (vb_cap b))%Z)
      by (unfold grow; destruct (vb_size b =? vb_cap b)%Z; lia).
    pose proof (cap_after_mono (List.length vs) (vb_size b + 1) _ Hg) as Hmono.
    destruct (push_holds m b cs v Hb) as (b1 & m1 & Hrun & Hb1 & Hmv & Hcap & Hd);
      [lia|].
    assert (Hs1 : vb_size b1 = (vb_size b + 1)%Z).
    { destruct Hb as (?&?&?&?&?&Hs&?&?). destruct Hb1 as (?&?&?&?&?&Hs1&?&?).
      rewrite Hs1, Hs, length_app. simpl. lia. }
    destruct (IH m1 b1 (cs ++ [v]) Hb1) as (b' & m' & Hrun' & Hb' & Hmv' & Hcap' & Hd').
    { by rewrite Hs1, Hcap. }
    exists b', m'. simpl. rewrite (vbind_Ok _ _ _ _ _ Hrun).
    split; [done|]. split; [by rewrite <- app_assoc in Hb'|].
    split; [by eapply moved_trans|]. split; [by rewrite Hcap', Hs1, Hcap|].
    intros Hle. rewrite Hd', Hd; [done|lia|].
    rewrite Hs1, Hcap. unfold grow.
    rewrite (proj2 (Z.eqb_neq _ _)) by lia. lia.
Qed.

(** Pushing again what the buffer holds, from the place where it is held,
    writes the values that are there. *)
Lemma push_all_again (vs : list vec2) : forall (m : arrays) b (cs : list vec2),
  buffer_holds m b (cs ++ vs) ->
  push_all vs (VB (vb_data b) (Z.of_nat (List.length cs)) (vb_cap b)) m
  = VOk (b, m).
Proof.
  induction vs as [|v vs IH]; intros m b cs Hb.
  - rewrite app_nil_r in Hb. destruct Hb as (?&?&?&?&?&Hs&?&?).
    simpl. unfold vret. rewrite <- Hs. by destruct b.
  - pose proof (buffer_holds_size _ _ _ Hb) as Hsz.
    destruct Hb as (a & cells & Ha & Hm & Hlen & Hs & Htake & Hc).
    rewrite length_app in Hs, Htake. simpl in Hs, Htake.
    assert (Hcell : cells !! List.length cs = Some (Some v)).
    { rewrite <- (lookup_take_lt _ (List.length cs + S (List.length vs))) by lia.
      rewrite Htake, list_lookup_fmap, lookup_app_r by lia.
      by rewrite Nat.sub_diag. }
    simpl. erewrite vbind_Ok; cycle 1.
    { apply (push_room m _ cs v a cells); simpl; try done; lia. }
    simpl. rewrite list_insert_id by done. rewrite insert_id by done.
    specialize (IH m b (cs ++ [v])).
    rewrite length_app, Nat2Z.inj_add in IH. simpl in IH.
    rewrite <- Ha. apply IH.
    exists a, cells. rewrite <- app_assoc, length_app. simpl.
    split; [done|]. split; [done|]. split; [done|]. split; [done|].
    split; [done|done].
Qed.

(** *** The positions of a tree, segment by segment *)

(** The positions [ik_get_render_data] writes: for each joint below the
    root, the position of its parent and its own, in the order of the
    traversal. *)
Fixpoint segments (h : heap) (t : shape) : list vec2 :=
  match t with
  | Sh a kids =>
      concat (List.map (fun k => pos h a :: pos h (root_addr k) :: segments h k)
                       kids)
  end.

Definition segments_from (h : heap) (a : addr) (kids : list shape)
    : list vec2 :=
  concat (List.map (fun k => pos h a :: pos h (root_addr k) :: segments h k)
                   kids).

Lemma segments_length h t :
  (List.length (segments h t) + 2 = 2 * List.length (ids t))%nat.
Proof.
  induction t as [a kids IH] using shape_ind'. simpl.
  induction IH as [|k kids Hk _ IHk]; [done|].
  simpl. rewrite !length_app. simpl in IHk. lia.
Qed.

Lemma v_for_each_app {A} (l1 l2 : list A) body : forall b m,
  v_for_each (l1 ++ l2) b body m
  = match v_for_each l1 b body m with
    | VOk (b1, m1) => v_for_each l2 b1 body m1
    | VFault f => VFault f
    | VOutOfFuel => VOutOfFuel
    end.
Proof.
  induction l1 as [|x l1 IH]; intros b m; simpl; [done|].
  unfold vbind. destruct (body x b m) as [[b1 m1]|f|]; [apply IH|done..].
Qed.

(** The loop over the child slots, where the traversal of each child is
    known to be a run of pushes. *)
Lemma kids_segments (h : heap) a fuel kids :
  Forall (fun k => forall b (m : arrays),
    ik_get_render_data_no_reset h fuel (Some (root_addr k)) b m
    = push_all (segments h k) b m) kids ->
  Forall (is_tree h (Some a)) kids ->
  forall b (m : arrays),
    v_for_each (slots_of kids) b (fun child b0 =>
      b1 <~ ik_vertex_buffer_push b0 (pos h a) ;;
      c <~ v_load h child ;;
      b2 <~ ik_vertex_buffer_push b1 (position c) ;;
      ik_get_render_data_no_reset h fuel child b2) m
    = push_all (segments_from h a kids) b m.
Proof.
  induction kids as [|k kids IHk]; intros IH Hk b m; [done|].
  apply Forall_cons in IH as [IH1 IH2]. apply Forall_cons in Hk as [Hk1 Hk2].
  change (slots_of (k :: kids)) with ([Some (root_addr k)] ++ slots_of kids).
  change (segments_from h a (k :: kids))
    with ((pos h a :: pos h (root_addr k) :: segments h k)
          ++ segments_from h a kids).
  rewrite v_for_each_app, push_all_app.
  assert (Hone : forall b m,
    v_for_each [Some (root_addr k)] b (fun child b0 =>
      b1 <~ ik_vertex_buffer_push b0 (pos h a) ;;
      c <~ v_load h child ;;
      b2 <~ ik_vertex_buffer_push b1 (position c) ;;
      ik_get_render_data_no_reset h fuel child b2) m
    = push_all (pos h a :: pos h (root_addr k) :: segments h k) b m).
  { clear b m. intros b m. cbn [v_for_each push_all]. unfold vbind.
    destruct (ik_vertex_buffer_push b (pos h a) m) as [[b1 m1]|f|]; [|done..].
    inversion Hk1 as [? ak ? jk Hjk _ _ _]; subst.
    cbn [root_addr] in *. unfold v_load. rewrite Hjk.
    assert (Hposk : position jk = pos h ak) by (unfold pos; by rewrite Hjk).
    rewrite Hposk.
    destruct (ik_vertex_buffer_push b1 (pos h ak) m1) as [[b2 m2]|f|]; [|done..].
    rewrite IH1. by destruct (push_all _ b2 m2) as [[b3 m3]|f|]. }
  rewrite Hone.
  destruct (push_all _ b m) as [[b1 m1]|f|]; [|done..].
  by apply IHk.
Qed.

(** On a tree the traversal is the run of pushes of its segments, whatever
    the pushes do. *)
Lemma no_reset_segments (h : heap) t : forall par fuel b (m : arrays),
  is_tree h par t -> height t <= fuel ->
  ik_get_render_data_no_reset h fuel (Some (root_addr t)) b m
  = push_all (segments h t) b m.
Proof.
  induction t as [a kids IH] using shape_ind'.
  intros par fuel b m Ht Hh. inversion Ht as [? ? ? j Hj Hp Hc Hk]; subst.
  destruct fuel as [|fuel]; [simpl in Hh; lia|].
  simpl in Hh. apply Nat.succ_le_mono in Hh.
  cbn [ik_get_render_data_no_reset root_addr].
  unfold vbind at 1. unfold v_load at 1. rewrite Hj, Hc.
  change (segments h (Sh a kids)) with (segments_from h a kids).
  assert (Hpos : position j = pos h a) by (unfold pos; by rewrite Hj).
  rewrite Hpos. apply kids_segments; [|done].
  apply Forall_forall. intros k Hin b' m'.
  rewrite Forall_forall in IH. rewrite Forall_forall in Hk.
  apply (IH k Hin (Some a)); [by apply Hk|].
  pose proof (height_kid k kids Hin). lia.
Qed.

Lemma reset_holds (m : arrays) b (cs : list vec2) :
  buffer_holds m b cs -> buffer_holds m (ik_vertex_buffer_reset b) [].
Proof.
  intros (a & cells & Ha & Hm & Hlen & Hs & Htake & Hc).
  exists a, cells. by rewrite take_0.
Qed.

(** The capacity of a buffer that held nothing, after [n] pushes. *)
Lemma cap_after_bound n cap :
  (0 < cap <= INT_MAX)%Z -> (2 * Z.of_nat n <= INT_MAX)%Z ->
  exists k : nat,
    cap_after n 0 cap = (cap * 2 ^ Z.of_nat k)%Z /\
    (k = 0%nat \/ cap_after n 0 cap < 2 * Z.of_nat n)%Z /\
    (cap_after n 0 cap <= INT_MAX)%Z.
Proof.
  intros Hc Hn.
  destruct (cap_after_spec n 0 cap) as (k & Heq & _ & Hk); [lia..|].
  exists k. split; [done|]. split; [done|].
  destruct Hk as [->|Hk]; [|lia]. rewrite Heq. simpl. lia.
Qed.

(** The run of [ik_get_render_data] on a tree. *)
Lemma render_holds (h : heap) (m : arrays) t par fuel b (cs : list vec2) :
  is_tree h par t -> height t <= fuel ->
  buffer_holds m b cs ->
  (4 * Z.of_nat (List.length (ids t)) <= INT_MAX)%Z ->
  exists b' m',
    ik_get_render_data h fuel (Some (root_addr t)) b m = VOk (b', m') /\
    buffer_holds m' b' (segments h t) /\
    moved m m' b b' /\
    vb_cap b' = cap_after (List.length (segments h t)) 0 (vb_cap b) /\
    ((Z.of_nat (List.length (segments h t)) <= vb_cap b)%Z ->
     vb_data b' = vb_data b).
Proof.
  intros Ht Hh Hb Hmax. unfold ik_get_render_data.
  rewrite (no_reset_segments h t par) by done.
  pose proof (segments_length h t) as Hl.
  assert (Hc : (0 < vb_cap b <= INT_MAX)%Z)
    by (destruct Hb as (?&?&?&?&?&?&?&?); lia).
  destruct (cap_after_bound (List.length (segments h t)) (vb_cap b))
    as (k & _ & _ & Hle); [done|lia|].
  destruct (push_all_holds (segments h t) m (ik_vertex_buffer_reset b) []
              (reset_holds _ _ _ Hb) Hle)
    as (b' & m' & Hrun & Hb' & Hmv & Hcap & Hd).
  exists b', m'. split; [done|]. split; [done|]. split; [|done].
  destruct Hmv as (a & a' & Ha & Ha' & Hmv). by exists a, a'.
Qed.

(** [ik_get_render_data] on a tree: the buffer then holds the segments of
    the tree and nothing else, whatever it held before; its capacity is the
    one it had, doubled as often as needed and no more; the array moves only
    if it was too short, and no other array is touched. *)
Theorem ik_get_render_data_segments (h : heap) (m : arrays) t par fuel b
    (cs : list vec2) :
  is_tree h par t -> height t <= fuel ->
  buffer_holds m b cs ->
  (4 * Z.of_nat (List.length (ids t)) <= INT_MAX)%Z ->
  exists b' m',
    ik_get_render_data h fuel (Some (root_addr t)) b m = VOk (b', m') /\
    buffer_holds m' b' (segments h t) /\
    vb_size b' = (2 * (Z.of_nat (List.length (ids t)) - 1))%Z /\
    moved m m' b b' /\
    (exists k : nat,
       vb_cap b' = (vb_cap b * 2 ^ Z.of_nat k)%Z /\
       (k = 0%nat \/ (vb_cap b' < 2 * vb_size b')%Z)) /\
    ((vb_size b' <= vb_cap b)%Z -> vb_data b' = vb_data b).
Proof.
  intros Ht Hh Hb Hmax.
  destruct (render_holds h m t par fuel b cs Ht Hh Hb Hmax)
    as (b' & m' & Hrun & Hb' & Hmv & Hcap & Hd).
  pose proof (segments_length h t) as Hl.
  assert (Hs : vb_size b' = Z.of_nat (List.length (segments h t)))
    by (by destruct Hb' as (?&?&?&?&?&?&?&?)).
  assert (Hc : (0 < vb_cap b <= INT_MAX)%Z)
    by (destruct Hb as (?&?&?&?&?&?&?&?); lia).
  destruct (cap_after_bound (List.length (segments h t)) (vb_cap b))
    as (k & Heq & Hk & _); [done|lia|].
  exists b', m'. split; [done|]. split; [done|]. split; [lia|].
  split; [done|]. split.
  - exists k. rewrite Hcap, Hs. by split.
  - rewrite Hs. exact Hd.
Qed.

(** [ik_get_render_data] a second time, on the same joints: the buffer and
    the arrays stay as the first call left them, and nothing is allocated. *)
Theorem ik_get_render_data_again (h : heap) (m : arrays) t par fuel fuel' b
    (cs : list vec2) :
  is_tree h par t -> height t <= fuel -> height t <= fuel' ->
  buffer_holds m b cs ->
  (4 * Z.of_nat (List.length (ids t)) <= INT_MAX)%Z ->
  exists b' m',
    ik_get_render_data h fuel (Some (root_addr t)) b m = VOk (b', m') /\
    ik_get_render_data h fuel' (Some (root_addr t)) b' m' = VOk (b', m').
Proof using num.
  intros Ht Hh Hh' Hb Hmax.
  destruct (render_holds h m t par fuel b cs Ht Hh Hb Hmax)
    as (b' & m' & Hrun & Hb' & _).
  exists b', m'. split; [done|].
  unfold ik_get_render_data. rewrite (no_reset_segments h t par) by done.
  apply (push_all_again (segments h t) m' b' []). exact Hb'.
Qed.

(** [ik_free_vertex_buffer] frees the array and leaves its address in the
    buffer, with capacity 0: a push, a second [ik_free_vertex_buffer], or
    [ik_get_render_data] at a joint that has a child slot then uses the
    array that was freed. *)
Theorem ik_free_vertex_buffer_dangling (m : arrays) b (cs : list vec2) :
  buffer_holds m b cs ->
  exists a m1,
    vb_data b = Some a /\ m1 = delete a m /\
    ik_free_vertex_buffer b m = VOk (VB (Some a) 0 0, m1) /\
    (forall v, ik_vertex_buffer_push (VB (Some a) 0 0) v m1 = VFault VFreed) /\
    ik_free_vertex_buffer (VB (Some a) 0 0) m1 = VFault VFreed /\
    (forall (h : heap) fuel r j c rest,
       h !! r = Some j -> children j = c :: rest ->
       ik_get_render_data h (S fuel) (Some r) (VB (Some a) 0 0) m1
       = VFault VFreed).
Proof.
  intros (a & cells & Ha & Hm & _).
  assert (Hpush : forall v,
    ik_vertex_buffer_push (VB (Some a) 0 0) v (delete a m) = VFault VFreed).
  { intros v. unfold ik_vertex_buffer_push. simpl.
    unfold vbind at 1. unfold vbind at 1. unfold v_malloc.
    set (a' := fresh (dom (delete a m))).
    unfold vbind at 1. unfold v_memcpy. rewrite lookup_insert_eq.
    destruct (decide (a = a')) as [Heq|Hne].
    - rewrite Heq, lookup_insert_eq. simpl.
      unfold vbind at 1. unfold v_free. rewrite lookup_insert_eq.
      unfold vret. unfold vbind, v_store. simpl.
      by rewrite lookup_delete_eq.
    - rewrite lookup_insert_ne by done. by rewrite lookup_delete_eq. }
  exists a, (delete a m). split; [done|]. split; [done|].
  split; [|split; [done|split]].
  - unfold ik_free_vertex_buffer, vbind, v_free. by rewrite Ha, Hm.
  - unfold ik_free_vertex_buffer, vbind, v_free. simpl.
    by rewrite lookup_delete_eq.
  - intros h fuel r j c rest Hj Hc. unfold ik_get_render_data.
    cbn [ik_get_render_data_no_reset]. unfold vbind at 1. unfold v_load at 1.
    rewrite Hj, Hc. cbn [v_for_each]. unfold vbind at 1. unfold vbind at 1.
    unfold ik_vertex_buffer_reset. simpl vb_data. simpl vb_cap.
    by rewrite Hpush.
Qed.

(** A buffer from [ik_new_vertex_buffer], filled by [ik_get_render_data] and
    freed by [ik_free_vertex_buffer]: the arrays are then as they were
    before the buffer was made, however often it was moved. *)
Theorem ik_vertex_buffer_round_trip (h : heap) (m : arrays) t par fuel :
  is_tree h par t -> height t <= fuel ->
  (4 * Z.of_nat (List.length (ids t)) <= INT_MAX)%Z ->
  exists a,
    (b <~ ik_new_vertex_buffer ;;
     b1 <~ ik_get_render_data h fuel (Some (root_addr t)) b ;;
     ik_free_vertex_buffer b1) m
    = VOk (VB (Some a) 0 0, m) /\
    m !! a = None.
Proof using num.
  intros Ht Hh Hmax.
  set (a0 := fresh (dom m)).
  assert (Ha0 : m !! a0 = None) by (apply not_elem_of_dom, is_fresh).
  set (m0 := <[a0 := replicate 10 None]> m).
  assert (Hb0 : buffer_holds m0 (VB (Some a0) 0 10) []).
  { exists a0, (replicate 10 None). split; [done|].
    split; [by apply lookup_insert_eq|]. unfold INT_MAX. simpl.
    split; [done|]. split; [done|]. split; [done|lia]. }
  destruct (render_holds h m0 t par fuel _ [] Ht Hh Hb0 Hmax)
    as (b' & m' & Hrun & Hb' & Hmv & _).
  destruct Hmv as (a & a' & Ha & Ha' & Hdel & Hfree).
  simpl in Ha. injection Ha as <-.
  assert (Hm : delete a' m' = m).
  { rewrite Hdel. unfold m0. rewrite delete_insert_eq. by apply delete_id. }
  exists a'. split.
  - unfold vbind at 1. unfold ik_new_vertex_buffer at 1.
    unfold vbind at 1. unfold v_malloc, vret at 1. fold a0.
    change (<[a0:=replicate (Z.to_nat 10) None]> m) with m0.
    unfold vbind at 1. rewrite Hrun.
    destruct Hb' as (a1 & cells & Ha1 & Hm1 & _).
    rewrite Ha' in Ha1. injection Ha1 as <-.
    unfold ik_free_vertex_buffer, vbind, v_free. rewrite Ha', Hm1.
    unfold vret. by rewrite Hm.
  - rewrite <- Hm. apply lookup_delete_eq.
Qed.

(** [ik_get_render_data] at a joint with a child slot that is not attached:
    the position of the joint is pushed for the slot, and the child is then
    read through NULL. *)
Theorem ik_get_render_data_empty_slot (h : heap) (m : arrays) r j kids rest
    fuel b (cs : list vec2) :
  h !! r = Some j ->
  children j = slots_of kids ++ NULL :: rest ->
  Forall (is_tree h (Some r)) kids ->
  Forall (fun k => height k <= fuel) kids ->
  buffer_holds m b cs ->
  (4 * (Z.of_nat (List.length (ids_list kids)) + 1) <= INT_MAX)%Z ->
  ik_get_render_data h (S fuel) (Some r) b m = VFault (VJoint NullDeref).
Proof using num.
  intros Hj Hc Hk Hh Hb Hmax. unfold ik_get_render_data.
  cbn [ik_get_render_data_no_reset]. unfold vbind at 1. unfold v_load at 1.
  rewrite Hj, Hc.
  assert (Hpos : position j = pos h r) by (unfold pos; by rewrite Hj).
  rewrite Hpos, v_for_each_app, kids_segments; [|
    rewrite Forall_forall in Hk; rewrite Forall_forall in Hh;
    apply Forall_forall; intros k Hin b' m';
    by apply (no_reset_segments h k (Some r)); [apply Hk|apply Hh] | done].
  assert (Hlen : (List.length (segments_from h r kids)
                  = 2 * List.length (ids_list kids))%nat).
  { clear. unfold segments_from, ids_list.
    induction kids as [|k kids IH]; [done|]. simpl.
    pose proof (segments_length h k). rewrite !length_app. lia. }
  assert (Hc0 : (0 < vb_cap b <= INT_MAX)%Z)
    by (destruct Hb as (?&?&?&?&?&?&?&?); lia).
  destruct (cap_after_bound (List.length (segments_from h r kids ++ [pos h r]))
              (vb_cap b))
    as (k & _ & _ & Hle); [done|rewrite length_app; simpl; lia|].
  destruct (push_all_holds (segments_from h r kids ++ [pos h r]) m
              (ik_vertex_buffer_reset b) [] (reset_holds _ _ _ Hb) Hle)
    as (b' & m' & Hrun & _).
  rewrite push_all_app in Hrun.
  destruct (push_all (segments_from h r kids) (ik_vertex_buffer_reset b) m)
    as [[b1 m1]|f|]; [|done..].
  cbn [push_all] in Hrun. unfold vbind at 1 in Hrun.
  cbn [v_for_each]. unfold vbind at 1. unfold vbind at 1.
  destruct (ik_vertex_buffer_push b1 (pos h r) m1) as [[b2 m2]|f|]; [|done..].
  done.
Qed.

End Render.

(** ** Attaching a joint that is attached *)

Section Reattach.
Context {F : Type} {num : Num F}.

Local Abbreviation joint := (ik_joint F).
Local Abbreviation W := (world F).

Lemma attach_free (w : W) c p jp l1 l2 :
  joints w !! p = Some jp ->
  children jp = l1 ++ NULL :: l2 ->
  Forall (fun s => s <> NULL) l1 ->
  is_Some (joints w !! c) ->
  ik_attach_joint (Some c) (Some p) w
  = Ok (IK_OK, set_joints
         (alter (set_parent (Some p)) c
            (<[p := set_children (l1 ++ Some c :: l2) jp]> (joints w))) w).
Proof.
  intros Hjp Hc Hl1 Hchild. unfold ik_attach_joint.
  erewrite bind_Ok by (by apply load_Some).
  rewrite Hc. erewrite ik_attach_joint_from_free by done. simpl.
  rewrite Hc. by rewrite (insert_app_r_alt l1 _ (List.length l1)), Nat.sub_diag.
Qed.

(** [ik_attach_joint] does not detach: a joint that is attached to one
    parent and then to another is in a slot of both, and its [parent] is the
    second. *)
Theorem ik_attach_joint_twice (w : W) c p1 p2 (j1 j2 : joint) l1 r1 l2 r2 :
  p1 <> p2 -> c <> p1 -> c <> p2 ->
  joints w !! p1 = Some j1 -> joints w !! p2 = Some j2 ->
  is_Some (joints w !! c) ->
  children j1 = l1 ++ NULL :: r1 -> Forall (fun s => s <> NULL) l1 ->
  children j2 = l2 ++ NULL :: r2 -> Forall (fun s => s <> NULL) l2 ->
  exists w',
    (ik_attach_joint (Some c) (Some p1) ;; ik_attach_joint (Some c) (Some p2)) w
    = Ok (IK_OK, w') /\
    children <$> joints w' !! p1 = Some (l1 ++ Some c :: r1) /\
    children <$> joints w' !! p2 = Some (l2 ++ Some c :: r2) /\
    parent <$> joints w' !! c = Some (Some p2).
Proof.
  intros Hp Hc1 Hc2 Hj1 Hj2 [jc Hjc] Hs1 Hn1 Hs2 Hn2.
  erewrite bind_Ok by (by eapply attach_free).
  set (w1 := set_joints _ w).
  assert (Hj2' : joints w1 !! p2 = Some j2).
  { unfold w1. rewrite joints_set_joints.
    rewrite lookup_alter_ne, lookup_insert_ne by done. done. }
  assert (Hjc' : joints w1 !! c = Some (set_parent (Some p1) jc)).
  { unfold w1. rewrite joints_set_joints.
    rewrite lookup_alter_eq, lookup_insert_ne by done. by rewrite Hjc. }
  erewrite attach_free; [|exact Hj2'|done|done|by rewrite Hjc'].
  eexists. split; [done|]. rewrite joints_set_joints.
  split; [|split].
  - rewrite lookup_alter_ne, lookup_insert_ne by done.
    unfold w1. rewrite joints_set_joints.
    rewrite lookup_alter_ne, lookup_insert_eq by done. done.
  - rewrite lookup_alter_ne, lookup_insert_eq by done. done.
  - rewrite lookup_alter_eq, lookup_insert_ne by done. by rewrite Hjc'.
Qed.

End Reattach.

(** ** [ik_translate] in exact arithmetic *)

Section Translate.

Local Abbreviation xworld := (world xreal).

(** [ik_translate] in exact arithmetic: the root lands on (x, y), every
    joint of the tree is moved by the vector that takes the root there, and
    no other joint is touched. *)
Theorem ik_translate_moves_tree (w : xworld) t par fuel rx ry x_ y_ :
  is_tree (joints w) par t ->
  NoDup (ids t) ->
  (height t <= fuel)%nat ->
  pos (joints w) (root_addr t) = vfin rx ry ->
  exists w',
    ik_translate fuel (Some (root_addr t)) (Fin x_) (Fin y_) w = Ok (tt, w') /\
    ik_stack w' = ik_stack w /\
    pos (joints w') (root_addr t) = vfin x_ y_ /\
    (forall u ux uy, u ∈ ids t -> pos (joints w) u = vfin ux uy ->
       pos (joints w') u = vfin (ux + (x_ - rx)) (uy + (y_ - ry))) /\
    (forall a, a ∉ ids t -> joints w' !! a = joints w !! a).
Proof.
  intros Ht Hnd Hh Hr.
  destruct (is_tree_alloc _ _ _ _ Ht (root_in_ids t)) as [jr Hjr].
  unfold ik_translate. erewrite bind_Ok by (by apply load_Some).
  rewrite ik_translate_relative_map.
  erewrite map_branch_tree by done.
  eexists. split; [done|]. split; [done|]. rewrite joints_set_joints.
  unfold pos in Hr. rewrite Hjr in Hr. simpl in Hr. rewrite Hr. simpl x. simpl y.
  change (fsub (Fin x_) (Fin rx)) with (Fin (x_ - rx)).
  change (fsub (Fin y_) (Fin ry)) with (Fin (y_ - ry)).
  split; [|split].
  - rewrite (map_pos_translate _ _ _ _ _ rx ry); [|done|apply root_in_ids|done|].
    + unfold vfin. f_equal; f_equal; lra.
    + unfold pos. by rewrite Hjr.
  - intros u ux uy Hu Hpu.
    by apply map_pos_translate; [| |eapply is_tree_alloc|].
  - intros a Ha. by apply map_pos_lookup_notin.
Qed.

End Translate.

(** ** The further theorems at concrete stores *)

(** [ik_solve] at the tree of four joints in binary32, joint 2 sent to
    (6, 8). *)
Lemma ik_solve_keeps_structure_witness :
  exists w',
    ik_solve 6 (Some 2%nat) (f32_of_Z 6) (f32_of_Z 8) w_branch32 = Ok (1%Z, w') /\
    ik_stack w' = ik_stack w_branch32 /\
    dom (joints w') = dom (joints w_branch32) /\
    (forall a j, joints w_branch32 !! a = Some j ->
       exists j', joints w' !! a = Some j' /\
         seg_length j' = seg_length j /\ parent j' = parent j /\
         children j' = children j) /\
    (forall a, a ∉ ids t_branch -> joints w' !! a = joints w_branch32 !! a).
Proof.
  apply (ik_solve_keeps_structure [Frame 0 [] [Sh 3 []]; Frame 1 [] []] []
           2%nat w_branch32 6 (f32_of_Z 6) (f32_of_Z 8)).
  - tree_tac.
  - compute_done.
  - constructor.
  - simpl. lia.
  - unfold IK_STACK_SIZE. simpl. lia.
Defined.

(** [ik_translate_relative] at the same tree, by (2, -1). *)
Lemma ik_translate_relative_moves_tree_witness :
  exists w',
    ik_translate_relative 3 (Some 0%nat) (f32_of_Z 2) (f32_of_Z (-1)) w_branch32
    = Ok (tt, w') /\
    ik_stack w' = ik_stack w_branch32 /\
    (forall a j, a ∈ ids t_branch -> joints w_branch32 !! a = Some j ->
       joints w' !! a
       = Some (Joint (Vec2 (fadd (x (position j)) (f32_of_Z 2))
                           (fadd (y (position j)) (f32_of_Z (-1))))
                 (seg_length j) (parent j) (children j))) /\
    (forall a, a ∉ ids t_branch -> joints w' !! a = joints w_branch32 !! a).
Proof.
  apply (ik_translate_relative_moves_tree w_branch32 t_branch None 3).
  - unfold t_branch. tree_tac.
  - compute_done.
  - simpl. lia.
Defined.

(** Three pushes and three pops. *)
Lemma ik_stack_lifo_witness :
  exists w1 w2,
    for_each [Some 1%nat; NULL; Some 2%nat] ik_stack_push w_branch32
    = Ok (tt, w1) /\
    ik_stack_top w1 = Ok (Some 2%nat, w1) /\
    pop_n 3 w1 = Ok ([Some 2%nat; NULL; Some 1%nat], w2) /\
    ik_stack w2 = ik_stack w_branch32 /\ joints w2 = joints w_branch32.
Proof.
  apply (ik_stack_lifo [Some 1%nat; NULL; Some 2%nat] w_branch32).
  unfold IK_STACK_SIZE. simpl. lia.
Defined.

(** 1025 pushes on the empty stack. *)
Lemma ik_stack_overflow_witness :
  for_each (replicate 1025 NULL) ik_stack_push w_branch32
  = Fault StackOverflow.
Proof.
  apply (ik_stack_overflow (replicate 1025 NULL) w_branch32).
  - unfold IK_STACK_SIZE. simpl. lia.
  - rewrite length_replicate. unfold IK_STACK_SIZE. simpl. lia.
Defined.

(** The parent with three slots, the first occupied. *)
Lemma ik_translate_relative_empty_slot_witness :
  ik_translate_relative 3 (Some 0%nat) (f32_of_Z 1) (f32_of_Z 1) w_attach
  = Fault NullDeref.
Proof.
  apply (ik_translate_relative_empty_slot w_attach 0%nat j_parent
           [Sh 1 [Sh 2 []]] [NULL] 2).
  - reflexivity.
  - reflexivity.
  - tree_tac.
  - compute_done.
  - repeat constructor.
  - lia.
Defined.

(** A joint as [ik_new_joint] makes it, with two slots. *)
Definition w_lone : world f32 :=
  World {[ 0%nat := Joint (v32 0 0) (f32_of_Z 1) NULL [NULL; NULL] ]} [] 0 0.

Lemma ik_solve_empty_slots_witness :
  ik_solve 4 (Some 0%nat) (f32_of_Z 1) (f32_of_Z 1) w_lone = Fault NullDeref.
Proof.
  apply (ik_solve_empty_slots w_lone 0%nat
           (Joint (v32 0 0) (f32_of_Z 1) NULL [NULL; NULL]) 1 3);
    reflexivity.
Defined.

(** Two trees that are not attached: the joints 1 and 2, and the joint 3. *)
Definition w_parts : world f32 :=
  World (list_to_map
    [(1%nat, Joint (v32 3 0) (f32_of_Z 3) NULL [Some 2%nat]);
     (2%nat, Joint (v32 3 4) (f32_of_Z 4) (Some 1%nat) []);
     (3%nat, Joint (v32 0 2) (f32_of_Z 2) NULL [])]) [] 0 0.

Lemma new_node_tree_witness :
  exists p w',
    new_node (f32_of_Z 1) [Sh 1 [Sh 2 []]; Sh 3 []] w_parts
    = Ok ((Some p, [IK_OK; IK_OK]), w') /\
    joints w_parts !! p = None /\
    is_tree (joints w') NULL (Sh p [Sh 1 [Sh 2 []]; Sh 3 []]) /\
    NoDup (ids (Sh p [Sh 1 [Sh 2 []]; Sh 3 []])) /\
    joints w' !! p
    = Some (Joint (Vec2 fzero fzero) (f32_of_Z 1) NULL [Some 1%nat; Some 3%nat]) /\
    (forall a j, joints w_parts !! a = Some j ->
       joints w' !! a
       = Some (if decide (a ∈ [1%nat; 3%nat])
               then set_parent (Some p) j else j)) /\
    ik_stack w' = ik_stack w_parts /\
    (forall c, ik_attach_joint c (Some p) w' = Ok (IK_ERROR, w')).
Proof.
  apply (new_node_tree w_parts (f32_of_Z 1) [Sh 1 [Sh 2 []]; Sh 3 []]).
  - tree_tac.
  - compute_done.
Defined.

(** The parent with three slots, two of them empty, deleted with the two
    joints below it. *)
Lemma ik_delete_branch_frees_witness :
  exists w',
    ik_delete_branch 3 (Some 0%nat) w_attach = Ok (tt, w') /\
    ik_stack w' = ik_stack w_attach /\
    forall a, joints w' !! a
              = if decide (a ∈ [0%nat; 1%nat; 2%nat]) then None
                else joints w_attach !! a.
Proof.
  apply (ik_delete_branch_frees w_attach (Sh 0 [Sh 1 [Sh 2 []]]) 3).
  - repeat first
      [ apply Forall_nil_2
      | apply Forall_cons_2
      | eapply is_branch_node; [reflexivity | reflexivity | ] ].
  - compute_done.
  - simpl. lia.
Defined.

(** The leaf 2 of the tree of four joints, deleted from below its parent. *)
Lemma ik_delete_branch_dangling_witness :
  exists w1 jf,
    ik_delete_branch 6 (Some 2%nat) w_branch32 = Ok (tt, w1) /\
    joints w1 !! 2%nat = None /\
    joints w1 !! 1%nat = Some jf /\
    Some 2%nat ∈ children jf /\
    ik_delete_branch 6 (Some 2%nat) w1 = Fault InvalidPointer /\
    ik_delete_branch 6 (Some 0%nat) w1 = Fault InvalidPointer.
Proof.
  apply (ik_delete_branch_dangling [Frame 0 [] [Sh 3 []]] (Frame 1 [] [])
           (Sh 2 []) w_branch32 6).
  - tree_tac.
  - compute_done.
  - simpl. lia.
Defined.

(** A buffer of four cells, which the six positions of the tree of four
    joints do not fit. *)
Definition b_four : ik_vertex_buffer := VB (Some 0%nat) 0 4.

Definition m_four : gmap addr (list (option (ik_vec2 f32))) :=
  {[ 0%nat := replicate 4 None ]}.

Lemma b_four_holds : buffer_holds m_four b_four [].
Proof.
  exists 0%nat, (replicate 4 None). unfold INT_MAX.
  split; [reflexivity|]. split; [reflexivity|]. split; [reflexivity|].
  split; [reflexivity|]. split; [reflexivity|]. simpl. lia.
Defined.

Lemma ik_get_render_data_segments_witness :
  exists b' m',
    ik_get_render_data (joints w_branch32) 3 (Some 0%nat) b_four m_four
    = VOk (b', m') /\
    buffer_holds m' b'
      [v32 0 0; v32 3 0; v32 3 0; v32 3 4; v32 0 0; v32 0 2] /\
    vb_size b' = 6%Z /\
    moved m_four m' b_four b' /\
    (exists k : nat,
       vb_cap b' = (4 * 2 ^ Z.of_nat k)%Z /\
       (k = 0%nat \/ (vb_cap b' < 2 * vb_size b')%Z)) /\
    ((vb_size b' <= 4)%Z -> vb_data b' = Some 0%nat).
Proof.
  apply (ik_get_render_data_segments (joints w_branch32) m_four t_branch None 3
           b_four []).
  - unfold t_branch. tree_tac.
  - simpl. lia.
  - exact b_four_holds.
  - unfold INT_MAX. simpl. lia.
Defined.

Lemma ik_get_render_data_again_witness :
  exists b' m',
    ik_get_render_data (joints w_branch32) 3 (Some 0%nat) b_four m_four
    = VOk (b', m') /\
    ik_get_render_data (joints w_branch32) 5 (Some 0%nat) b' m' = VOk (b', m').
Proof.
  apply (ik_get_render_data_again (joints w_branch32) m_four t_branch None 3 5
           b_four []).
  - unfold t_branch. tree_tac.
  - simpl. lia.
  - simpl. lia.
  - exact b_four_holds.
  - unfold INT_MAX. simpl. lia.
Defined.

Lemma ik_free_vertex_buffer_dangling_witness :
  exists a m1,
    vb_data b_four = Some a /\ m1 = delete a m_four /\
    ik_free_vertex_buffer b_four m_four = VOk (VB (Some a) 0 0, m1) /\
    (forall v, ik_vertex_buffer_push (VB (Some a) 0 0) v m1 = VFault VFreed) /\
    ik_free_vertex_buffer (VB (Some a) 0 0) m1 = VFault VFreed /\
    (forall (h : gmap addr (ik_joint f32)) fuel r j c rest,
       h !! r = Some j -> children j = c :: rest ->
       ik_get_render_data h (S fuel) (Some r) (VB (Some a) 0 0) m1
       = VFault VFreed).
Proof.
  apply (ik_free_vertex_buffer_dangling m_four b_four []).
  exact b_four_holds.
Defined.

Lemma ik_vertex_buffer_round_trip_witness :
  exists a,
    (b <~ ik_new_vertex_buffer ;;
     b1 <~ ik_get_render_data (joints w_branch32) 3 (Some 0%nat) b ;;
     ik_free_vertex_buffer b1) m_four
    = VOk (VB (Some a) 0 0, m_four) /\
    m_four !! a = None.
Proof.
  apply (ik_vertex_buffer_round_trip (joints w_branch32) m_four t_branch None 3).
  - unfold t_branch. tree_tac.
  - simpl. lia.
  - unfold INT_MAX. simpl. lia.
Defined.

Lemma ik_get_render_data_empty_slot_witness :
  ik_get_render_data (joints w_attach) 3 (Some 0%nat) b_four m_four
  = VFault (VJoint NullDeref).
Proof.
  apply (ik_get_render_data_empty_slot (joints w_attach) m_four 0%nat j_parent
           [Sh 1 [Sh 2 []]] [NULL] 2 b_four []).
  - reflexivity.
  - reflexivity.
  - tree_tac.
  - repeat constructor.
  - exact b_four_holds.
  - unfold INT_MAX. simpl. lia.
Defined.

(** Two parents with a free slot each, and a joint to attach. *)
Definition w_parents : world f32 :=
  World (list_to_map
    [(0%nat, Joint (v32 0 0) (f32_of_Z 1) NULL [NULL]);
     (1%nat, Joint (v32 1 0) (f32_of_Z 1) NULL [Some 3%nat; NULL]);
     (2%nat, Joint (v32 2 0) (f32_of_Z 1) NULL []);
     (3%nat, Joint (v32 3 0) (f32_of_Z 1) (Some 1%nat) [])]) [] 0 0.

Lemma ik_attach_joint_twice_witness :
  exists w',
    (ik_attach_joint (Some 2%nat) (Some 0%nat) ;;
     ik_attach_joint (Some 2%nat) (Some 1%nat)) w_parents
    = Ok (IK_OK, w') /\
    children <$> joints w' !! 0%nat = Some [Some 2%nat] /\
    children <$> joints w' !! 1%nat = Some [Some 3%nat; Some 2%nat] /\
    parent <$> joints w' !! 2%nat = Some (Some 1%nat).
Proof.
  apply (ik_attach_joint_twice w_parents 2%nat 0%nat 1%nat
           (Joint (v32 0 0) (f32_of_Z 1) NULL [NULL])
           (Joint (v32 1 0) (f32_of_Z 1) NULL [Some 3%nat; NULL])
           [] [] [Some 3%nat] []).
  - lia.
  - lia.
  - lia.
  - reflexivity.
  - reflexivity.
  - eexists. reflexivity.
  - reflexivity.
  - constructor.
  - reflexivity.
  - repeat constructor. discriminate.
Defined.

(** The tree of four joints in exact arithmetic, its root sent to (5, 7). *)
Lemma ik_translate_moves_tree_witness :
  exists w',
    ik_translate 3 (Some 0%nat) (Fin 5) (Fin 7) w_branch = Ok (tt, w') /\
    ik_stack w' = ik_stack w_branch /\
    pos (joints w') 0%nat = vfin 5 7 /\
    (forall u ux uy, u ∈ ids t_branch -> pos (joints w_branch) u = vfin ux uy ->
       pos (joints w') u = vfin (ux + (5 - 0)) (uy + (7 - 0))) /\
    (forall a, a ∉ ids t_branch -> joints w' !! a = joints w_branch !! a).
Proof.
  apply (ik_translate_moves_tree w_branch t_branch None 3 0 0 5 7).
  - unfold t_branch. tree_tac.
  - compute_done.
  - simpl. lia.
  - reflexivity.
Defined.

(** The tree of four joints with the path stack full of stale entries:
    [ik_solve] alone would push beyond the array. *)
Definition w_stale : world f32 :=
  World (joints w_branch32) (replicate 1024 NULL) 0 0.

Lemma ik_init_solve_witness :
  exists w',
    (ik_init ;; ik_solve 6 (Some 2%nat) (f32_of_Z 6) (f32_of_Z 8)) w_stale
    = Ok (1%Z, w') /\
    ik_stack w' = [] /\
    dom (joints w') = dom (joints w_stale).
Proof.
  apply (ik_init_solve [Frame 0 [] [Sh 3 []]; Frame 1 [] []] []
           2%nat w_stale 6 (f32_of_Z 6) (f32_of_Z 8)).
  - tree_tac.
  - compute_done.
  - constructor.
  - simpl. lia.
  - unfold IK_STACK_SIZE. simpl. lia.
Defined.
